(** * An iterative DNS resolver: shallow embedding and verified properties

    The program walks the DNS hierarchy from a hard-coded table of root
    servers: it queries a server, stops on an authoritative answer, follows
    a referral otherwise, and falls back to another root server when the
    transport fails.

    The Go code is embedded as a state-and-panic monad over
    - the outside world (sockets, host resolution, map iteration order,
      the random source), an abstract [Env];
    - the package-level variable [rootServers];
    - a chronological trace of every external call and printed line. *)

From stdpp Require Import gmap strings list fin_maps vector pretty.
From Stdlib.Strings Require Import Byte.

Local Open Scope string_scope.
Local Open Scope list_scope.

(** ** The message types of [golang.org/x/net/dns/dnsmessage] *)

Module dnsmessage.

(** [Type] and [Class] are [uint16] in the library. *)
Definition TypeA : N := 1.
Definition TypeNS : N := 2.
Definition TypeAAAA : N := 28.
Definition ClassINET : N := 1.

(** A [Name] is a byte array and a length; the model keeps the string
    [Data[:Length]], which is what [Name.String] returns. *)
Record Name := mkName { Name_String : string }.

(** [NewName] refuses names longer than the 255 bytes of [Name.Data];
    [MustNewName] panics in that case ([None]). *)
Definition MustNewName (name : string) : option Name :=
  if decide (String.length name ≤ 255)%nat then Some (mkName name) else None.

(** [Header]: the fields of the message header. *)
Record Header := mkHeader {
  ID : N;
  Response : bool;
  OpCode : N;
  Authoritative : bool;
  Truncated : bool;
  RecursionDesired : bool;
  RecursionAvailable : bool;
  AuthenticData : bool;
  CheckingDisabled : bool;
  RCode : N }.

(** [Question{Name, Type, Class}]. *)
Record Question := mkQuestion {
  QName : Name;
  QType : N;
  QClass : N }.

(** [ResourceHeader{Name, Type, Class, TTL, Length}]. *)
Record ResourceHeader := mkResourceHeader {
  RName : Name;
  RType : N;
  RClass : N;
  RTTL : N;
  RLength : N }.

(** [ResourceBody] is an interface; the resolver asserts three of its
    dynamic types. *)
Inductive ResourceBody :=
| AResource (A : vec byte 4)
| NSResource (NS : Name)
| AAAAResource (AAAA : vec byte 16)
| OtherResource (data : list byte).

(** [Resource{Header, Body}]. *)
Record Resource := mkResource {
  RHeader : ResourceHeader;
  Body : ResourceBody }.

(** [Message]: the embedded header and the four sections. *)
Record Message := mkMessage {
  MHeader : Header;
  Questions : list Question;
  Answers : list Resource;
  Authorities : list Resource;
  Additionals : list Resource }.

(** What the library's decoder guarantees of a resource: the body it
    built is the one the header's type calls for. *)
Definition wellTyped (r : Resource) : bool :=
  if (RType (RHeader r) =? TypeA)%N then
    match Body r with AResource _ => true | _ => false end
  else if (RType (RHeader r) =? TypeNS)%N then
    match Body r with NSResource _ => true | _ => false end
  else if (RType (RHeader r) =? TypeAAAA)%N then
    match Body r with AAAAResource _ => true | _ => false end
  else true.

Definition wellTypedMessage (m : Message) : bool :=
  forallb wellTyped (Answers m) && forallb wellTyped (Authorities m)
  && forallb wellTyped (Additionals m).

End dnsmessage.

Import dnsmessage.

(** ** Library functions on strings and addresses *)

(** [strings.HasSuffix] and [strings.TrimSuffix]. *)
Definition HasSuffix (s suffix : string) : bool :=
  bool_decide (String.length suffix ≤ String.length s)%nat
  && String.eqb
       (String.substring (String.length s - String.length suffix)
          (String.length suffix) s)
       suffix.

Definition TrimSuffix (s suffix : string) : string :=
  if HasSuffix s suffix
  then String.substring 0 (String.length s - String.length suffix) s
  else s.

(** [net.IP(a[:]).String()] of a four-byte address: dotted decimal. *)
Definition IPv4_String (a : vec byte 4) : string :=
  pretty (Byte.to_N (a !!! 0%fin)) +:+ "." +:+
  pretty (Byte.to_N (a !!! 1%fin)) +:+ "." +:+
  pretty (Byte.to_N (a !!! 2%fin)) +:+ "." +:+
  pretty (Byte.to_N (a !!! 3%fin)).

(** ** The root-server table *)

Definition rootServers : gmap string string :=
  list_to_map [
    ("a.root-servers.net", "198.41.0.4");
    ("b.root-servers.net", "192.228.79.201");
    ("c.root-servers.net", "192.33.4.12");
    ("d.root-servers.net", "128.8.10.90");
    ("e.root-servers.net", "192.203.230.10");
    ("f.root-servers.net", "192.5.5.241");
    ("g.root-servers.net", "192.112.36.4");
    ("h.root-servers.net", "128.63.2.53");
    ("i.root-servers.net", "192.36.148.17");
    ("j.root-servers.net", "192.58.128.30");
    ("k.root-servers.net", "193.0.14.129");
    ("l.root-servers.net", "199.7.83.42");
    ("m.root-servers.net", "202.12.27.33") ].

(** ** The outside world *)

(** The ways [queryDNS] returns a non-nil error. *)
Inductive error :=
| ErrDial
| ErrPack
| ErrWrite
| ErrRead
| ErrUnpack.

(** What the program may panic on. *)
Inductive panic :=
| PanicMustNewName
| PanicTypeAssertion
| PanicIntn
| PanicIndex.

(** Everything the resolver takes from outside itself.  Deadlines are
    part of the world: a send or receive that misses its three seconds is
    a failed [conn_Write] or [conn_Read]. *)
Record Env := mkEnv {
  World : Type;
  (** [dialer.Dial(network, address)]: is [err == nil]? *)
  net_Dial : World → string → string → bool * World;
  (** [conn.Write(b)] on the connection to [address]: is [err == nil]? *)
  conn_Write : World → string → list byte → bool * World;
  (** [conn.Read]: the datagram received, [None] for an error. *)
  conn_Read : World → string → option (list byte) * World;
  (** [net.LookupHost(host)]: the addresses, and is [err == nil]? *)
  net_LookupHost : World → string → (list string * bool) * World;
  (** [for k, v := range m]: the order in which the entries come. *)
  map_range : World → list (string * string) → list (string * string) * World;
  map_range_perm : ∀ w l, (map_range w l).1 ≡ₚ l;
  (** The random source behind [rand.Intn]. *)
  rand_source : World → nat * World;
  (** [Message.Pack] and [Message.Unpack], [None] for an error. *)
  Message_Pack : Message → option (list byte);
  Message_Unpack : list byte → option Message;
  Message_Unpack_wellTyped :
    ∀ b m, Message_Unpack b = Some m → wellTypedMessage m = true }.

(** ** Observable behaviour *)

(** The lines the program prints, by format string. *)
Inductive Output :=
| OutLoadingRootList
| OutRootEntry (name ip : string)
| OutStarting (domain : string)
| OutSending (name ip : string)
| OutError (e : error)
| OutNoMoreRoots
| OutRetrying (name ip : string)
| OutAuthoritative
| OutAnswerA (domain : string) (ip : vec byte 4)
| OutAnswerAAAA (domain : string) (ip : vec byte 16)
| OutNoMoreNameServers
| OutFailedResolve
| OutReferral (referralDomain : string)
| OutNameServer (ns : string) (ip : option string)
| OutResolved (ns ip : string).

(** External calls with their results, and printed lines. *)
Inductive Event :=
| EvDial (network address : string) (ok : bool)
| EvWrite (address : string) (payload : list byte) (ok : bool)
| EvRead (address : string) (data : option (list byte))
| EvClose (address : string)
| EvLookupHost (host : string) (addrs : list string) (ok : bool)
| EvPrint (o : Output).

(** The return statement through which [recursiveLookup] leaves. *)
Inductive Exit :=
| ExitNoMoreRoots
| ExitAuthoritative
| ExitNoNameServers
| ExitResolveFailed.

(** The terminal states of the driver: [Authoritative], or [Exhausted]. *)
Definition Exhausted (e : Exit) : Prop := e ≠ ExitAuthoritative.

(** ** The monad *)

Inductive result (A : Type) :=
| Ok (a : A)
| Panic (p : panic).
Arguments Ok {A} a.
Arguments Panic {A} p.

Record State (E : Env) := mkState {
  world : World E;
  globals : gmap string string;
  trace : list Event }.
Arguments mkState {E} _ _ _.
Arguments world {E} _.
Arguments globals {E} _.
Arguments trace {E} _.

Definition M (E : Env) (A : Type) : Type := State E → result A * State E.

Definition ret {E A} (a : A) : M E A := λ st, (Ok a, st).

Definition bind {E A B} (m : M E A) (k : A → M E B) : M E B :=
  λ st, match m st with
        | (Ok a, st') => k a st'
        | (Panic p, st') => (Panic p, st')
        end.

Definition throw {E A} (p : panic) : M E A := λ st, (Panic p, st).

Notation "x <- c1 ;; c2" := (bind c1 (λ x, c2))
  (at level 20, c1 at level 99, c2 at level 200, only parsing).
Notation "' x <- c1 ;; c2" := (bind c1 (λ x, c2))
  (at level 20, x pattern, c1 at level 99, c2 at level 200, only parsing).

Definition liftR {E A} (r : result A) : M E A := λ st, (r, st).

Definition emit {E} (ev : Event) : M E unit :=
  λ st, (Ok tt, mkState (world st) (globals st) (trace st ++ [ev])).

Definition Print {E} (o : Output) : M E unit := emit (EvPrint o).

(** A call into the world. *)
Definition call {E A} (f : World E → A * World E) : M E A :=
  λ st, let r := f (world st) in (Ok r.1, mkState r.2 (globals st) (trace st)).

(** Reading the package-level table. *)
Definition get_rootServers {E} : M E (gmap string string) :=
  λ st, (Ok (globals st), st).

(** [for name, ip := range rootServers]: the entries in the order of this
    iteration. *)
Definition range_rootServers {E} : M E (list (string * string)) :=
  m <- get_rootServers ;;
  call (λ w, map_range E w (map_to_list m)).

(** The state at program start. *)
Definition initState {E} (w : World E) : State E := mkState w rootServers [].

(** [defer d] around a body: [d] runs when the body returns or panics. *)
Definition defer {E A} (d : M E unit) (body : M E A) : M E A :=
  λ st, let r := body st in (r.1, (d r.2).2).

(** ** External calls, each recorded in the trace with its result *)

Definition Dial {E} (network address : string) : M E bool :=
  ok <- call (λ w, net_Dial E w network address) ;;
  _ <- emit (EvDial network address ok) ;;
  ret ok.

Definition Write {E} (address : string) (b : list byte) : M E bool :=
  ok <- call (λ w, conn_Write E w address b) ;;
  _ <- emit (EvWrite address b ok) ;;
  ret ok.

(** [conn.Read(response)] into a buffer of [size] bytes: [response[:n]]. *)
Definition Read {E} (address : string) (size : nat) : M E (option (list byte)) :=
  r <- call (λ w, conn_Read E w address) ;;
  let r := take size <$> r in
  _ <- emit (EvRead address r) ;;
  ret r.

Definition Close {E} (address : string) : M E unit := emit (EvClose address).

Definition LookupHost {E} (host : string) : M E (list string * bool) :=
  r <- call (λ w, net_LookupHost E w host) ;;
  _ <- emit (EvLookupHost host r.1 r.2) ;;
  ret r.

(** [rand.Intn(n)] panics for [n <= 0], else lies in [[0, n)]. *)
Definition Intn {E} (n : nat) : M E nat :=
  if decide (n = 0) then throw PanicIntn
  else r <- call (rand_source E) ;; ret (r mod n).

(** The type assertions of a body to one of the resource types. *)
Definition assertAResource (b : ResourceBody) : result (vec byte 4) :=
  match b with AResource a => Ok a | _ => Panic PanicTypeAssertion end.

Definition assertNSResource (b : ResourceBody) : result Name :=
  match b with NSResource ns => Ok ns | _ => Panic PanicTypeAssertion end.

Definition assertAAAAResource (b : ResourceBody) : result (vec byte 16) :=
  match b with AAAAResource a => Ok a | _ => Panic PanicTypeAssertion end.

(** ** [queryDNS] *)

(** The message [queryDNS] builds; fields it does not name are zero. *)
Definition queryMessage (name : Name) : Message :=
  {| MHeader := {| ID := 1; Response := false; OpCode := 0;
                   Authoritative := false; Truncated := false;
                   RecursionDesired := false; RecursionAvailable := false;
                   AuthenticData := false; CheckingDisabled := false;
                   RCode := 0 |};
     Questions := [ {| QName := name; QType := TypeA; QClass := ClassINET |} ];
     Answers := [];
     Authorities := [];
     Additionals := [] |}.

Definition queryDNS {E} (domain server : string) : M E (Message + error) :=
  let address := server +:+ ":53" in
  ok <- Dial "udp" address ;;
  if negb ok then ret (inr ErrDial) else
  defer (Close address) (
    match MustNewName domain with
    | None => throw PanicMustNewName
    | Some name =>
      match Message_Pack E (queryMessage name) with
      | None => ret (inr ErrPack)
      | Some query =>
        ok <- Write address query ;;
        if negb ok then ret (inr ErrWrite) else
        r <- Read address 512 ;;
        match r with
        | None => ret (inr ErrRead)
        | Some response =>
          match Message_Unpack E response with
          | None => ret (inr ErrUnpack)
          | Some res => ret (inl res)
          end
        end
      end
    end).

(** ** [getNextServers] *)

(** The loop over [res.Authorities]. *)
Fixpoint scanAuthorities (auths : list Resource) (servers : list string)
    (referralDomain : string) : result (list string * string) :=
  match auths with
  | [] => Ok (servers, referralDomain)
  | ns :: rest =>
    if (RType (RHeader ns) =? TypeNS)%N then
      match assertNSResource (Body ns) with
      | Ok target =>
        scanAuthorities rest (servers ++ [Name_String target])
          (Name_String (RName (RHeader ns)))
      | Panic p => Panic p
      end
    else scanAuthorities rest servers referralDomain
  end.

(** The loop over [res.Additionals]. *)
Fixpoint scanAdditionals (adds : list Resource)
    (resolvedIPs : gmap string string) : result (gmap string string) :=
  match adds with
  | [] => Ok resolvedIPs
  | extra :: rest =>
    if (RType (RHeader extra) =? TypeA)%N then
      match assertAResource (Body extra) with
      | Ok a =>
        scanAdditionals rest
          (<[Name_String (RName (RHeader extra)) := IPv4_String a]> resolvedIPs)
      | Panic p => Panic p
      end
    else scanAdditionals rest resolvedIPs
  end.

(** The loop that prints each server with its glue address, if any. *)
Fixpoint printServers {E} (resolvedIPs : gmap string string)
    (servers : list string) : M E unit :=
  match servers with
  | [] => ret tt
  | ns :: rest =>
    _ <- Print (OutNameServer ns (resolvedIPs !! ns)) ;;
    printServers resolvedIPs rest
  end.

Definition getNextServers {E} (res : Message) : M E (list string) :=
  '(servers, referralDomain) <- liftR (scanAuthorities (Authorities res) [] "") ;;
  let referralDomain :=
    if String.eqb referralDomain "" then "(unknown domain)" else referralDomain in
  resolvedIPs <- liftR (scanAdditionals (Additionals res) ∅) ;;
  _ <- Print (OutReferral referralDomain) ;;
  _ <- printServers resolvedIPs servers ;;
  ret servers.

(** ** [resolveNS] *)

Fixpoint resolveNS {E} (servers : list string) : M E (string * string) :=
  match servers with
  | [] => ret ("", "")
  | ns :: rest =>
    '(ip, ok) <- LookupHost (TrimSuffix ns ".") ;;
    if ok && bool_decide (0 < length ip)%nat then
      let ip0 := default "" (head ip) in
      _ <- Print (OutResolved ns ip0) ;;
      ret (ns, ip0)
    else resolveNS rest
  end.

(** ** [pickNewRootServer] *)

(** [!tried[ip]]: a missing key reads as [false]. *)
Definition untried (tried : gmap string bool) (ip : string) : bool :=
  negb (default false (tried !! ip)).

(** The loop body, along the entries in the order of this iteration. *)
Fixpoint firstUntried (tried : gmap string bool)
    (entries : list (string * string)) : string * string :=
  match entries with
  | [] => ("", "")
  | (name, ip) :: rest =>
    if untried tried ip then (name, ip) else firstUntried tried rest
  end.

Definition pickNewRootServer {E} (tried : gmap string bool)
    : M E (string * string) :=
  entries <- range_rootServers ;;
  ret (firstUntried tried entries).

(** ** [recursiveLookup] *)

(** The variables of the loop. *)
Record LoopVars := mkLoopVars {
  triedServers : gmap string bool;
  serverName : string;
  serverIP : string }.

(** The loop over [res.Answers] of an authoritative response. *)
Fixpoint printAnswers {E} (domain : string) (answers : list Resource)
    : M E unit :=
  match answers with
  | [] => ret tt
  | answer :: rest =>
    _ <- (if (RType (RHeader answer) =? TypeA)%N then
            ip <- liftR (assertAResource (Body answer)) ;;
            Print (OutAnswerA domain ip)
          else if (RType (RHeader answer) =? TypeAAAA)%N then
            ip <- liftR (assertAAAAResource (Body answer)) ;;
            Print (OutAnswerAAAA domain ip)
          else ret tt) ;;
    printAnswers domain rest
  end.

(** The block under [if err != nil]: ask for a root server that is not in
    the tried set, return when there is none. *)
Definition fallback {E} (triedServers : gmap string bool) (err : error)
    : M E (Exit + LoopVars) :=
  _ <- Print (OutError err) ;;
  '(newServerName, newServerIP) <- pickNewRootServer triedServers ;;
  if String.eqb newServerIP "" then
    _ <- Print OutNoMoreRoots ;;
    ret (inl ExitNoMoreRoots)
  else
    _ <- Print (OutRetrying newServerName newServerIP) ;;
    ret (inr (mkLoopVars triedServers newServerName newServerIP)).

(** The rest of the loop body, reached with a response: the answer of an
    authoritative response is printed, a referral is followed. *)
Definition respond {E} (domain : string) (triedServers : gmap string bool)
    (res : Message) : M E (Exit + LoopVars) :=
  if Authoritative (MHeader res) then
    _ <- Print OutAuthoritative ;;
    _ <- printAnswers domain (Answers res) ;;
    ret (inl ExitAuthoritative)
  else
    nextServers <- getNextServers res ;;
    if (length nextServers =? 0)%nat then
      _ <- Print OutNoMoreNameServers ;;
      ret (inl ExitNoNameServers)
    else
      '(name, ip) <- resolveNS nextServers ;;
      if String.eqb ip "" then
        _ <- Print OutFailedResolve ;;
        ret (inl ExitResolveFailed)
      else ret (inr (mkLoopVars triedServers name ip)).

(** One turn of the [for] loop: the loop is left ([inl]) or taken again
    with new variables ([inr]). *)
Definition iteration {E} (domain : string) (v : LoopVars)
    : M E (Exit + LoopVars) :=
  let triedServers := <[serverIP v := true]> (triedServers v) in
  _ <- Print (OutSending (serverName v) (serverIP v)) ;;
  r <- queryDNS domain (serverIP v) ;;
  match r with
  | inr err => fallback triedServers err
  | inl res => respond domain triedServers res
  end.

(** The [for] loop, run for at most [fuel] turns; [None] when the loop is
    still running after them. *)
Fixpoint loop {E} (fuel : nat) (domain : string) (v : LoopVars)
    : M E (option Exit) :=
  match fuel with
  | 0 => ret None
  | S fuel =>
    r <- iteration domain v ;;
    match r with
    | inl e => ret (Some e)
    | inr v' => loop fuel domain v'
    end
  end.

Definition recursiveLookup {E} (fuel : nat)
    (domain firstServerName firstServerIP : string) : M E (option Exit) :=
  loop fuel domain (mkLoopVars ∅ firstServerName firstServerIP).

(** ** [main] *)

Fixpoint printRootEntries {E} (entries : list (string * string)) : M E unit :=
  match entries with
  | [] => ret tt
  | (name, ip) :: rest =>
    _ <- Print (OutRootEntry name ip) ;;
    printRootEntries rest
  end.

Definition main {E} (fuel : nat) : M E (option Exit) :=
  let domain := "example.com." in
  _ <- Print OutLoadingRootList ;;
  entries <- range_rootServers ;;
  _ <- printRootEntries entries ;;
  entries <- range_rootServers ;;
  let rootNames := entries.*1 in
  i <- Intn (length rootNames) ;;
  match rootNames !! i with
  | None => throw PanicIndex
  | Some rootName =>
    _ <- Print (OutStarting domain) ;;
    table <- get_rootServers ;;
    recursiveLookup fuel domain rootName (default "" (table !! rootName))
  end.

(** ** Scripted environments

    A world without state of its own, given by tables: which addresses
    accept a connection, which datagram each address answers with, what
    host resolution returns for each name.  The toy decoder reads the
    first byte of a datagram as an index into a list of messages; maps are
    iterated in the order of [map_to_list]. *)

Record Script := mkScript {
  script_dial : string → bool;
  script_write : string → bool;
  script_datagram : string → option (list byte);
  script_hosts : string → list string * bool;
  script_messages : list Message }.

Definition scriptUnpack (msgs : list Message) (b : list byte)
    : option Message :=
  match b with
  | [] => None
  | c :: _ =>
    match msgs !! Byte.to_nat c with
    | Some m => if wellTypedMessage m then Some m else None
    | None => None
    end
  end.

Definition scriptEnv (s : Script) : Env.
Proof.
  refine
  {| World := unit;
     net_Dial := λ w _ address, (script_dial s address, w);
     conn_Write := λ w address _, (script_write s address, w);
     conn_Read := λ w address, (script_datagram s address, w);
     net_LookupHost := λ w host, (script_hosts s host, w);
     map_range := λ w l, (l, w);
     map_range_perm := λ w l, reflexivity l;
     rand_source := λ w, (0, w);
     Message_Pack := λ _, Some [];
     Message_Unpack := scriptUnpack (script_messages s);
     Message_Unpack_wellTyped := _ |}.
  intros [|c b] m; simpl; [done|].
  destruct (script_messages s !! Byte.to_nat c) as [m'|]; [|done].
  destruct (wellTypedMessage m') eqn:Hwt; [|done].
  by intros [= <-].
Defined.


(** ** Scenarios *)

Definition nsRecord (owner target : string) : Resource :=
  {| RHeader := {| RName := mkName owner; RType := TypeNS; RClass := ClassINET;
                   RTTL := 3600; RLength := 0 |};
     Body := NSResource (mkName target) |}.

Definition aRecord (owner : string) (a : vec byte 4) : Resource :=
  {| RHeader := {| RName := mkName owner; RType := TypeA; RClass := ClassINET;
                   RTTL := 3600; RLength := 4 |};
     Body := AResource a |}.

Definition responseHeader (authoritative : bool) : Header :=
  {| ID := 1; Response := true; OpCode := 0; Authoritative := authoritative;
     Truncated := false; RecursionDesired := false; RecursionAvailable := false;
     AuthenticData := false; CheckingDisabled := false; RCode := 0 |}.

(** A referral for [example.com.] to two nameservers; only the second
    comes with a glue address. *)
Definition glueReferral : Message :=
  {| MHeader := responseHeader false;
     Questions := [];
     Answers := [];
     Authorities := [ nsRecord "example.com." "ns1.example.com.";
                      nsRecord "example.com." "ns2.example.com." ];
     Additionals := [ aRecord "ns2.example.com." [# x0a; x00; x00; x02] ] |}.

(** The same referral with the glued nameserver first. *)
Definition glueFirstReferral : Message :=
  {| MHeader := responseHeader false;
     Questions := [];
     Answers := [];
     Authorities := [ nsRecord "example.com." "ns2.example.com.";
                      nsRecord "example.com." "ns1.example.com." ];
     Additionals := [ aRecord "ns2.example.com." [# x0a; x00; x00; x02] ] |}.

(** An authoritative answer for [example.com.]. *)
Definition exampleAnswer : Message :=
  {| MHeader := responseHeader true;
     Questions := [];
     Answers := [ aRecord "example.com." [# x5d; xb8; xd8; x22] ];
     Authorities := [];
     Additionals := [] |}.

(** Host resolution knows both nameservers of [example.com.]. *)
Definition exampleHosts (host : string) : list string * bool :=
  if String.eqb host "ns1.example.com" then (["192.0.2.1"], true)
  else if String.eqb host "ns2.example.com" then (["192.0.2.2"], true)
  else ([], false).

(** Every server but the nameservers of [example.com.] answers with the
    referral; these answer authoritatively. *)
Definition delegationScript : Script :=
  {| script_dial := λ _, true;
     script_write := λ _, true;
     script_datagram := λ address,
       if String.eqb address "192.0.2.1:53" || String.eqb address "192.0.2.2:53"
       then Some [x01] else Some [x00];
     script_hosts := exampleHosts;
     script_messages := [glueReferral; exampleAnswer] |}.

(** Every server answers with the same referral, for ever. *)
Definition cycleScript : Script :=
  {| script_dial := λ _, true;
     script_write := λ _, true;
     script_datagram := λ _, Some [x00];
     script_hosts := exampleHosts;
     script_messages := [glueReferral] |}.

(** No server can be reached. *)
Definition unreachableScript : Script :=
  {| script_dial := λ _, false;
     script_write := λ _, false;
     script_datagram := λ _, None;
     script_hosts := λ _, ([], false);
     script_messages := [] |}.

(** The loop variables at the start of a lookup from [a.root-servers.net]. *)
Definition fromRootA : LoopVars :=
  {| triedServers := ∅;
     serverName := "a.root-servers.net";
     serverIP := "198.41.0.4" |}.

(** The state at program start in a scripted environment. *)
Definition scriptStart (s : Script) : State (scriptEnv s) :=
  initState (E:=scriptEnv s) tt.

(** A non-authoritative response that delegates to nobody: its authority
    section holds an address record; no NS record. *)
Definition emptyReferral : Message :=
  {| MHeader := responseHeader false;
     Questions := [];
     Answers := [];
     Authorities := [ aRecord "example.com." [# x0a; x00; x00; x01] ];
     Additionals := [ aRecord "ns9.example.com." [# x0a; x00; x00; x09] ] |}.

(** An authoritative response whose only answer is a CNAME record
    (type 5), followed by a referral's worth of other sections. *)
Definition cnameAnswer : Message :=
  {| MHeader := responseHeader true;
     Questions := [];
     Answers := [ {| RHeader := {| RName := mkName "example.com."; RType := 5;
                                   RClass := ClassINET; RTTL := 3600;
                                   RLength := 0 |};
                     Body := OtherResource [] |} ];
     Authorities := [ nsRecord "example.com." "ns1.example.com." ];
     Additionals := [ aRecord "ns1.example.com." [# x0a; x00; x00; x01] ] |}.

(** The root servers answer with the empty referral, every other server
    with the CNAME answer. *)
Definition oddScript : Script :=
  {| script_dial := λ _, true;
     script_write := λ _, true;
     script_datagram := λ address,
       if String.eqb address "198.41.0.4:53" then Some [x00] else Some [x01];
     script_hosts := exampleHosts;
     script_messages := [emptyReferral; cnameAnswer] |}.

(** The loop variables on arrival at the first nameserver of
    [example.com.]. *)
Definition atNs1 : LoopVars :=
  {| triedServers := {[ "198.41.0.4" := true ]};
     serverName := "ns1.example.com.";
     serverIP := "192.0.2.1" |}.

(** A name of 256 bytes, one more than [dnsmessage.Name] holds. *)
Definition longName : string := String.concat "" (replicate 64 "abc.").

(** A referral whose sections repeat names: two NS records with
    different owners, two A records for the same nameserver and one AAAA
    record. *)
Definition mixedReferral : Message :=
  {| MHeader := responseHeader false;
     Questions := [];
     Answers := [];
     Authorities := [ nsRecord "com." "ns1.example.com.";
                      aRecord "example.com." [# x0a; x00; x00; x07];
                      nsRecord "example.com." "ns2.example.com." ];
     Additionals := [ aRecord "ns1.example.com." [# x0a; x00; x00; x01];
                      {| RHeader := {| RName := mkName "ns2.example.com.";
                                       RType := TypeAAAA; RClass := ClassINET;
                                       RTTL := 3600; RLength := 16 |};
                         Body := AAAAResource (Vector.const x00 16) |};
                      aRecord "ns1.example.com." [# x0a; x00; x00; x03] ] |}.

(** Host resolution that knows no nameserver: every server refers, and
    no referral can be followed. *)
Definition lostScript : Script :=
  {| script_dial := λ _, true;
     script_write := λ _, true;
     script_datagram := λ _, Some [x00];
     script_hosts := λ _, ([], false);
     script_messages := [glueReferral] |}.
(** * Vocabulary of the properties *)

(** [extends Q m]: running [m] keeps the package-level table and only
    appends to the trace, and every event it appends satisfies [Q]. *)
Definition extends {E A} (Q : Event → Prop) (m : M E A) : Prop :=
  ∀ st, globals (m st).2 = globals st
        ∧ ∃ evs, trace (m st).2 = trace st ++ evs ∧ Forall Q evs.

(** The bytes [queryDNS] writes for [domain]: the packed query message. *)
Definition queryPayload (E : Env) (domain : string) (b : list byte) : Prop :=
  ∃ name, MustNewName domain = Some name
          ∧ Message_Pack E (queryMessage name) = Some b.

(** The events of a lookup of [domain]: whatever is written to a socket
    is the query for [domain]. *)
Definition resolverEvent (E : Env) (domain : string) (ev : Event) : Prop :=
  match ev with
  | EvWrite _ b _ => queryPayload E domain b
  | _ => True
  end.

(** The addresses of the table. *)
Definition rootIPs : list string := (map_to_list rootServers).*2.

(** The addresses a trace dials, in order: one per call of [queryDNS]. *)
Definition queried (evs : list Event) : list string :=
  omap (λ ev, match ev with EvDial _ a _ => Some a | _ => None end) evs.

(** The state in which an iteration calls [queryDNS]: the line
    announcing the request has been printed. *)
Definition sending {E} (v : LoopVars) (st : State E) : State E :=
  (Print (OutSending (serverName v) (serverIP v)) st).2.

(** The answer records that carry an address. *)
Definition isAddressRecord (r : Resource) : bool :=
  (RType (RHeader r) =? TypeA)%N || (RType (RHeader r) =? TypeAAAA)%N.

(** [o] is the line that reports the address of record [r] as an
    address of [domain]. *)
Definition reportsAddress (domain : string) (r : Resource) (o : Output) : Prop :=
  (RType (RHeader r) = TypeA
   ∧ ∃ a, Body r = AResource a ∧ o = OutAnswerA domain a)
  ∨ (RType (RHeader r) = TypeAAAA
     ∧ ∃ a, Body r = AAAAResource a ∧ o = OutAnswerAAAA domain a).

(** The authority records of type NS. *)
Definition isNSRecord (r : Resource) : bool := (RType (RHeader r) =? TypeNS)%N.

(** The nameserver names a referral delegates to: the targets of the NS
    records of the authority section, in order. *)
Definition nsTargets (auths : list Resource) : list string :=
  omap (λ r, if isNSRecord r
             then match Body r with
                  | NSResource n => Some (Name_String n)
                  | _ => None
                  end
             else None) auths.

(** The lines [getNextServers] prints for the servers, with the glue
    addresses [ips]. *)
Definition serverLines (ips : gmap string string) (servers : list string)
    : list Output :=
  (λ ns, OutNameServer ns (ips !! ns)) <$> servers.

(** The host-resolution lookups of a trace, in order: the host asked for,
    the addresses returned, and whether [err == nil]. *)
Definition lookups (evs : list Event) : list (string * list string * bool) :=
  omap (λ ev, match ev with
              | EvLookupHost h a ok => Some (h, a, ok)
              | _ => None
              end) evs.

(** A lookup succeeds for [resolveNS] when it returns no error and at
    least one address. *)
Definition lookupSucceeded (l : string * list string * bool) : bool :=
  l.2 && bool_decide (0 < length l.1.2)%nat.

(** [l] is the failed lookup of candidate [c]. *)
Definition failedLookupOf (c : string) (l : string * list string * bool) : Prop :=
  l.1.1 = TrimSuffix c "." ∧ lookupSucceeded l = false.

(** The iteration from [(v, st)] follows a referral: the query succeeds
    and the loop goes on, with the variables and state returned. *)
Definition followsReferral {E} (domain : string) (v : LoopVars) (st : State E)
    : option (LoopVars * State E) :=
  match (queryDNS domain (serverIP v) (sending v st)).1, iteration domain v st with
  | Ok (inl _), (Ok (inr v'), st') => Some (v', st')
  | _, _ => None
  end.

(** From [(v, st)] on, the next [n] iterations all follow referrals. *)
Fixpoint referralChain {E} (n : nat) (domain : string) (v : LoopVars)
    (st : State E) : Prop :=
  match n with
  | 0 => True
  | S n =>
    match followsReferral domain v st with
    | Some (v', st') => referralChain n domain v' st'
    | None => False
    end
  end.

(** The number of root servers that remain untried. *)
Definition untriedRoots (tried : gmap string bool) : nat :=
  length (filter (λ x, untried tried x) rootIPs).

(** The Transport Client fails for every root server: whatever the state,
    [queryDNS] for [domain] at an address of the table returns an error. *)
Definition rootQueriesFail (E : Env) (domain : string) : Prop :=
  ∀ (st : State E) ip,
    ip ∈ rootIPs → ∃ e, (queryDNS domain ip st).1 = Ok (inr e).

(** A run from [st] ended [Exhausted] for want of root servers, after one
    query to each address of the table. *)
Definition exhaustsRoots {E} (st : State E)
    (run : result (option Exit) * State E) : Prop :=
  ∃ ips,
    run.1 = Ok (Some ExitNoMoreRoots)
    ∧ Exhausted ExitNoMoreRoots
    ∧ queried (trace run.2) = queried (trace st) ++ ((λ ip, ip +:+ ":53") <$> ips)
    ∧ length ips = size rootServers
    ∧ NoDup ips
    ∧ ips ≡ₚ rootIPs.

(** The payloads a run wrote to sockets are queries for [domain]: one
    question of type A and class INET for [domain], identifier 1,
    recursion not desired. *)
Definition writesQueriesFor {E} (domain : string) (st : State E)
    (run : State E) : Prop :=
  ∃ evs,
    trace run = trace st ++ evs
    ∧ ∀ address b ok,
        EvWrite address b ok ∈ evs →
        ∃ name,
          MustNewName domain = Some name
          ∧ Name_String name = domain
          ∧ Message_Pack E (queryMessage name) = Some b
          ∧ Questions (queryMessage name)
            = [ {| QName := name; QType := TypeA; QClass := ClassINET |} ]
          ∧ ID (MHeader (queryMessage name)) = 1%N
          ∧ RecursionDesired (MHeader (queryMessage name)) = false.

(** ** Further vocabulary: kinds of events, sockets, failures *)

(** Events that are printed lines. *)
Definition isPrint (ev : Event) : Prop :=
  match ev with EvPrint _ => True | _ => False end.

(** Events that do not involve the socket: printed lines and host
    lookups. *)
Definition offSocket (ev : Event) : Prop :=
  match ev with EvPrint _ | EvLookupHost _ _ _ => True | _ => False end.

(** Following the socket through a trace.  [open] is the address of the
    socket that is open, if any.  A dial needs no socket open and opens
    one when it succeeds; writes, reads and the close are on the open
    socket; a host lookup is made with no socket open.  [None] when the
    trace breaks one of these rules. *)
Fixpoint socketTrack (open : option string) (evs : list Event)
    : option (option string) :=
  match evs with
  | [] => Some open
  | ev :: rest =>
    match ev, open with
    | EvDial _ address ok, None =>
      socketTrack (if ok then Some address else None) rest
    | EvDial _ _ _, Some _ => None
    | EvWrite address _ _, Some a
    | EvRead address _, Some a =>
      if String.eqb address a then socketTrack open rest else None
    | EvClose address, Some a =>
      if String.eqb address a then socketTrack None rest else None
    | EvWrite _ _ _, None | EvRead _ _, None | EvClose _, None => None
    | EvLookupHost _ _ _, None => socketTrack None rest
    | EvLookupHost _ _ _, Some _ => None
    | EvPrint _, _ => socketTrack open rest
    end
  end.

(** A stretch of trace that starts and ends with no socket open. *)
Definition socketsBalanced (evs : list Event) : Prop :=
  socketTrack None evs = Some None.

(** The line that reports a failed query. *)
Definition isErrorLine (ev : Event) : bool :=
  match ev with EvPrint (OutError _) => true | _ => false end.

(** The number of failed queries a trace reports. *)
Definition failures (evs : list Event) : nat :=
  length (filter (λ ev, isErrorLine ev) evs).

(** The loop run for exactly [n] turns: the exit taken within them, or
    the variables with which turn [n + 1] would start. *)
Fixpoint iterations {E} (n : nat) (domain : string) (v : LoopVars)
    : M E (Exit + LoopVars) :=
  match n with
  | 0 => ret (inr v)
  | S n =>
    r <- iteration domain v ;;
    match r with
    | inl e => ret (inl e)
    | inr v' => iterations n domain v'
    end
  end.

(** The owner name of the last NS record, [dom] when there is none. *)
Definition lastNSOwner (auths : list Resource) (dom : string) : string :=
  foldl (λ d r, if isNSRecord r then Name_String (RName (RHeader r)) else d)
    dom auths.

(** The address of the last A record of [adds] whose owner is [name]. *)
Definition lastGlue (adds : list Resource) (name : string) : option string :=
  foldl (λ g r, match Body r with
                | AResource a =>
                  if (RType (RHeader r) =? TypeA)%N
                     && String.eqb (Name_String (RName (RHeader r))) name
                  then Some (IPv4_String a) else g
                | _ => g
                end) None adds.

(** What the handling of a response may emit: host lookups and the lines
    of the answer and referral branches. *)
Definition respondEvent (ev : Event) : Prop :=
  match ev with
  | EvLookupHost _ _ _ => True
  | EvPrint o =>
    match o with
    | OutAuthoritative | OutAnswerA _ _ | OutAnswerAAAA _ _
    | OutNoMoreNameServers | OutFailedResolve | OutReferral _
    | OutNameServer _ _ | OutResolved _ _ => True
    | _ => False
    end
  | _ => False
  end.

(** The lines with which [getNextServers] reports a referral: its
    domain, then each server with the glue address found for it. *)
Definition referralLines (res : Message) : list Output :=
  let dom := lastNSOwner (Authorities res) "" in
  OutReferral (if String.eqb dom "" then "(unknown domain)" else dom)
  :: ((λ ns, OutNameServer ns (lastGlue (Additionals res) ns))
        <$> nsTargets (Authorities res)).

(** Every run of [m] appends a stretch of trace that starts and ends
    with no socket open. *)
Definition balancedRun {E A} (m : M E A) : Prop :=
  ∀ st, ∃ evs, trace (m st).2 = trace st ++ evs ∧ socketsBalanced evs.


(** * The mail sender ([sending_mail/smtp.go])

    The second program of the repository composes a message and hands it
    to an SMTP server, in three ways.  It is modelled over its own
    outside world: the calls into [net], [net/smtp] and [os] are
    uninterpreted, and every one of them is recorded in a trace together
    with the error it returned. *)

Module sending_mail.

(** Go strings and byte slices are both sequences of bytes: [string]. *)
Definition CRLF : string := String (Ascii.ascii_of_nat 13) (String (Ascii.ascii_of_nat 10) "").
Definition LF : string := String (Ascii.ascii_of_nat 10) "".
Definition TAB : string := String (Ascii.ascii_of_nat 9) "".
Definition quote : string := String (Ascii.ascii_of_nat 34) "".

Record SMTPConfig := mkSMTPConfig {
  Host : string;
  Port : string;
  Username : string;
  Password : string }.

(** [mail.Address]. *)
Record mail_Address := mkAddress {
  Name : string;
  Address : string }.

Record Attachment := mkAttachment {
  Filename : string;
  ContentType : string;
  Data : string }.

Record Email := mkEmail {
  From : mail_Address;
  To : list mail_Address;
  Subject : string;
  Body : string;
  Attachments : list Attachment }.

(** An error is either a value a library returned, or one that
    [fmt.Errorf] built around another with [%w]; [prefix] is the text
    the format puts before the wrapped error. *)
Inductive error :=
| LibraryError (text : string)
| Errorf (prefix : string) (cause : error).

(** The [Error()] method, as [%v] prints an error. *)
Fixpoint Error (e : error) : string :=
  match e with
  | LibraryError text => text
  | Errorf prefix cause => prefix +:+ Error cause
  end.

(** [smtp.PlainAuth(identity, username, password, host)]. *)
Record Auth := PlainAuth {
  auth_identity : string;
  auth_username : string;
  auth_password : string;
  auth_host : string }.

(** The calls that return an error and nothing else the program looks
    at.  [net.Dial], [smtp.NewClient] and [client.Data] also return a
    handle (the connection, the client, the writer); there is one
    connection at a time and the handle is nil exactly when the error is
    not, so the model leaves the handles out.  [writer.Write] also
    returns a count, which the program discards. *)
Inductive Call :=
| net_Dial (network address : string)
| smtp_NewClient (host : string)
| Client_StartTLS (serverName : string)
| Client_Auth (a : Auth)
| Client_Mail (from : string)
| Client_Rcpt (to : string)
| Client_Data
| Writer_Write (p : string)
| Writer_Close
| Client_Quit
| Client_Close
| smtp_SendMail (addr : string) (a : Auth) (from : string) (to : list string)
    (msg : string).

Record MailEnv := mkMailEnv {
  MailWorld : Type;
  (** a call of [Call], with the error it returns ([None] is nil) *)
  perform : MailWorld → Call → option error * MailWorld;
  (** [os.ReadFile(name)] *)
  os_ReadFile : MailWorld → string → (string * option error) * MailWorld;
  (** [os.Getpid()] *)
  os_Getpid : MailWorld → Z;
  (** the [String()] method of [mail.Address] *)
  Address_String : mail_Address → string;
  net_JoinHostPort : string → string → string;
  (** what a [base64.StdEncoding] encoder appends to the buffer for the
      data written to it, [Close] included, and the error of its
      [Write] *)
  base64_Encoder : string → string * option error;
  mime_TypeByExtension : string → string;
  filepath_Ext : string → string;
  filepath_Base : string → string }.

Inductive MailEvent :=
| EvCall (c : Call) (err : option error)
| EvReadFile (name : string) (err : option error)
| EvLog (line : string).

Record MailState (E : MailEnv) := mkMailState {
  mworld : MailWorld E;
  mtrace : list MailEvent }.
Arguments mkMailState {E} _ _.
Arguments mworld {E} _.
Arguments mtrace {E} _.

(** ** The monad: state passing over the world and the trace *)

Definition Mail (E : MailEnv) (A : Type) : Type :=
  MailState E → A * MailState E.

#[export] Instance Mail_ret {E} : MRet (Mail E) := λ A a st, (a, st).

#[export] Instance Mail_bind {E} : MBind (Mail E) :=
  λ A B k m st, let r := m st in k r.1 r.2.

Definition record {E} (ev : MailEvent) : Mail E unit :=
  λ st, (tt, mkMailState (mworld st) (mtrace st ++ [ev])).

Definition call {E} (c : Call) : Mail E (option error) :=
  λ st, let r := perform E (mworld st) c in
        (r.1, mkMailState r.2 (mtrace st ++ [EvCall c r.1])).

Definition ReadFile {E} (name : string) : Mail E (string * option error) :=
  λ st, let r := os_ReadFile E (mworld st) name in
        (r.1, mkMailState r.2 (mtrace st ++ [EvReadFile name r.1.2])).

Definition Getpid {E} : Mail E Z := λ st, (os_Getpid E (mworld st), st).

(** [log.Printf] and [log.Println]: the text without the time stamp. *)
Definition log {E} (line : string) : Mail E unit := record (EvLog line).

(** [defer d] around the rest of the function: [d] runs when the body
    has returned, and what it returns is dropped.  No function of this
    program panics. *)
Definition defer {E A B} (d : Mail E B) (body : Mail E A) : Mail E A :=
  r ← body; _ ← d; mret r.

(** ** [joinAddresses] and [buildEmailMessage] *)

(** [strings.Join(elems, sep)]. *)
Definition Join (elems : list string) (sep : string) : string :=
  String.concat sep elems.

Definition joinAddresses (E : MailEnv) (addrs : list mail_Address) : string :=
  let result := foldl (λ result addr, result ++ [Address_String E addr]) [] addrs in
  Join result ", ".

(** Each [fmt.Fprintf(&buf, ...)] and [buf.WriteString] appends to the
    buffer. *)
Definition buildEmailMessage (E : MailEnv) (email : Email) : string :=
  let buf := "" in
  let buf := buf +:+ ("From: " +:+ Address_String E (From email) +:+ CRLF) in
  let buf := buf +:+ ("To: " +:+ joinAddresses E (To email) +:+ CRLF) in
  let buf := buf +:+ ("Subject: " +:+ Subject email +:+ CRLF) in
  let buf := buf +:+ ("MIME-Version: 1.0" +:+ CRLF) in
  let buf := buf +:+ ("Content-Type: text/html; charset=UTF-8" +:+ CRLF) in
  let buf := buf +:+ CRLF in
  let buf := buf +:+ Body email in
  buf.

(** ** [NewSMTPClient] *)

(** The client is left out of the result: it is nil exactly when the
    error is not. *)
Definition NewSMTPClient {E} (config : SMTPConfig) : Mail E (option error) :=
  err ← call (net_Dial "tcp" (net_JoinHostPort E (Host config) (Port config)));
  match err with
  | Some err => mret (Some (Errorf "failed to dial SMTP server: " err))
  | None =>
    err ← call (smtp_NewClient (Host config));
    match err with
    | Some err => mret (Some (Errorf "failed to create SMTP client: " err))
    | None =>
      err ← call (Client_StartTLS (Host config));
      match err with
      | Some err => mret (Some (Errorf "failed to start TLS: " err))
      | None =>
        let auth := PlainAuth "" (Username config) (Password config) (Host config) in
        err ← call (Client_Auth auth);
        match err with
        | Some err => mret (Some (Errorf "authentication failed: " err))
        | None => mret None
        end
      end
    end
  end.

(** ** [SimpleSender.Send] *)

(** [to := make([]string, len(email.To))] is filled by index; every
    index of the loop is within the slice. *)

Definition SimpleSender_Send {E} (config : SMTPConfig) (email : Email)
    : Mail E (option error) :=
  let auth := PlainAuth "" (Username config) (Password config) (Host config) in
  let msg := buildEmailMessage E email in
  let to := replicate (length (To email)) "" in
  let to := foldl (λ to '(i, addr), <[i := Address addr]> to) to
              (imap pair (To email)) in
  call (smtp_SendMail (net_JoinHostPort E (Host config) (Port config)) auth
          (Address (From email)) to msg).

(** ** [AdvancedSender.Send] *)

(** [for _, to := range email.To { client.Rcpt(to.Address) ... }], which
    returns from [Send] at the first error; the two senders that talk to
    the server themselves have the same loop. *)
Fixpoint rcptLoop {E} (tos : list mail_Address) : Mail E (option error) :=
  match tos with
  | [] => mret None
  | to :: tos =>
      err ← call (Client_Rcpt (Address to));
      match err with
      | Some err =>
          mret (Some (Errorf ("RCPT command failed for " +:+ Address to +:+ ": ") err))
      | None => rcptLoop tos
      end
  end.

Definition AdvancedSender_Send {E} (config : SMTPConfig) (email : Email)
    : Mail E (option error) :=
  err ← NewSMTPClient config;
  match err with
  | Some err => mret (Some err)
  | None =>
    defer (call Client_Close) (
    defer (call Client_Quit) (
      err ← call (Client_Mail (Username config));
      match err with
      | Some err => mret (Some (Errorf "MAIL command failed: " err))
      | None =>
        err ← rcptLoop (To email);
        match err with
        | Some err => mret (Some err)
        | None =>
          err ← call Client_Data;
          match err with
          | Some err => mret (Some (Errorf "DATA command failed: " err))
          | None =>
            defer (call Writer_Close) (
              let msg := buildEmailMessage E email in
              err ← call (Writer_Write msg);
              mret err)
          end
        end
      end))
  end.

(** ** [buildMultipartMessage] and [EliteSender.Send] *)

(** The loop over the attachments, on the buffer. *)
Fixpoint attachLoop {E} (boundary : string) (atts : list Attachment)
    (buf : string) : Mail E string :=
  match atts with
  | [] => mret buf
  | att :: atts =>
      let buf := buf +:+ ("--" +:+ boundary +:+ CRLF) in
      let buf := buf +:+ ("Content-Type: " +:+ ContentType att +:+ CRLF) in
      let buf := buf +:+ ("Content-Transfer-Encoding: base64" +:+ CRLF) in
      let buf := buf +:+ ("Content-Disposition: attachment; filename="
                         +:+ quote +:+ Filename att +:+ quote +:+ CRLF) in
      let buf := buf +:+ CRLF in
      let encoded := base64_Encoder E (Data att) in
      _ ← match encoded.2 with
          | Some err =>
              log ("Error encoding attachment " +:+ Filename att +:+ ": " +:+ Error err)
          | None => mret tt
          end;
      let buf := buf +:+ encoded.1 in
      let buf := buf +:+ CRLF in
      attachLoop boundary atts buf
  end.

Definition buildMultipartMessage {E} (email : Email) : Mail E string :=
  let buf := "" in
  pid ← Getpid;
  let boundary := pretty pid in
  let buf := buf +:+ ("From: " +:+ Address_String E (From email) +:+ CRLF) in
  let buf := buf +:+ ("To: " +:+ joinAddresses E (To email) +:+ CRLF) in
  let buf := buf +:+ ("Subject: " +:+ Subject email +:+ CRLF) in
  let buf := buf +:+ ("MIME-Version: 1.0" +:+ CRLF) in
  let buf := buf +:+ ("Content-Type: multipart/mixed; boundary=" +:+ boundary +:+ CRLF) in
  let buf := buf +:+ CRLF in
  let buf := buf +:+ ("--" +:+ boundary +:+ CRLF) in
  let buf := buf +:+ ("Content-Type: text/html; charset=UTF-8" +:+ CRLF) in
  let buf := buf +:+ ("Content-Transfer-Encoding: 7bit" +:+ CRLF) in
  let buf := buf +:+ CRLF in
  let buf := buf +:+ Body email in
  let buf := buf +:+ CRLF in
  buf ← attachLoop boundary (Attachments email) buf;
  let buf := buf +:+ ("--" +:+ boundary +:+ "--" +:+ CRLF) in
  mret buf.

Definition EliteSender_Send {E} (config : SMTPConfig) (email : Email)
    : Mail E (option error) :=
  err ← NewSMTPClient config;
  match err with
  | Some err => mret (Some err)
  | None =>
    defer (call Client_Close) (
    defer (call Client_Quit) (
      err ← call (Client_Mail (Username config));
      match err with
      | Some err => mret (Some (Errorf "MAIL command failed: " err))
      | None =>
        err ← rcptLoop (To email);
        match err with
        | Some err => mret (Some err)
        | None =>
          err ← call Client_Data;
          match err with
          | Some err => mret (Some (Errorf "DATA command failed: " err))
          | None =>
            defer (call Writer_Close) (
              msg ← buildMultipartMessage email;
              err ← call (Writer_Write msg);
              mret err)
          end
        end
      end))
  end.

(** ** [NewAttachmentFromFile] *)

Definition NewAttachmentFromFile {E} (filePath : string)
    : Mail E (Attachment * option error) :=
  '(data, err) ← ReadFile filePath;
  match err with
  | Some err =>
      mret (mkAttachment "" "" "", Some (Errorf "failed to read file: " err))
  | None =>
      let contentType := mime_TypeByExtension E (filepath_Ext E filePath) in
      let contentType :=
        if String.eqb contentType "" then "application/octet-stream"
        else contentType in
      mret (mkAttachment (filepath_Base E filePath) contentType data, None)
  end.

(** ** [main] *)

Definition config : SMTPConfig := mkSMTPConfig "" "" "" "".

Definition recipients : list mail_Address :=
  [mkAddress "Recipient Name 1" "john@gmail.com";
   mkAddress "Recipient Name 2" "doe@example.com"].

Definition email : Email :=
  mkEmail (mkAddress "Sender Name" (Username config)) recipients
    "This is the mail Subject"
    (String.concat LF
       ["<!DOCTYPE html>";
        TAB +:+ "<html>";
        TAB +:+ "<body>";
        TAB +:+ "    <div style=" +:+ quote
            +:+ "border: 2px solid black; padding: 10px;" +:+ quote +:+ ">";
        TAB +:+ "        <h1>This is a heading</h1>";
        TAB +:+ "        <p>This is a paragraph</p>";
        TAB +:+ "        <p style=" +:+ quote
            +:+ "color: blue; background-color: #f0f0f0;" +:+ quote
            +:+ ">This is a styled paragraph</p>";
        TAB +:+ "    </div>";
        TAB +:+ "</body>";
        TAB +:+ "</html>"])
    [].

Definition attachment2 : Attachment :=
  mkAttachment "test.txt" "text/plain" "This is a test attachment content".

Definition emailElite (attachment1 : Attachment) : Email :=
  mkEmail (mkAddress "Sender Name" (Username config)) recipients
    "Email with Attachments"
    (String.concat LF
       ["<!DOCTYPE html>";
        "<html>";
        "<body>";
        "    <div style=" +:+ quote
            +:+ "border: 2px solid black; padding: 10px;" +:+ quote +:+ ">";
        "        <h1>Important Message</h1>";
        "        <p>Please find the attached files below.</p>";
        "    </div>";
        "</body>";
        "</html>"])
    [attachment1; attachment2].

Definition main {E} : Mail E unit :=
  err ← SimpleSender_Send config email;
  _ ← match err with
      | Some err => log ("failed to send simple mail: " +:+ Error err)
      | None => log "simple mail sent"
      end;
  err ← AdvancedSender_Send config email;
  _ ← match err with
      | Some err => log ("failed to send advanced mail: " +:+ Error err)
      | None => log "advanced mail sent"
      end;
  '(attachment1, err) ← NewAttachmentFromFile "photo.jpg";
  _ ← match err with
      | Some err => log ("failed to create attachment: " +:+ Error err)
      | None => mret tt
      end;
  err ← EliteSender_Send config (emailElite attachment1);
  match err with
  | Some err => log ("failed to send elite mail: " +:+ Error err)
  | None => log "elite mail sent"
  end.

End sending_mail.

(** * Vocabulary for the mail sender *)

Section MailVocabulary.
Import sending_mail.

(** The events a run adds to the trace. *)
Definition events {E A} (m : Mail E A) (st : MailState E) : list MailEvent :=
  drop (length (mtrace st)) (mtrace (m st).2).

(** The library calls among some events, in order. *)
Definition calls (evs : list MailEvent) : list Call :=
  omap (λ ev, match ev with EvCall c _ => Some c | _ => None end) evs.

(** A call that returned nil. *)
Definition ok (c : Call) : MailEvent := EvCall c None.

(** The calls the senders defer: their errors are dropped. *)
Definition deferred (c : Call) : bool :=
  match c with
  | Writer_Close | Client_Quit | Client_Close => true
  | _ => false
  end.

(** The error a sender returns when call [c] has returned [e]. *)
Definition wrapped (c : Call) (e : error) : error :=
  match c with
  | net_Dial _ _ => Errorf "failed to dial SMTP server: " e
  | smtp_NewClient _ => Errorf "failed to create SMTP client: " e
  | Client_StartTLS _ => Errorf "failed to start TLS: " e
  | Client_Auth _ => Errorf "authentication failed: " e
  | Client_Mail _ => Errorf "MAIL command failed: " e
  | Client_Rcpt to => Errorf ("RCPT command failed for " +:+ to +:+ ": ") e
  | Client_Data => Errorf "DATA command failed: " e
  | _ => e
  end.

(** The error of the first call of a trace that failed and is not a
    deferred one, as the senders wrap it. *)
Fixpoint firstFailure (evs : list MailEvent) : option error :=
  match evs with
  | [] => None
  | EvCall c (Some e) :: evs =>
      if deferred c then firstFailure evs else Some (wrapped c e)
  | _ :: evs => firstFailure evs
  end.

(** The calls of [NewSMTPClient], of the envelope, and of a whole
    session that transmits [msg]. *)
Definition setupCalls (E : MailEnv) (config : SMTPConfig) : list Call :=
  [net_Dial "tcp" (net_JoinHostPort E (Host config) (Port config));
   smtp_NewClient (Host config);
   Client_StartTLS (Host config);
   Client_Auth (PlainAuth "" (Username config) (Password config) (Host config))].

Definition envelopeCalls (config : SMTPConfig) (email : Email) : list Call :=
  Client_Mail (Username config)
    :: ((λ to, Client_Rcpt (Address to)) <$> To email) ++ [Client_Data].

Definition sessionCalls (E : MailEnv) (config : SMTPConfig) (email : Email)
    (msg : string) : list Call :=
  setupCalls E config ++ envelopeCalls config email
    ++ [Writer_Write msg; Writer_Close; Client_Quit; Client_Close].

(** Calls made one after the other until one fails: the reference for
    the senders' chains of [if err != nil { return ... }]. *)
Fixpoint failFast {E} (cs : list Call) : Mail E (option (Call * error)) :=
  match cs with
  | [] => mret None
  | c :: cs =>
      err ← call c;
      match err with
      | Some e => mret (Some (c, e))
      | None => failFast cs
      end
  end.

(** What a chain of calls leaves in the trace: every call succeeded, or
    the calls before [c] succeeded and [c] failed with [e]. *)
Definition chain (cs : list Call) (r : option (Call * error))
    (evs : list MailEvent) : Prop :=
  match r with
  | None => evs = ok <$> cs
  | Some (c, e) =>
      ∃ pre post, cs = pre ++ c :: post ∧ evs = (ok <$> pre) ++ [EvCall c (Some e)]
  end.

(** The reference for [AdvancedSender.Send] and [EliteSender.Send],
    which differ in how they build the message. *)
Definition session {E} (build : Mail E string) (config : SMTPConfig)
    (email : Email) : Mail E (option error) :=
  r ← failFast (setupCalls E config);
  match r with
  | Some (c, e) => mret (Some (wrapped c e))
  | None =>
    defer (call Client_Close) (
    defer (call Client_Quit) (
      r ← failFast (envelopeCalls config email);
      match r with
      | Some (c, e) => mret (Some (wrapped c e))
      | None =>
        defer (call Writer_Close) (
          msg ← build;
          call (Writer_Write msg))
      end))
  end.

(** A call that failed and whose error a sender looks at. *)
Definition failure (ev : MailEvent) : bool :=
  match ev with
  | EvCall c (Some _) => negb (deferred c)
  | _ => false
  end.

(** A computation that at most writes log lines. *)
Definition onlyLogs {E A} (m : Mail E A) : Prop :=
  ∀ st, ∃ lines,
    (m st).2 = mkMailState (mworld st) (mtrace st ++ (EvLog <$> lines)).

(** The two senders that talk to the server themselves, and the
    message each of them builds. *)
Inductive Manual := Advanced | Elite.

Definition Send {E} (s : Manual) : SMTPConfig → Email → Mail E (option error) :=
  match s with
  | Advanced => AdvancedSender_Send
  | Elite => EliteSender_Send
  end.

Definition message {E} (s : Manual) (email : Email) : Mail E string :=
  match s with
  | Advanced => mret (buildEmailMessage E email)
  | Elite => buildMultipartMessage email
  end.

(** The deferred calls that follow a failure of call [c]. *)
Definition owed (c : Call) : list Call :=
  match c with
  | net_Dial _ _ | smtp_NewClient _ | Client_StartTLS _ | Client_Auth _ => []
  | Writer_Write _ => [Writer_Close; Client_Quit; Client_Close]
  | _ => [Client_Quit; Client_Close]
  end.

(** The text of one attachment part, up to the line break that ends
    it. *)
Definition attachmentPart (E : MailEnv) (boundary : string) (att : Attachment)
    : string :=
  ("--" +:+ boundary +:+ CRLF)
  +:+ ("Content-Type: " +:+ ContentType att +:+ CRLF)
  +:+ ("Content-Transfer-Encoding: base64" +:+ CRLF)
  +:+ ("Content-Disposition: attachment; filename="
       +:+ quote +:+ Filename att +:+ quote +:+ CRLF)
  +:+ CRLF
  +:+ (base64_Encoder E (Data att)).1.

(** The calls that open an attempt to send. *)
Definition opens (c : Call) : bool :=
  match c with
  | net_Dial _ _ | smtp_SendMail _ _ _ _ _ => true
  | _ => false
  end.

(** ** Reading a message back *)

(** The text before the first CRLF of [s] and the text after it. *)
Fixpoint readLine (s : string) : option (string * string) :=
  match s with
  | "" => None
  | String c s' =>
      let continue :=
        match readLine s' with
        | Some (l, rest) => Some (String c l, rest)
        | None => None
        end in
      match s' with
      | String d rest =>
          if Ascii.eqb c (Ascii.ascii_of_nat 13) && Ascii.eqb d (Ascii.ascii_of_nat 10)
          then Some ("", rest) else continue
      | "" => continue
      end
  end.

Definition hasCRLF (s : string) : bool := bool_decide (is_Some (readLine s)).

(** The header lines up to the first empty line, and what follows it. *)
Fixpoint readHeaders (fuel : nat) (s : string) : option (list string * string) :=
  match fuel with
  | O => None
  | S fuel =>
      match readLine s with
      | None => None
      | Some ("", rest) => Some ([], rest)
      | Some (l, rest) =>
          match readHeaders fuel rest with
          | Some (ls, body) => Some (l :: ls, body)
          | None => None
          end
      end
  end.

Definition readMessage (s : string) : option (list string * string) :=
  readHeaders (String.length s) s.

(** ** Scenarios *)

(** [base64.StdEncoding] on bytes given as numbers. *)
Definition base64Alphabet : list Ascii.ascii :=
  String.list_ascii_of_string
    "ABCDEFGHIJKLMNOPQRSTUVWXYZabcdefghijklmnopqrstuvwxyz0123456789+/".

Definition base64Digit (n : N) : string :=
  match base64Alphabet !! N.to_nat n with
  | Some c => String c ""
  | None => "="
  end.

Fixpoint base64Groups (bs : list N) : string :=
  match bs with
  | a :: b :: c :: bs =>
      base64Digit (a / 4)
      +:+ base64Digit ((a mod 4) * 16 + b / 16)
      +:+ base64Digit ((b mod 16) * 4 + c / 64)
      +:+ base64Digit (c mod 64)
      +:+ base64Groups bs
  | [a; b] =>
      base64Digit (a / 4)
      +:+ base64Digit ((a mod 4) * 16 + b / 16)
      +:+ base64Digit ((b mod 16) * 4)
      +:+ "="
  | [a] =>
      base64Digit (a / 4) +:+ base64Digit ((a mod 4) * 16) +:+ "=="
  | [] => ""
  end%N.

Definition base64 (data : string) : string :=
  base64Groups (Ascii.N_of_ascii <$> String.list_ascii_of_string data).

(** A scripted world: the answer of every call depends on the call
    alone; files are given by name.  Addresses are printed as
    [mail.Address] prints a plain ASCII name, and hosts are joined as
    host names without a colon are. *)
Record MailScript := mkMailScript {
  answer : Call → option error;
  files : string → string * option error;
  pid : Z;
  mimeTypes : string → string;
  extension : string → string;
  base : string → string }.

Definition scriptMailEnv (s : MailScript) : MailEnv :=
  mkMailEnv unit
    (λ w c, (answer s c, w))
    (λ w name, (files s name, w))
    (λ _, pid s)
    (λ a, if String.eqb (Name a) "" then "<" +:+ Address a +:+ ">"
          else quote +:+ Name a +:+ quote +:+ " <" +:+ Address a +:+ ">")
    (λ host port, host +:+ ":" +:+ port)
    (λ data, (base64 data, None))
    (mimeTypes s) (extension s) (base s).

Definition mailStart (s : MailScript) : MailState (scriptMailEnv s) :=
  mkMailState (E:=scriptMailEnv s) () [].

Definition noFile : string → string * option error :=
  λ _, ("", Some (LibraryError "open: no such file or directory")).

(** Every call succeeds. *)
Definition friendly : MailScript :=
  mkMailScript (λ _, None) noFile 4711 (λ _, "") (λ _, "") (λ p, p).

(** The server refuses the second recipient of [main]. *)
Definition refusing : MailScript :=
  mkMailScript
    (λ c, match c with
          | Client_Rcpt to =>
              if String.eqb to "doe@example.com"
              then Some (LibraryError "550 no such user") else None
          | _ => None
          end)
    noFile 4711 (λ _, "") (λ _, "") (λ p, p).

(** The server accepts the envelope and refuses the message when the
    writer is closed; closing the connection fails as well. *)
Definition rejecting : MailScript :=
  mkMailScript
    (λ c, match c with
          | Writer_Close => Some (LibraryError "554 message refused")
          | Client_Close => Some (LibraryError "use of closed connection")
          | _ => None
          end)
    noFile 4711 (λ _, "") (λ _, "") (λ p, p).

(** The server greets and then refuses TLS. *)
Definition plaintextOnly : MailScript :=
  mkMailScript
    (λ c, match c with
          | Client_StartTLS _ => Some (LibraryError "502 not implemented")
          | _ => None
          end)
    noFile 4711 (λ _, "") (λ _, "") (λ p, p).

Definition exampleConfig : SMTPConfig :=
  mkSMTPConfig "smtp.example.com" "587" "someone@example.com" "secret".

Definition exampleEmail : Email :=
  mkEmail (mkAddress "Sender Name" "someone@example.com") recipients
    "Greetings" "<p>Hello</p>" [attachment2].

End MailVocabulary.
(** * Running the model *)

Example TrimSuffix_dot : TrimSuffix "ns1.example.com." "." = "ns1.example.com".
Proof. reflexivity. Qed.

Example TrimSuffix_none : TrimSuffix "ns1.example.com" "." = "ns1.example.com".
Proof. reflexivity. Qed.

Example IPv4_String_example :
  IPv4_String [# x5d; xb8; xd8; x22] = "93.184.216.34".
Proof. by vm_compute. Qed.

Example MustNewName_long :
  MustNewName (String.concat "" (replicate 64 "abc.")) = None.
Proof. by vm_compute. Qed.

(** The delegation scenario from [a.root-servers.net]: a referral, a host
    lookup of the first nameserver, an authoritative answer. *)
Example delegation_run :
  let run := recursiveLookup 5 "example.com." "a.root-servers.net" "198.41.0.4"
               (scriptStart delegationScript) in
  run.1 = Ok (Some ExitAuthoritative)
  ∧ trace run.2
    = [ EvPrint (OutSending "a.root-servers.net" "198.41.0.4");
        EvDial "udp" "198.41.0.4:53" true;
        EvWrite "198.41.0.4:53" [] true;
        EvRead "198.41.0.4:53" (Some [x00]);
        EvClose "198.41.0.4:53";
        EvPrint (OutReferral "example.com.");
        EvPrint (OutNameServer "ns1.example.com." None);
        EvPrint (OutNameServer "ns2.example.com." (Some "10.0.0.2"));
        EvLookupHost "ns1.example.com" ["192.0.2.1"] true;
        EvPrint (OutResolved "ns1.example.com." "192.0.2.1");
        EvPrint (OutSending "ns1.example.com." "192.0.2.1");
        EvDial "udp" "192.0.2.1:53" true;
        EvWrite "192.0.2.1:53" [] true;
        EvRead "192.0.2.1:53" (Some [x01]);
        EvClose "192.0.2.1:53";
        EvPrint OutAuthoritative;
        EvPrint (OutAnswerA "example.com." [# x5d; xb8; xd8; x22]) ].
Proof. by vm_compute. Qed.

(** With no server reachable the lookup gives up after the thirteenth
    root server. *)
Example unreachable_run :
  let run := recursiveLookup 20 "example.com." "a.root-servers.net" "198.41.0.4"
               (scriptStart unreachableScript) in
  run.1 = Ok (Some ExitNoMoreRoots) ∧ length (queried (trace run.2)) = 13.
Proof. by vm_compute. Qed.

(** * Properties *)

(** ** What every operation leaves alone *)

Section Frame.
Context {E : Env}.

Lemma extends_silent {A} Q (m : M E A) :
  (∀ st, globals (m st).2 = globals st ∧ trace (m st).2 = trace st) →
  extends (E:=E) Q m.
Proof.
  intros H st. destruct (H st) as [Hg Ht]. split; [done|].
  exists []. by rewrite app_nil_r.
Qed.

Lemma extends_ret {A} Q (a : A) : extends (E:=E) Q (ret a).
Proof. by apply extends_silent. Qed.

Lemma extends_throw {A} Q p : extends (E:=E) Q (throw (A:=A) p).
Proof. by apply extends_silent. Qed.

Lemma extends_liftR {A} Q (r : result A) : extends (E:=E) Q (liftR r).
Proof. by apply extends_silent. Qed.

Lemma extends_call {A} Q (f : World E → A * World E) : extends (E:=E) Q (call f).
Proof. by apply extends_silent. Qed.

Lemma extends_get Q : extends (E:=E) Q get_rootServers.
Proof. by apply extends_silent. Qed.

Lemma extends_emit Q ev : Q ev → extends (E:=E) Q (emit ev).
Proof.
  intros HQ st. split; [done|]. exists [ev]. split; [done|].
  by constructor.
Qed.

Lemma extends_bind {A B} Q (m : M E A) (k : A → M E B) :
  extends (E:=E) Q m → (∀ a, extends (E:=E) Q (k a)) → extends (E:=E) Q (bind m k).
Proof.
  intros Hm Hk st. unfold bind.
  destruct (Hm st) as [Hg (evs & Ht & HQ)].
  destruct (m st) as [[a|p] st1]; simpl in *.
  - destruct (Hk a st1) as [Hg' (evs' & Ht' & HQ')].
    split; [congruence|].
    exists (evs ++ evs'). split.
    + by rewrite Ht', Ht, app_assoc.
    + by apply Forall_app.
  - split; [done|]. by exists evs.
Qed.

Lemma extends_defer {A} Q (d : M E unit) (body : M E A) :
  extends (E:=E) Q d → extends (E:=E) Q body → extends (E:=E) Q (defer d body).
Proof.
  intros Hd Hb st. unfold defer. simpl.
  destruct (Hb st) as [Hg (evs & Ht & HQ)].
  destruct (Hd (body st).2) as [Hg' (evs' & Ht' & HQ')].
  split; [congruence|].
  exists (evs ++ evs'). split.
  - by rewrite Ht', Ht, app_assoc.
  - by apply Forall_app.
Qed.

Lemma extends_mono {A} (Q Q' : Event → Prop) (m : M E A) :
  (∀ ev, Q ev → Q' ev) → extends (E:=E) Q m → extends (E:=E) Q' m.
Proof.
  intros HQQ Hm st. destruct (Hm st) as [Hg (evs & Ht & HQ)].
  split; [done|]. exists evs. split; [done|].
  eapply Forall_impl; eauto.
Qed.

End Frame.

Create HintDb frame.

#[local] Hint Resolve extends_ret extends_throw extends_liftR extends_call
  extends_get : frame.

(** [frame] goes through a monadic program and leaves the events to
    justify. *)
Ltac frame :=
  repeat first
    [ solve [auto with frame]
    | apply extends_bind; [|intros ?]
    | apply extends_defer
    | apply extends_emit; try exact I
    | match goal with
      | |- extends _ (match ?x with _ => _ end) => destruct x eqn:?
      | |- extends _ (if ?x then _ else _) => destruct x eqn:?
      end ].

Section Operations.
Context {E : Env}.
Implicit Types (domain : string) (st : State E).

Lemma extends_range domain :
  extends (E:=E) (resolverEvent E domain) range_rootServers.
Proof. unfold range_rootServers. frame. Qed.
#[local] Hint Resolve extends_range : frame.

Lemma extends_pickNewRootServer domain tried :
  extends (E:=E) (resolverEvent E domain) (pickNewRootServer tried).
Proof. unfold pickNewRootServer. frame. Qed.
#[local] Hint Resolve extends_pickNewRootServer : frame.

Lemma extends_printServers domain ips servers :
  extends (E:=E) (resolverEvent E domain) (printServers ips servers).
Proof. induction servers as [|ns rest IH]; simpl; frame. Qed.
#[local] Hint Resolve extends_printServers : frame.

Lemma extends_getNextServers domain res :
  extends (E:=E) (resolverEvent E domain) (getNextServers res).
Proof. unfold getNextServers. frame. Qed.
#[local] Hint Resolve extends_getNextServers : frame.

Lemma extends_LookupHost domain host :
  extends (E:=E) (resolverEvent E domain) (LookupHost host).
Proof. unfold LookupHost. frame. Qed.
#[local] Hint Resolve extends_LookupHost : frame.

Lemma extends_resolveNS domain servers :
  extends (E:=E) (resolverEvent E domain) (resolveNS servers).
Proof. induction servers as [|ns rest IH]; simpl; frame. Qed.
#[local] Hint Resolve extends_resolveNS : frame.

Lemma extends_printAnswers domain d answers :
  extends (E:=E) (resolverEvent E domain) (printAnswers d answers).
Proof. induction answers as [|a rest IH]; simpl; frame. Qed.
#[local] Hint Resolve extends_printAnswers : frame.

Lemma extends_printRootEntries domain entries :
  extends (E:=E) (resolverEvent E domain) (printRootEntries entries).
Proof. induction entries as [|[name ip] rest IH]; simpl; frame. Qed.
#[local] Hint Resolve extends_printRootEntries : frame.

Lemma extends_queryDNS domain server :
  extends (E:=E) (resolverEvent E domain) (queryDNS domain server).
Proof.
  unfold queryDNS, Dial, Write, Read, Close. frame.
  by eexists.
Qed.
#[local] Hint Resolve extends_queryDNS : frame.

Lemma extends_iteration domain v :
  extends (E:=E) (resolverEvent E domain) (iteration domain v).
Proof. unfold iteration, fallback, respond. frame. Qed.
#[local] Hint Resolve extends_iteration : frame.

Lemma extends_loop domain fuel v :
  extends (E:=E) (resolverEvent E domain) (loop fuel domain v).
Proof. revert v. induction fuel as [|fuel IH]; intros v; simpl; frame. Qed.
#[local] Hint Resolve extends_loop : frame.

Lemma extends_recursiveLookup domain fuel name ip :
  extends (E:=E) (resolverEvent E domain) (recursiveLookup fuel domain name ip).
Proof. apply extends_loop. Qed.
#[local] Hint Resolve extends_recursiveLookup : frame.

Lemma extends_main fuel :
  extends (E:=E) (resolverEvent E "example.com.") (main fuel).
Proof. unfold main, Intn. frame. Qed.

End Operations.

(** ** Untried root servers *)

Lemma NoDup_rootIPs : NoDup rootIPs.
Proof. apply (bool_decide_unpack _). by vm_compute. Qed.

Lemma rootIPs_nonempty ip : ip ∈ rootIPs → ip ≠ "".
Proof.
  revert ip. apply Forall_forall.
  apply (bool_decide_unpack _). by vm_compute.
Qed.

Lemma length_rootIPs : length rootIPs = 13.
Proof. by vm_compute. Qed.

Lemma size_rootServers : size rootServers = 13.
Proof. by vm_compute. Qed.

Lemma rootIPs_all_untried : filter (λ x, untried ∅ x) rootIPs = rootIPs.
Proof. by vm_compute. Qed.

Lemma rootIPs_eq : rootIPs = (map_to_list rootServers).*2.
Proof. done. Qed.

(** From here on the table is used through these facts only. *)
#[global] Opaque rootServers rootIPs.

Lemma untried_insert tried ip x :
  untried (<[ip := true]> tried) x
  = if decide (ip = x) then false else untried tried x.
Proof.
  unfold untried. rewrite lookup_insert. by case_decide.
Qed.

Lemma filter_cons_bool {A} (f : A → bool) (x : A) (l : list A) :
  filter (λ y, f y) (x :: l)
  = if f x then x :: filter (λ y, f y) l else filter (λ y, f y) l.
Proof. rewrite filter_cons. by destruct (f x). Qed.

Lemma untried_mark_other tried ip (l : list string) :
  ip ∉ l →
  filter (λ x, untried (<[ip := true]> tried) x) l
  = filter (λ x, untried tried x) l.
Proof.
  induction l as [|x l IH]; intros Hin; [done|].
  apply not_elem_of_cons in Hin as [Hne Hin].
  rewrite !filter_cons_bool, untried_insert, IH by done.
  by rewrite (decide_False (P:=ip = x)) by done.
Qed.

(** Marking an untried address removes exactly that address from the
    untried ones. *)
Lemma untried_mark tried ip (l : list string) :
  NoDup l → ip ∈ l → untried tried ip = true →
  filter (λ x, untried tried x) l
  ≡ₚ ip :: filter (λ x, untried (<[ip := true]> tried) x) l.
Proof.
  intros Hnd. induction Hnd as [|x l Hx Hnd IH]; intros Hin Hun.
  - by apply elem_of_nil in Hin.
  - rewrite !filter_cons_bool, untried_insert.
    apply elem_of_cons in Hin as [->|Hin].
    + rewrite Hun, (decide_True (P:=x = x)) by done. simpl.
      by rewrite untried_mark_other.
    + rewrite (decide_False (P:=ip = x)) by (intros ->; done).
      destruct (untried tried x); simpl.
      * rewrite IH by done. apply Permutation_swap.
      * by apply IH.
Qed.

(** Marking any address never adds an untried one. *)
Lemma untried_mark_le tried ip (l : list string) :
  (length (filter (λ x, untried (<[ip := true]> tried) x) l)
   ≤ length (filter (λ x, untried tried x) l))%nat.
Proof.
  induction l as [|x l IH]; [done|].
  rewrite !filter_cons_bool, untried_insert.
  destruct (decide (ip = x)), (untried tried x); simpl; lia.
Qed.

(** Marking an untried address of the list leaves fewer untried ones. *)
Lemma untried_mark_lt tried ip (l : list string) :
  ip ∈ l → untried tried ip = true →
  (length (filter (λ x, untried (<[ip := true]> tried) x) l)
   < length (filter (λ x, untried tried x) l))%nat.
Proof.
  induction l as [|x l IH]; intros Hin Hun.
  - by apply elem_of_nil in Hin.
  - rewrite !filter_cons_bool, untried_insert.
    pose proof (untried_mark_le tried ip l).
    destruct (decide (ip = x)) as [Hx|Hx].
    + subst x. rewrite Hun. simpl. lia.
    + apply elem_of_cons in Hin as [->|Hin]; [done|].
      specialize (IH Hin Hun).
      destruct (untried tried x); simpl; lia.
Qed.

(** What [firstUntried] returns. *)
Lemma firstUntried_none tried entries :
  filter (λ x, untried tried x) entries.*2 = [] →
  firstUntried tried entries = ("", "").
Proof.
  induction entries as [|[name ip] rest IH]; [done|].
  simpl. rewrite filter_cons_bool.
  destruct (untried tried ip); simpl; [done|]. apply IH.
Qed.

Lemma firstUntried_some tried entries :
  filter (λ x, untried tried x) entries.*2 ≠ [] →
  ∃ name ip, firstUntried tried entries = (name, ip)
             ∧ (name, ip) ∈ entries ∧ untried tried ip = true.
Proof.
  induction entries as [|[name ip] rest IH]; [done|].
  simpl. rewrite filter_cons_bool.
  destruct (untried tried ip) eqn:Hun; simpl.
  - intros _. exists name, ip. split_and!; [done| |done]. by left.
  - intros Hne. destruct (IH Hne) as (n & i & Hf & Hin & Hu).
    exists n, i. split_and!; [done| |done]. by right.
Qed.

(** ** The driver, one iteration at a time *)

Section Driver.
Context {E : Env}.
Implicit Types (domain : string) (st : State E) (v : LoopVars).

Lemma queried_app evs evs' : queried (evs ++ evs') = queried evs ++ queried evs'.
Proof. apply omap_app. Qed.

Lemma queried_snoc_print evs o : queried (evs ++ [EvPrint o]) = queried evs.
Proof. by rewrite queried_app, app_nil_r. Qed.

Lemma queried_prints evs lines : queried (evs ++ (EvPrint <$> lines)) = queried evs.
Proof.
  rewrite queried_app.
  assert (queried (EvPrint <$> lines) = []) as ->; [|by rewrite app_nil_r].
  induction lines as [|o lines IH]; [done|exact IH].
Qed.

Lemma range_rootServers_spec st :
  ∃ entries w,
    range_rootServers st = (Ok entries, mkState w (globals st) (trace st))
    ∧ entries ≡ₚ map_to_list (globals st).
Proof.
  eexists _, _. split; [reflexivity|]. apply map_range_perm.
Qed.

Lemma pickNewRootServer_spec tried st :
  globals st = rootServers →
  ∃ w, let st' := mkState w (globals st) (trace st) in
    (filter (λ x, untried tried x) rootIPs = []
     ∧ pickNewRootServer tried st = (Ok ("", ""), st'))
    ∨ (∃ name ip,
         pickNewRootServer tried st = (Ok (name, ip), st')
         ∧ rootServers !! name = Some ip ∧ untried tried ip = true).
Proof.
  intros Hg. destruct (range_rootServers_spec st) as (entries & w & Hr & Hp).
  exists w. unfold pickNewRootServer, bind. rewrite Hr. simpl.
  rewrite Hg in Hp.
  assert (Hips : entries.*2 ≡ₚ rootIPs) by (rewrite rootIPs_eq; by rewrite Hp).
  destruct (filter (λ x, untried tried x) entries.*2) as [|x xs] eqn:Hf.
  - left. split.
    + apply Permutation_nil_r. by rewrite <-Hips, Hf.
    + by rewrite firstUntried_none.
  - right. destruct (firstUntried_some tried entries) as (n & i & -> & Hin & Hu).
    { by rewrite Hf. }
    exists n, i. split_and!; [done| |done].
    apply elem_of_map_to_list. by rewrite <-Hp.
Qed.

Lemma queryDNS_queried domain server st :
  queried (trace (queryDNS domain server st).2)
  = queried (trace st) ++ [server +:+ ":53"].
Proof.
  unfold queryDNS, Dial, Write, Read, Close, defer, bind, call, emit, ret, throw.
  simpl.
  destruct (net_Dial E (world st) "udp" (server +:+ ":53")) as [[] w]; simpl;
    [|by rewrite queried_app].
  destruct (MustNewName domain); simpl; [|by rewrite !queried_app, app_nil_r].
  destruct (Message_Pack E _); simpl; [|by rewrite !queried_app, app_nil_r].
  destruct (conn_Write E w _ _) as [[] w1]; simpl;
    [|by rewrite !queried_app, !app_nil_r].
  destruct (conn_Read E w1 _) as [[d|] w2]; simpl;
    [|by rewrite !queried_app, !app_nil_r].
  destruct (Message_Unpack E _); simpl; by rewrite !queried_app, !app_nil_r.
Qed.

Lemma bind_Print {A} o (k : unit → M E A) st :
  bind (Print o) k st
  = k tt (mkState (world st) (globals st) (trace st ++ [EvPrint o])).
Proof. done. Qed.

Lemma bind_Ok {A B} (m : M E A) (k : A → M E B) st a st1 :
  m st = (Ok a, st1) → bind m k st = k a st1.
Proof. intros H. unfold bind. by rewrite H. Qed.

Lemma bind_Panic {A B} (m : M E A) (k : A → M E B) st p st1 :
  m st = (Panic p, st1) → bind m k st = (Panic p, st1).
Proof. intros H. unfold bind. by rewrite H. Qed.

Lemma iteration_eq domain v st :
  iteration domain v st
  = match queryDNS domain (serverIP v) (sending v st) with
    | (Ok (inl res), st1) =>
      respond domain (<[serverIP v := true]> (triedServers v)) res st1
    | (Ok (inr err), st1) =>
      fallback (<[serverIP v := true]> (triedServers v)) err st1
    | (Panic p, st1) => (Panic p, st1)
    end.
Proof.
  unfold iteration. rewrite bind_Print. unfold bind, sending. simpl.
  by destruct (queryDNS _ _ _) as [[[res|err]|p] st1].
Qed.

Lemma fallback_spec tried err st :
  globals st = rootServers →
  ∃ st', globals st' = rootServers
    ∧ queried (trace st') = queried (trace st)
    ∧ ((filter (λ x, untried tried x) rootIPs = []
        ∧ fallback tried err st = (Ok (inl ExitNoMoreRoots), st'))
       ∨ (∃ name ip,
            fallback tried err st = (Ok (inr (mkLoopVars tried name ip)), st')
            ∧ rootServers !! name = Some ip ∧ untried tried ip = true)).
Proof.
  intros Hg. unfold fallback. rewrite bind_Print.
  set (st0 := mkState _ _ _).
  destruct (pickNewRootServer_spec tried st0) as (w & [[Hnil Hp]|Hp]); [done| |].
  - eexists. split_and!; [| |left; split; [done|]].
    3: { rewrite (bind_Ok _ _ _ _ _ Hp). simpl. rewrite bind_Print. reflexivity. }
    + done.
    + simpl. by rewrite !queried_snoc_print.
  - destruct Hp as (name & ip & Hp & Hin & Hun).
    assert (ip ≠ "") as Hne.
    { apply rootIPs_nonempty. rewrite rootIPs_eq.
      apply list_elem_of_fmap. exists (name, ip). split; [done|].
      by apply elem_of_map_to_list. }
    eexists. split_and!; [| |right; exists name, ip; split_and!; [|done..]].
    3: { rewrite (bind_Ok _ _ _ _ _ Hp). simpl.
         apply String.eqb_neq in Hne. rewrite Hne.
         rewrite bind_Print. reflexivity. }
    + done.
    + simpl. by rewrite !queried_snoc_print.
Qed.

Lemma iteration_fail domain v st e :
  (queryDNS domain (serverIP v) (sending v st)).1 = Ok (inr e) →
  globals st = rootServers →
  let tried := <[serverIP v := true]> (triedServers v) in
  ∃ st', globals st' = rootServers
    ∧ queried (trace st') = queried (trace st) ++ [serverIP v +:+ ":53"]
    ∧ ((filter (λ x, untried tried x) rootIPs = []
        ∧ iteration domain v st = (Ok (inl ExitNoMoreRoots), st'))
       ∨ (∃ name ip,
            iteration domain v st = (Ok (inr (mkLoopVars tried name ip)), st')
            ∧ rootServers !! name = Some ip ∧ untried tried ip = true)).
Proof.
  intros Hq Hg tried.
  pose proof (queryDNS_queried domain (serverIP v) (sending v st)) as Hd.
  destruct (extends_queryDNS domain (serverIP v) (sending v st)) as [Hg1 _].
  rewrite iteration_eq.
  destruct (queryDNS domain (serverIP v) _) as [r st1]. simpl in *. subst r.
  destruct (fallback_spec tried e st1) as (st' & Hg' & Ht' & Hf); [congruence|].
  exists st'. split_and!; [done| |done].
  rewrite Ht', Hd. unfold sending. simpl. by rewrite queried_snoc_print.
Qed.

Lemma rootIPs_lookup name ip : rootServers !! name = Some ip → ip ∈ rootIPs.
Proof.
  intros H. rewrite rootIPs_eq. apply list_elem_of_fmap. exists (name, ip).
  split; [done|]. by apply elem_of_map_to_list.
Qed.

(** Every query fails: from a root server not yet tried, the loop goes
    through the untried root servers, each once, and stops. *)
Lemma exhaust_chain domain :
  (∀ st ip, ip ∈ rootIPs → ∃ e, (queryDNS domain ip st).1 = Ok (inr e)) →
  ∀ k v st,
    globals st = rootServers →
    serverIP v ∈ rootIPs →
    untried (triedServers v) (serverIP v) = true →
    length (filter (λ x, untried (<[serverIP v := true]> (triedServers v)) x)
              rootIPs) = k →
    ∃ st' ips,
      loop (S k) domain v st = (Ok (Some ExitNoMoreRoots), st')
      ∧ queried (trace st')
        = queried (trace st) ++ ((λ ip, ip +:+ ":53") <$> ips)
      ∧ ips ≡ₚ filter (λ x, untried (triedServers v) x) rootIPs.
Proof.
  intros Hfail. induction k as [|k IH]; intros v st Hg Hin Hun Hlen.
  - destruct (Hfail (sending v st) _ Hin) as [e He].
    destruct (iteration_fail domain v st e He Hg)
      as (st' & Hg' & Ht' & [[Hnil Hit]|(name & ip & Hit & Hl & Hu)]).
    + exists st', [serverIP v]. split_and!; [|done|].
      * simpl. by rewrite (bind_Ok _ _ _ _ _ Hit).
      * rewrite (untried_mark _ (serverIP v) rootIPs NoDup_rootIPs Hin Hun).
        by rewrite Hnil.
    + apply length_zero_iff_nil in Hlen.
      apply rootIPs_lookup in Hl.
      assert (ip ∈ filter (λ x, untried (<[serverIP v:=true]> (triedServers v)) x) rootIPs)
        as Hc by (apply list_elem_of_filter; split; [by rewrite Hu|done]).
      rewrite Hlen in Hc. apply elem_of_nil in Hc. destruct Hc.
  - destruct (Hfail (sending v st) _ Hin) as [e He].
    destruct (iteration_fail domain v st e He Hg)
      as (st1 & Hg1 & Ht1 & [[Hnil Hit]|(name & ip & Hit & Hl & Hu)]).
    + rewrite Hnil in Hlen. discriminate Hlen.
    + apply rootIPs_lookup in Hl.
      pose proof (untried_mark _ ip rootIPs NoDup_rootIPs Hl Hu) as Hperm.
      destruct (IH (mkLoopVars (<[serverIP v := true]> (triedServers v)) name ip) st1) as (st' & ips & Hloop & Ht' & Hips);
        [exact Hg1|exact Hl|exact Hu| |].
      { simpl. apply Permutation_length in Hperm. simpl in Hperm. lia. }
      exists st', (serverIP v :: ips). split_and!.
      * change (loop (S (S k)) domain v st)
          with (bind (iteration domain v)
                  (λ r, match r with
                        | inl e => ret (Some e)
                        | inr v' => loop (S k) domain v'
                        end) st).
        by rewrite (bind_Ok _ _ _ _ _ Hit).
      * rewrite Ht', Ht1. simpl. by rewrite <-app_assoc.
      * rewrite (untried_mark _ (serverIP v) rootIPs NoDup_rootIPs Hin Hun).
        constructor. by rewrite Hips.
Qed.

End Driver.


(** ** Responses *)

Section Responses.
Context {E : Env}.
Implicit Types (domain : string) (st : State E) (v : LoopVars).

Lemma queryDNS_wellTyped domain server st res st1 :
  queryDNS domain server st = (Ok (inl res), st1) →
  wellTypedMessage res = true.
Proof.
  unfold queryDNS, Dial, Write, Read, Close, defer, bind, call, emit, ret, throw.
  simpl.
  destruct (net_Dial E (world st) "udp" (server +:+ ":53")) as [[] w]; simpl;
    [|done].
  destruct (MustNewName domain); simpl; [|done].
  destruct (Message_Pack E _); simpl; [|done].
  destruct (conn_Write E w _ _) as [[] w1]; simpl; [|done].
  destruct (conn_Read E w1 _) as [[d|] w2]; simpl; [|done].
  destruct (Message_Unpack E _) as [m|] eqn:Hm; simpl; [|done].
  intros [= <- _]. by eapply Message_Unpack_wellTyped.
Qed.

Lemma loop_exit fuel domain v st e st' :
  iteration domain v st = (Ok (inl e), st') →
  loop (S fuel) domain v st = (Ok (Some e), st').
Proof. intros H. simpl. by rewrite (bind_Ok _ _ _ _ _ H). Qed.

Lemma loop_continue fuel domain v st v' st' :
  iteration domain v st = (Ok (inr v'), st') →
  loop (S fuel) domain v st = loop fuel domain v' st'.
Proof. intros H. simpl. by rewrite (bind_Ok _ _ _ _ _ H). Qed.

Lemma loop_panic fuel domain v st p st' :
  iteration domain v st = (Panic p, st') →
  loop (S fuel) domain v st = (Panic p, st').
Proof. intros H. simpl. by rewrite (bind_Panic _ _ _ _ _ H). Qed.

Lemma iteration_response domain v st res st1 :
  queryDNS domain (serverIP v) (sending v st) = (Ok (inl res), st1) →
  iteration domain v st
  = respond domain (<[serverIP v := true]> (triedServers v)) res st1.
Proof. intros H. by rewrite iteration_eq, H. Qed.

(** The answer loop prints one line per address record, in order. *)
Lemma printAnswers_emits domain answers st :
  forallb wellTyped answers = true →
  ∃ lines,
    printAnswers domain answers st
    = (Ok tt, mkState (world st) (globals st) (trace st ++ (EvPrint <$> lines)))
    ∧ Forall2 (reportsAddress domain)
        (filter (λ r, isAddressRecord r) answers) lines.
Proof.
  revert st. induction answers as [|r rest IH]; intros st Hwt.
  - exists []. simpl. rewrite app_nil_r. by destruct st.
  - simpl in Hwt. apply andb_prop in Hwt as [Hr Hrest].
    rewrite filter_cons_bool. unfold isAddressRecord at 1.
    unfold wellTyped in Hr. simpl.
    destruct (RType (RHeader r) =? TypeA)%N eqn:HA.
    + destruct (Body r) as [a| | |] eqn:Hb; try done. simpl.
      unfold bind at 1. simpl.
      destruct (IH (mkState (world st) (globals st)
                      (trace st ++ [EvPrint (OutAnswerA domain a)])) Hrest)
        as (lines & -> & Hall).
      exists (OutAnswerA domain a :: lines). split.
      * simpl. by rewrite <-app_assoc.
      * constructor; [|done]. left. apply N.eqb_eq in HA. eauto.
    + destruct (RType (RHeader r) =? TypeNS)%N eqn:HNS.
      { assert ((RType (RHeader r) =? TypeAAAA)%N = false) as ->.
        { apply N.eqb_eq in HNS. rewrite HNS. done. }
        simpl. unfold bind at 1. simpl. apply IH. done. }
      destruct (RType (RHeader r) =? TypeAAAA)%N eqn:H4.
      * destruct (Body r) as [| |a|] eqn:Hb; try done. simpl.
        unfold bind at 1. simpl.
        destruct (IH (mkState (world st) (globals st)
                        (trace st ++ [EvPrint (OutAnswerAAAA domain a)])) Hrest)
          as (lines & -> & Hall).
        exists (OutAnswerAAAA domain a :: lines). split.
        -- simpl. by rewrite <-app_assoc.
        -- constructor; [|done]. right. apply N.eqb_eq in H4. eauto.
      * simpl. unfold bind at 1. simpl. apply IH. done.
Qed.

(** Records that carry no address leave the answer loop unchanged. *)
Lemma printAnswers_filter domain answers st :
  printAnswers domain answers st
  = printAnswers domain (filter (λ r, isAddressRecord r) answers) st.
Proof.
  revert st. induction answers as [|r rest IH]; intros st; [done|].
  rewrite filter_cons_bool. unfold isAddressRecord at 1.
  destruct (RType (RHeader r) =? TypeA)%N eqn:HA;
    [|destruct (RType (RHeader r) =? TypeAAAA)%N eqn:H4];
    cbn [printAnswers orb]; rewrite ?HA, ?H4.
  - unfold bind at 1 3.
    destruct (bind _ _ st) as [[[]|p] st1]; [apply IH|reflexivity].
  - unfold bind at 1 3.
    destruct (bind _ _ st) as [[[]|p] st1]; [apply IH|reflexivity].
  - unfold bind at 1. apply IH.
Qed.

End Responses.


(** ** Referrals *)

Section Referrals.
Context {E : Env}.
Implicit Types (domain : string) (st : State E) (v : LoopVars).

Lemma scanAuthorities_noNS auths servers dom :
  Forall (λ r, isNSRecord r = false) auths →
  scanAuthorities auths servers dom = Ok (servers, dom).
Proof.
  intros H. revert servers dom.
  induction H as [|r rest Hr _ IH]; intros servers dom; [done|].
  simpl. unfold isNSRecord in Hr. rewrite Hr. apply IH.
Qed.

Lemma scanAuthorities_wellTyped auths servers dom :
  forallb wellTyped auths = true →
  ∃ dom', scanAuthorities auths servers dom
          = Ok (servers ++ nsTargets auths, dom').
Proof.
  revert servers dom. induction auths as [|r rest IH]; intros servers dom Hwt.
  - exists dom. simpl. by rewrite app_nil_r.
  - simpl in Hwt. apply andb_prop in Hwt as [Hr Hrest].
    unfold wellTyped in Hr. cbn [scanAuthorities nsTargets omap list_omap].
    unfold isNSRecord.
    destruct (RType (RHeader r) =? TypeNS)%N eqn:HNS.
    + assert ((RType (RHeader r) =? TypeA)%N = false) as HA.
      { apply N.eqb_eq in HNS. by rewrite HNS. }
      rewrite HA in Hr.
      destruct (Body r) as [|n| |]; try discriminate Hr. simpl.
      destruct (IH (servers ++ [Name_String n])
                  (Name_String (RName (RHeader r))) Hrest) as [dom' ->].
      exists dom'. by rewrite <-app_assoc.
    + apply IH, Hrest.
Qed.

Lemma scanAdditionals_wellTyped adds ips :
  forallb wellTyped adds = true → ∃ ips', scanAdditionals adds ips = Ok ips'.
Proof.
  revert ips. induction adds as [|r rest IH]; intros ips Hwt.
  - by exists ips.
  - simpl in Hwt. apply andb_prop in Hwt as [Hr Hrest].
    unfold wellTyped in Hr. simpl.
    destruct (RType (RHeader r) =? TypeA)%N.
    + destruct (Body r) as [a| | |]; try discriminate Hr. simpl.
      apply IH, Hrest.
    + apply IH, Hrest.
Qed.

Lemma printServers_spec ips servers st :
  printServers ips servers st
  = (Ok tt, mkState (world st) (globals st)
              (trace st ++ (EvPrint <$> serverLines ips servers))).
Proof.
  revert st. induction servers as [|ns rest IH]; intros st.
  - simpl. rewrite app_nil_r. by destruct st.
  - cbn [printServers]. rewrite bind_Print, IH. simpl.
    by rewrite <-app_assoc.
Qed.

(** A referral is read into the names of its NS records; the world is not
    consulted, and only lines are printed. *)
Lemma getNextServers_spec res st :
  forallb wellTyped (Authorities res) = true →
  forallb wellTyped (Additionals res) = true →
  ∃ dom ips,
    scanAuthorities (Authorities res) [] "" = Ok (nsTargets (Authorities res), dom)
    ∧ getNextServers res st
      = (Ok (nsTargets (Authorities res)),
         mkState (world st) (globals st)
           (trace st ++ EvPrint (OutReferral
                                   (if String.eqb dom "" then "(unknown domain)"
                                    else dom))
              :: (EvPrint <$> serverLines ips (nsTargets (Authorities res))))).
Proof.
  intros Hau Had.
  destruct (scanAuthorities_wellTyped _ [] "" Hau) as [dom Hs].
  destruct (scanAdditionals_wellTyped _ ∅ Had) as [ips Hi].
  exists dom, ips. split; [done|].
  unfold getNextServers, liftR, bind at 1. rewrite Hs. simpl.
  unfold bind at 1. rewrite Hi. rewrite bind_Print.
  unfold bind. rewrite printServers_spec. simpl.
  by rewrite <-app_assoc.
Qed.

End Referrals.


(** ** Host resolution of the candidates *)

Section Resolver.
Context {E : Env}.
Implicit Types (st : State E).

Lemma lookups_app evs evs' : lookups (evs ++ evs') = lookups evs ++ lookups evs'.
Proof. apply omap_app. Qed.

Lemma lookups_cons_lookup h a ok evs :
  lookups (EvLookupHost h a ok :: evs) = (h, a, ok) :: lookups evs.
Proof. done. Qed.

Lemma resolveNS_cons ns rest st :
  resolveNS (ns :: rest) st
  = let r := net_LookupHost E (world st) (TrimSuffix ns ".") in
    let st1 := mkState r.2 (globals st)
                 (trace st ++ [EvLookupHost (TrimSuffix ns ".") r.1.1 r.1.2]) in
    if r.1.2 && bool_decide (0 < length r.1.1)%nat
    then (Ok (ns, default "" (head r.1.1)),
          mkState r.2 (globals st)
            (trace st1 ++ [EvPrint (OutResolved ns (default "" (head r.1.1)))]))
    else resolveNS rest st1.
Proof.
  cbn [resolveNS]. unfold bind at 1, LookupHost, bind, call, emit. simpl.
  destruct (net_LookupHost E (world st) (TrimSuffix ns ".")) as [[ip ok] w].
  simpl. by destruct (ok && _).
Qed.

(** [resolveNS] goes down the list until a lookup succeeds. *)
Lemma resolveNS_spec servers st :
  ∃ evs,
    trace (resolveNS servers st).2 = trace st ++ evs
    ∧ ((∃ pre ns post ip0 ips failed,
          servers = pre ++ ns :: post
          ∧ (resolveNS servers st).1 = Ok (ns, ip0)
          ∧ lookups evs = failed ++ [(TrimSuffix ns ".", ip0 :: ips, true)]
          ∧ Forall2 failedLookupOf pre failed)
       ∨ ((resolveNS servers st).1 = Ok ("", "")
          ∧ Forall2 failedLookupOf servers (lookups evs))).
Proof.
  revert st. induction servers as [|ns rest IH]; intros st.
  - exists []. split; [by rewrite app_nil_r|]. right. split; [done|constructor].
  - rewrite resolveNS_cons.
    destruct (net_LookupHost E (world st) (TrimSuffix ns ".")) as [[ip ok] w] eqn:Hl.
    simpl.
    destruct (ok && bool_decide (0 < length ip)%nat) eqn:Hok.
    + apply andb_prop in Hok as [-> Hlen].
      destruct ip as [|ip0 ips]; [done|]. simpl.
      eexists [_; _]. split; [by rewrite <-app_assoc|].
      left. exists [], ns, rest, ip0, ips, []. split_and!; [done..|constructor].
    + set (st1 := mkState _ _ _).
      destruct (IH st1) as (evs & Ht & Hcases).
      exists (EvLookupHost (TrimSuffix ns ".") ip ok :: evs). split.
      { rewrite Ht. simpl. by rewrite <-app_assoc. }
      destruct Hcases as
        [(pre & c & post & ip0 & ips & failed & -> & Hr & Hlk & Hf)|[Hr Hf]].
      * left. exists (ns :: pre), c, post, ip0, ips,
               ((TrimSuffix ns ".", ip, ok) :: failed).
        split_and!; [done|done|by rewrite lookups_cons_lookup, Hlk|].
        constructor; [|done]. split; [done|apply Hok].
      * right. split; [done|]. rewrite lookups_cons_lookup.
        constructor; [|done]. split; [done|apply Hok].
Qed.

End Resolver.


(** ** The tried set *)

Section TriedSet.
Context {E : Env}.
Implicit Types (domain : string) (st : State E) (v : LoopVars).

Lemma fallback_tried tried err st v' :
  (fallback tried err st).1 = Ok (inr v') → triedServers v' = tried.
Proof.
  unfold fallback. rewrite bind_Print. unfold bind at 1.
  destruct (pickNewRootServer tried _) as [[[name ip]|p] st1]; [|done].
  destruct (String.eqb ip ""); rewrite bind_Print; simpl; [done|].
  by intros [= <-].
Qed.

Lemma respond_tried domain tried res st v' :
  (respond domain tried res st).1 = Ok (inr v') → triedServers v' = tried.
Proof.
  unfold respond. destruct (Authoritative (MHeader res)).
  - rewrite bind_Print. unfold bind at 1.
    by destruct (printAnswers _ _ _) as [[[]|p] st1].
  - unfold bind at 1.
    destruct (getNextServers res st) as [[servers|p] st1]; [|done].
    destruct (length servers =? 0)%nat; [by rewrite bind_Print|].
    unfold bind at 1.
    destruct (resolveNS servers st1) as [[[name ip]|p] st2]; [|done].
    destruct (String.eqb ip ""); [by rewrite bind_Print|].
    by intros [= <-].
Qed.

Lemma tried_set_step domain v v' st :
  (iteration domain v st).1 = Ok (inr v') →
  triedServers v' = <[serverIP v := true]> (triedServers v).
Proof.
  rewrite iteration_eq.
  destruct (queryDNS domain (serverIP v) (sending v st)) as [[[res|err]|p] st1].
  - apply respond_tried.
  - apply fallback_tried.
  - done.
Qed.

End TriedSet.


(** ** Termination *)

Section Termination.
Context {E : Env}.
Implicit Types (domain : string) (st : State E) (v : LoopVars).

(** Fuel beyond what the loop needs changes nothing. *)
Lemma loop_more_fuel domain n j v st :
  (loop n domain v st).1 ≠ Ok None →
  loop (n + j) domain v st = loop n domain v st.
Proof.
  revert v st. induction n as [|n IH]; intros v st Hfin; [done|].
  cbn [loop Nat.add] in *. unfold bind in *.
  destruct (iteration domain v st) as [[[e|v']|p] st1]; [done| |done].
  by apply IH.
Qed.

Lemma globals_iteration domain v st :
  globals (iteration domain v st).2 = globals st.
Proof. apply (extends_iteration domain v st). Qed.

(** An iteration that goes on either followed a referral or fell back to
    an untried root server; either way the server it queried is tried. *)
Lemma iteration_progress domain v st v' st' :
  globals st = rootServers →
  iteration domain v st = (Ok (inr v'), st') →
  globals st' = rootServers
  ∧ triedServers v' = <[serverIP v := true]> (triedServers v)
  ∧ (followsReferral domain v st = Some (v', st')
     ∨ (serverIP v' ∈ rootIPs
        ∧ untried (triedServers v') (serverIP v') = true)).
Proof.
  intros Hg Hit.
  pose proof (globals_iteration domain v st) as Hg'.
  pose proof (tried_set_step domain v v' st) as Htr.
  rewrite Hit in Hg', Htr. simpl in Hg', Htr.
  split_and!; [congruence|by apply Htr|].
  unfold followsReferral. rewrite Hit.
  destruct (extends_queryDNS domain (serverIP v) (sending v st)) as [Hg1 _].
  rewrite iteration_eq in Hit.
  destruct (queryDNS domain (serverIP v) (sending v st))
    as [[[res|err]|p] st1]; simpl in *; [by left| |done].
  right.
  destruct (fallback_spec (<[serverIP v := true]> (triedServers v)) err st1)
    as (st2 & _ & _ & [[_ Hf]|(name & ip & Hf & Hl & Hu)]); [congruence| |].
  - rewrite Hf in Hit. discriminate Hit.
  - rewrite Hf in Hit. injection Hit as <- _. simpl.
    split; [by eapply rootIPs_lookup|done].
Qed.

(** With at most [k] root servers untried and at most [m] referrals left
    in the current chain, [k × (depth + 1) + m + 1] iterations suffice. *)
Lemma loop_terminates domain depth :
  (∀ v st, ¬ referralChain (S depth) domain v st) →
  ∀ N k m v st,
    (m ≤ depth)%nat →
    (k * S depth + m)%nat = N →
    globals st = rootServers →
    (untriedRoots (<[serverIP v := true]> (triedServers v)) ≤ k)%nat →
    ¬ referralChain (S m) domain v st →
    (loop (S N) domain v st).1 ≠ Ok None.
Proof.
  intros Hdepth N. induction N as [N IH] using lt_wf_ind.
  intros k m v st Hmd HN Hg Hk Hm.
  cbn [loop]. unfold bind.
  destruct (iteration domain v st) as [[[e|v']|p] st1] eqn:Hit;
    [discriminate| |discriminate].
  destruct (iteration_progress domain v st v' st1 Hg Hit)
    as (Hg1 & Htr & [Href|[Hin Hun]]).
  - destruct m as [|m'].
    { exfalso. apply Hm. cbn [referralChain]. rewrite Href. exact I. }
    assert (¬ referralChain (S m') domain v' st1) as Hm'.
    { intros Hc. apply Hm. cbn [referralChain] in *. by rewrite Href. }
    destruct N as [|N']; [lia|].
    apply (IH N' ltac:(lia) k m'); [lia|lia|exact Hg1| |exact Hm'].
    rewrite Htr. unfold untriedRoots in *.
    etrans; [apply untried_mark_le|exact Hk].
  - unfold untriedRoots in *. rewrite <-Htr in Hk.
    pose proof (untried_mark_lt _ _ rootIPs Hin Hun) as Hlt.
    destruct k as [|k']; [lia|].
    assert ((loop (S (k' * S depth + depth)) domain v' st1).1 ≠ Ok None) as Hfin.
    { apply (IH (k' * S depth + depth)%nat ltac:(lia) k' depth);
        [lia|lia|exact Hg1| |apply Hdepth].
      unfold untriedRoots. lia. }
    replace N with (S (k' * S depth + depth) + (N - S (k' * S depth + depth)))%nat
      by lia.
    by rewrite loop_more_fuel.
Qed.

End Termination.

(** In the cycle scenario every iteration follows the referral. *)
Lemma cycle_step (v : LoopVars) (st : State (scriptEnv cycleScript)) :
  ∃ v' st', iteration "example.com." v st = (Ok (inr v'), st').
Proof.
  rewrite iteration_eq.
  generalize (<[serverIP v := true]> (triedServers v)). intros tried.
  eexists _, _. vm_compute. reflexivity.
Qed.

Lemma cycle_never_returns n (v : LoopVars) (st : State (scriptEnv cycleScript)) :
  (loop n "example.com." v st).1 = Ok None.
Proof.
  revert v st. induction n as [|n IH]; intros v st; [reflexivity|].
  destruct (cycle_step v st) as (v' & st' & Hit).
  rewrite (loop_continue _ _ _ _ _ _ Hit). apply IH.
Qed.


(** In the delegation scenario a referral leads to a nameserver of
    [example.com.], which answers authoritatively: chains are one
    referral deep. *)
Lemma delegation_query ip (st : State (scriptEnv delegationScript)) :
  ∃ st1,
    queryDNS "example.com." ip st
    = (Ok (inl (if String.eqb (ip +:+ ":53") "192.0.2.1:53"
                   || String.eqb (ip +:+ ":53") "192.0.2.2:53"
                then exampleAnswer else glueReferral)), st1).
Proof.
  unfold queryDNS, Dial, Write, Read, Close, defer, bind, call, emit, ret.
  cbn [scriptEnv delegationScript net_Dial conn_Write conn_Read Message_Pack
       Message_Unpack script_dial script_write script_datagram script_messages
       negb fst snd world globals trace].
  destruct (String.eqb (ip +:+ ":53") "192.0.2.1:53"
            || String.eqb (ip +:+ ":53") "192.0.2.2:53");
    eexists; vm_compute; reflexivity.
Qed.

Lemma delegation_referral tried (st : State (scriptEnv delegationScript)) :
  ∃ st', respond "example.com." tried glueReferral st
         = (Ok (inr (mkLoopVars tried "ns1.example.com." "192.0.2.1")), st').
Proof. eexists. vm_compute. reflexivity. Qed.

Lemma delegation_answer tried (st : State (scriptEnv delegationScript)) :
  ∃ st', respond "example.com." tried exampleAnswer st
         = (Ok (inl ExitAuthoritative), st').
Proof. eexists. vm_compute. reflexivity. Qed.

Lemma delegation_depth (v : LoopVars) (st : State (scriptEnv delegationScript)) :
  ¬ referralChain 2 "example.com." v st.
Proof.
  assert (∀ v st, serverIP v = "192.0.2.1" →
                  followsReferral (E:=scriptEnv delegationScript)
                    "example.com." v st = None) as Hanswer.
  { intros v0 st0 Hip. unfold followsReferral. rewrite iteration_eq.
    destruct (delegation_query (serverIP v0) (sending v0 st0)) as [st1 ->].
    destruct (delegation_answer (<[serverIP v0 := true]> (triedServers v0)) st1)
      as [st2 Hr].
    rewrite Hip in *.
    change (String.eqb ("192.0.2.1" +:+ ":53") "192.0.2.1:53"
            || String.eqb ("192.0.2.1" +:+ ":53") "192.0.2.2:53") with true.
    cbn [fst]. by rewrite Hr. }
  intros Hchain. cbn [referralChain] in Hchain.
  destruct (followsReferral "example.com." v st) as [[v1 st1]|] eqn:H1; [|done].
  destruct (followsReferral "example.com." v1 st1) as [[v2 st2]|] eqn:H2; [|done].
  rewrite Hanswer in H2; [done|].
  unfold followsReferral in H1. rewrite iteration_eq in H1.
  destruct (delegation_query (serverIP v) (sending v st)) as [st0 Hq].
  rewrite Hq in H1. simpl in H1.
  destruct (String.eqb (serverIP v +:+ ":53") "192.0.2.1:53"
            || String.eqb (serverIP v +:+ ":53") "192.0.2.2:53").
  - destruct (delegation_answer (<[serverIP v := true]> (triedServers v)) st0)
      as [st' Hr].
    by rewrite Hr in H1.
  - destruct (delegation_referral (<[serverIP v := true]> (triedServers v)) st0)
      as [st' Hr].
    rewrite Hr in H1. by injection H1 as <- _.
Qed.


(** ** The program entry *)

Section Main.
Context {E : Env}.
Implicit Types (st : State E).

Lemma printRootEntries_spec entries st :
  printRootEntries entries st
  = (Ok tt, mkState (world st) (globals st)
              (trace st ++ (EvPrint <$> ((λ e, OutRootEntry e.1 e.2) <$> entries)))).
Proof.
  revert st. induction entries as [|[name ip] rest IH]; intros st.
  - simpl. rewrite app_nil_r. by destruct st.
  - cbn [printRootEntries]. rewrite bind_Print, IH. simpl.
    by rewrite <-app_assoc.
Qed.

Lemma Intn_spec n st :
  n ≠ 0%nat →
  Intn n st
  = (Ok ((rand_source E (world st)).1 mod n)%nat,
     mkState (rand_source E (world st)).2 (globals st) (trace st)).
Proof. intros Hn. unfold Intn. by rewrite decide_False. Qed.

(** [main] prints the table, draws a root server of the table and starts
    the lookup of [example.com.] there. *)
Lemma main_starts_at_root fuel st :
  globals st = rootServers →
  ∃ name ip st0 lines,
    rootServers !! name = Some ip
    ∧ globals st0 = rootServers
    ∧ trace st0 = trace st ++ (EvPrint <$> lines)
    ∧ main fuel st = recursiveLookup fuel "example.com." name ip st0.
Proof.
  intros Hg. unfold main. rewrite bind_Print.
  set (st1 := mkState _ _ _).
  destruct (range_rootServers_spec st1) as (entries & w1 & Hr1 & _).
  rewrite (bind_Ok _ _ _ _ _ Hr1).
  unfold bind at 1. rewrite printRootEntries_spec.
  set (st2 := mkState _ _ _).
  destruct (range_rootServers_spec st2) as (entries2 & w2 & Hr2 & Hp).
  rewrite (bind_Ok _ _ _ _ _ Hr2).
  set (st3 := mkState _ _ _).
  assert (length entries2.*1 = 13) as Hlen.
  { rewrite length_fmap, Hp. subst st2 st1. simpl. rewrite Hg.
    rewrite <-length_rootIPs, rootIPs_eq. by rewrite length_fmap. }
  assert (length entries2.*1 ≠ 0%nat) as Hne by (rewrite Hlen; discriminate).
  rewrite (bind_Ok _ _ _ _ _ (Intn_spec _ st3 Hne)).
  rewrite Hlen. set (r := (rand_source E (world st3)).1).
  destruct (entries2.*1 !! (r mod 13)%nat) as [name|] eqn:Hname.
  2: { apply lookup_ge_None in Hname. rewrite Hlen in Hname.
       pose proof (Nat.mod_upper_bound r 13). lia. }
  rewrite bind_Print. unfold bind, get_rootServers.
  cbn [globals world trace fst snd].
  assert (globals st3 = rootServers) as Hg3 by exact Hg.
  rewrite !Hg3.
  apply list_elem_of_lookup_2, list_elem_of_fmap in Hname as [[n ip] [-> Hin]].
  assert (rootServers !! n = Some ip) as Hl.
  { apply elem_of_map_to_list. rewrite Hp in Hin. subst st2 st1. simpl in Hin.
    by rewrite Hg in Hin. }
  cbn [fst]. rewrite Hl. cbn [default].
  eexists n, ip, _,
    (OutLoadingRootList :: ((λ e, OutRootEntry e.1 e.2) <$> entries)
       ++ [OutStarting "example.com."]).
  split_and!; [exact Hl| | |reflexivity].
  - reflexivity.
  - subst st3 st2 st1. simpl. rewrite fmap_app, <-!app_assoc. reflexivity.
Qed.

End Main.

(** * Further properties of the resolver *)

(** ** Which operations print, look up, use the socket *)

Section EventKinds.
Context {E : Env}.
Implicit Types (domain : string) (st : State E) (v : LoopVars).

Lemma respondEvent_printServers ips servers :
  extends (E:=E) respondEvent (printServers ips servers).
Proof. induction servers as [|ns rest IH]; simpl; frame. Qed.
#[local] Hint Resolve respondEvent_printServers : frame.

Lemma respondEvent_getNextServers res :
  extends (E:=E) respondEvent (getNextServers res).
Proof. unfold getNextServers. frame. Qed.
#[local] Hint Resolve respondEvent_getNextServers : frame.

Lemma respondEvent_printAnswers domain answers :
  extends (E:=E) respondEvent (printAnswers domain answers).
Proof. induction answers as [|a rest IH]; simpl; frame. Qed.
#[local] Hint Resolve respondEvent_printAnswers : frame.

Lemma respondEvent_resolveNS servers :
  extends (E:=E) respondEvent (resolveNS servers).
Proof. induction servers as [|ns rest IH]; simpl; unfold LookupHost; frame. Qed.
#[local] Hint Resolve respondEvent_resolveNS : frame.

Lemma respondEvent_respond domain tried res :
  extends (E:=E) respondEvent (respond domain tried res).
Proof. unfold respond. frame. Qed.

Lemma offSocket_respond domain tried res :
  extends (E:=E) offSocket (respond domain tried res).
Proof.
  eapply extends_mono; [|apply respondEvent_respond].
  intros [| | | | |[]]; simpl; tauto.
Qed.

Lemma prints_fallback tried err : extends (E:=E) isPrint (fallback tried err).
Proof. unfold fallback, pickNewRootServer, range_rootServers. frame. Qed.

Lemma offSocket_fallback tried err :
  extends (E:=E) offSocket (fallback tried err).
Proof. eapply extends_mono; [|apply prints_fallback]. by intros []. Qed.

End EventKinds.

(** ** One query, one socket *)

Section Sockets.
Context {E : Env}.
Implicit Types (domain : string) (st : State E) (v : LoopVars).

(** The five ways a call of [queryDNS] goes. *)
Lemma queryDNS_cases domain server st :
  let address := server +:+ ":53" in
  let run := queryDNS domain server st in
  ∃ evs,
    trace run.2 = trace st ++ evs
    ∧ ((evs = [EvDial "udp" address false] ∧ run.1 = Ok (inr ErrDial))
       ∨ (evs = [EvDial "udp" address true; EvClose address]
          ∧ ((MustNewName domain = None ∧ run.1 = Panic PanicMustNewName)
             ∨ (∃ name, MustNewName domain = Some name
                        ∧ Message_Pack E (queryMessage name) = None
                        ∧ run.1 = Ok (inr ErrPack))))
       ∨ (∃ name query,
            MustNewName domain = Some name
            ∧ Message_Pack E (queryMessage name) = Some query
            ∧ ((evs = [EvDial "udp" address true; EvWrite address query false;
                       EvClose address]
                ∧ run.1 = Ok (inr ErrWrite))
               ∨ (evs = [EvDial "udp" address true; EvWrite address query true;
                         EvRead address None; EvClose address]
                  ∧ run.1 = Ok (inr ErrRead))
               ∨ (∃ response,
                    evs = [EvDial "udp" address true; EvWrite address query true;
                           EvRead address (Some response); EvClose address]
                    ∧ (length response ≤ 512)%nat
                    ∧ run.1 = Ok (match Message_Unpack E response with
                                  | Some res => inl res
                                  | None => inr ErrUnpack
                                  end))))).
Proof.
  intros address run. subst run.
  unfold queryDNS, Dial, Write, Read, Close, defer, bind, call, emit, ret, throw.
  fold address. remember 512%nat as size eqn:Hsize. simpl.
  destruct (net_Dial E (world st) "udp" address) as [[] w]; simpl;
    [|eexists; split; [reflexivity|by left]].
  destruct (MustNewName domain) as [name|] eqn:Hname; simpl;
    [|eexists; split; [by rewrite <-app_assoc|right; left; split; [done|by left]]].
  destruct (Message_Pack E (queryMessage name)) as [query|] eqn:Hpack; simpl;
    [|eexists; split; [by rewrite <-app_assoc|];
      right; left; split; [done|right; by exists name]].
  destruct (conn_Write E w address query) as [[] w1]; simpl.
  2: { eexists; split; [by rewrite <-!app_assoc|].
       do 2 right. exists name, query. split_and!; [done..|by left]. }
  destruct (conn_Read E w1 address) as [[d|] w2]; simpl.
  2: { eexists; split; [by rewrite <-!app_assoc|].
       do 2 right. exists name, query. split_and!; [done..|right; by left]. }
  exists [EvDial "udp" address true; EvWrite address query true;
          EvRead address (Some (take size d)); EvClose address].
  split.
  { destruct (Message_Unpack E (take size d)); simpl; by rewrite <-!app_assoc. }
  do 2 right. exists name, query. split_and!; [done..|do 2 right].
  exists (take size d). split_and!; [done|rewrite length_take; lia|].
  by destruct (Message_Unpack E (take size d)).
Qed.

Lemma socketTrack_app open evs evs' :
  socketTrack open (evs ++ evs')
  = match socketTrack open evs with
    | Some open' => socketTrack open' evs'
    | None => None
    end.
Proof.
  revert open. induction evs as [|ev evs IH]; intros open; [done|].
  destruct ev, open as [a|]; simpl; try done; try apply IH;
    by destruct (String.eqb _ a).
Qed.

Lemma socketsBalanced_app evs evs' :
  socketsBalanced evs → socketsBalanced evs' → socketsBalanced (evs ++ evs').
Proof.
  unfold socketsBalanced. intros H H'. by rewrite socketTrack_app, H.
Qed.

Lemma socketsBalanced_offSocket evs :
  Forall offSocket evs → socketsBalanced evs.
Proof.
  induction 1 as [|ev evs Hev _ IH]; [done|].
  by destruct ev.
Qed.

Lemma queryDNS_balanced domain server st :
  ∃ evs, trace (queryDNS domain server st).2 = trace st ++ evs
         ∧ socketsBalanced evs.
Proof.
  destruct (queryDNS_cases domain server st) as (evs & Ht & Hcases).
  exists evs. split; [exact Ht|].
  unfold socketsBalanced.
  destruct Hcases as [[-> _]|[[-> _]|(name & query & _ & _ &
                       [[-> _]|[[-> _]|(d & -> & _)]])]];
    simpl; by rewrite ?String.eqb_refl.
Qed.

Lemma iteration_balanced domain v st :
  ∃ evs, trace (iteration domain v st).2 = trace st ++ evs
         ∧ socketsBalanced evs.
Proof.
  rewrite iteration_eq.
  destruct (queryDNS_balanced domain (serverIP v) (sending v st))
    as (evq & Hq & Hbq).
  set (tried := <[serverIP v := true]> (triedServers v)).
  destruct (queryDNS domain (serverIP v) (sending v st)) as [[[res|err]|p] st1];
    cbn [snd] in Hq.
  - destruct (offSocket_respond domain tried res st1) as [_ (evs & Ht & Hoff)].
    exists (EvPrint (OutSending (serverName v) (serverIP v)) :: evq ++ evs).
    split.
    + rewrite Ht, Hq. unfold sending. simpl. by rewrite <-!app_assoc.
    + apply (socketsBalanced_app [_]); [done|].
      apply socketsBalanced_app; [done|by apply socketsBalanced_offSocket].
  - destruct (offSocket_fallback tried err st1) as [_ (evs & Ht & Hoff)].
    exists (EvPrint (OutSending (serverName v) (serverIP v)) :: evq ++ evs).
    split.
    + rewrite Ht, Hq. unfold sending. simpl. by rewrite <-!app_assoc.
    + apply (socketsBalanced_app [_]); [done|].
      apply socketsBalanced_app; [done|by apply socketsBalanced_offSocket].
  - exists (EvPrint (OutSending (serverName v) (serverIP v)) :: evq).
    split.
    + cbn [snd]. rewrite Hq. unfold sending. simpl. by rewrite <-!app_assoc.
    + by apply (socketsBalanced_app [_]).
Qed.

Lemma loop_balanced fuel domain v st :
  ∃ evs, trace (loop fuel domain v st).2 = trace st ++ evs
         ∧ socketsBalanced evs.
Proof.
  revert v st. induction fuel as [|fuel IH]; intros v st.
  - exists []. split; [by rewrite app_nil_r|done].
  - cbn [loop]. unfold bind.
    destruct (iteration_balanced domain v st) as (evs & Ht & Hb).
    destruct (iteration domain v st) as [[[e|v']|p] st1]; cbn [snd] in Ht.
    + by exists evs.
    + destruct (IH v' st1) as (evs' & Ht' & Hb').
      exists (evs ++ evs'). split.
      * by rewrite Ht', Ht, app_assoc.
      * by apply socketsBalanced_app.
    + by exists evs.
Qed.

End Sockets.

(** ** Failed queries and the tried set *)

Section Failures.
Context {E : Env}.
Implicit Types (domain : string) (st : State E) (v : LoopVars).

Lemma failures_app evs evs' : failures (evs ++ evs') = (failures evs + failures evs')%nat.
Proof. unfold failures. by rewrite filter_app, length_app. Qed.

Lemma failures_cons ev evs :
  failures (ev :: evs)
  = ((if isErrorLine ev then 1 else 0) + failures evs)%nat.
Proof. unfold failures. rewrite filter_cons_bool. by destruct (isErrorLine ev). Qed.

Lemma failures_quiet (Q : Event → Prop) evs :
  (∀ ev, Q ev → isErrorLine ev = false) → Forall Q evs → failures evs = 0%nat.
Proof.
  intros HQ. unfold failures. induction 1 as [|ev evs Hev _ IH]; [done|].
  by rewrite filter_cons_bool, (HQ _ Hev).
Qed.

Lemma queried_quiet evs : Forall offSocket evs → queried evs = [].
Proof. induction 1 as [|ev evs Hev _ IH]; [done|]. by destruct ev. Qed.

Lemma queryDNS_failures domain server st :
  ∃ evs, trace (queryDNS domain server st).2 = trace st ++ evs
         ∧ failures evs = 0%nat.
Proof.
  destruct (queryDNS_cases domain server st) as (evs & Ht & Hcases).
  exists evs. split; [exact Ht|].
  destruct Hcases as [[-> _]|[[-> _]|(name & query & _ & _ &
                       [[-> _]|[[-> _]|(d & -> & _)]])]]; reflexivity.
Qed.

(** The block under [if err != nil] prints the error and one more line. *)
Lemma fallback_trace tried err st :
  ∃ o w,
    (fallback tried err st).2
    = mkState w (globals st) (trace st ++ [EvPrint (OutError err); EvPrint o])
    ∧ isErrorLine (EvPrint o) = false.
Proof.
  unfold fallback. rewrite bind_Print. set (st0 := mkState _ _ _).
  unfold pickNewRootServer.
  destruct (range_rootServers_spec st0) as (entries & w & Hr & _).
  unfold bind at 1. unfold bind at 1. rewrite Hr.
  destruct (firstUntried tried entries) as [name ip]. cbn [ret].
  destruct (String.eqb ip ""); rewrite bind_Print; eexists _, w;
    cbn [snd ret trace world globals]; subst st0; cbn [trace globals];
    (split; [by rewrite <-app_assoc|reflexivity]).
Qed.

(** An iteration reports at most one failed query, and none when the
    query succeeds. *)
Lemma iteration_failures domain v st :
  ∃ evs,
    trace (iteration domain v st).2 = trace st ++ evs
    ∧ match (queryDNS domain (serverIP v) (sending v st)).1 with
      | Ok (inr _) => failures evs = 1%nat
      | _ => failures evs = 0%nat
      end.
Proof.
  rewrite iteration_eq.
  destruct (queryDNS_failures domain (serverIP v) (sending v st))
    as (evq & Hq & Hfq).
  set (tried := <[serverIP v := true]> (triedServers v)).
  destruct (queryDNS domain (serverIP v) (sending v st)) as [[[res|err]|p] st1];
    cbn [fst snd] in *.
  - destruct (respondEvent_respond domain tried res st1) as [_ (evs & Ht & Hev)].
    exists (EvPrint (OutSending (serverName v) (serverIP v)) :: evq ++ evs).
    split.
    + rewrite Ht, Hq. unfold sending. simpl. by rewrite <-!app_assoc.
    + rewrite failures_cons, failures_app, Hfq.
      rewrite (failures_quiet respondEvent evs); [done| |done].
      by intros [| | | | |[]].
  - destruct (fallback_trace tried err st1) as (o & w & Ht & Ho).
    exists (EvPrint (OutSending (serverName v) (serverIP v))
              :: evq ++ [EvPrint (OutError err); EvPrint o]).
    split.
    + rewrite Ht. cbn [trace]. rewrite Hq. unfold sending. simpl.
      by rewrite <-!app_assoc.
    + rewrite failures_cons, failures_app, Hfq, !failures_cons, Ho.
      reflexivity.
  - exists (EvPrint (OutSending (serverName v) (serverIP v)) :: evq). split.
    + rewrite Hq. unfold sending. simpl. by rewrite <-!app_assoc.
    + by rewrite failures_cons, Hfq.
Qed.

(** Each failed query uses up an untried root server. *)
Lemma loop_failures fuel domain v st :
  globals st = rootServers →
  ∃ evs,
    trace (loop fuel domain v st).2 = trace st ++ evs
    ∧ (failures evs
       ≤ untriedRoots (<[serverIP v := true]> (triedServers v)) + 1)%nat.
Proof.
  revert v st. induction fuel as [|fuel IH]; intros v st Hg.
  { exists []. split; [by rewrite app_nil_r|]. cbn. lia. }
  destruct (iteration_failures domain v st) as (evs & Ht & Hf).
  pose proof (globals_iteration domain v st) as Hg1.
  pose proof (λ v', tried_set_step domain v v' st) as Htr.
  destruct (queryDNS domain (serverIP v) (sending v st)).1
    as [[res|e]|p] eqn:Hq.
  - (* the query succeeded *)
    cbn [loop]. unfold bind.
    destruct (iteration domain v st) as [[[x|v']|p] st1];
      cbn [fst snd] in *; [exists evs; split; [done|lia]| |exists evs; split; [done|lia]].
    destruct (IH v' st1) as (evs' & Ht' & Hf'); [congruence|].
    exists (evs ++ evs'). split; [by rewrite Ht', Ht, app_assoc|].
    rewrite failures_app, Hf. rewrite (Htr v' eq_refl) in Hf'.
    unfold untriedRoots in *.
    pose proof (untried_mark_le (<[serverIP v := true]> (triedServers v))
                  (serverIP v') rootIPs).
    lia.
  - (* the query failed *)
    destruct (iteration_fail domain v st e Hq Hg)
      as (st1 & _ & _ & [[_ Hit]|(name & ip & Hit & Hl & Hu)]).
    + rewrite (loop_exit _ _ _ _ _ _ Hit). rewrite Hit in Ht. cbn [snd] in Ht.
      exists evs. split; [done|lia].
    + rewrite (loop_continue _ _ _ _ _ _ Hit). rewrite Hit in Ht, Hg1.
      cbn [snd] in Ht, Hg1.
      destruct (IH (mkLoopVars (<[serverIP v := true]> (triedServers v)) name ip) st1)
        as (evs' & Ht' & Hf'); [congruence|].
      exists (evs ++ evs'). split; [by rewrite Ht', Ht, app_assoc|].
      rewrite failures_app, Hf. cbn [serverIP triedServers] in Hf'.
      unfold untriedRoots in *.
      pose proof (untried_mark_lt _ _ rootIPs (rootIPs_lookup _ _ Hl) Hu).
      lia.
  - (* the query panicked *)
    cbn [loop]. unfold bind.
    destruct (iteration domain v st) as [[[x|v']|p'] st1];
      cbn [fst snd] in *; [exists evs; split; [done|lia]| |exists evs; split; [done|lia]].
    destruct (IH v' st1) as (evs' & Ht' & Hf'); [congruence|].
    exists (evs ++ evs'). split; [by rewrite Ht', Ht, app_assoc|].
    rewrite failures_app, Hf. rewrite (Htr v' eq_refl) in Hf'.
    unfold untriedRoots in *.
    pose proof (untried_mark_le (<[serverIP v := true]> (triedServers v))
                  (serverIP v') rootIPs).
    lia.
Qed.

End Failures.

(** ** The servers contacted *)

Section Contacted.
Context {E : Env}.
Implicit Types (domain : string) (st : State E) (v : LoopVars).

(** Every iteration dials the current server, once. *)
Lemma iteration_queried domain v st :
  queried (trace (iteration domain v st).2)
  = queried (trace st) ++ [serverIP v +:+ ":53"].
Proof.
  rewrite iteration_eq.
  pose proof (queryDNS_queried domain (serverIP v) (sending v st)) as Hq.
  set (tried := <[serverIP v := true]> (triedServers v)).
  assert (queried (trace (sending v st)) = queried (trace st)) as Hs.
  { unfold sending. simpl. apply queried_snoc_print. }
  rewrite Hs in Hq.
  destruct (queryDNS domain (serverIP v) (sending v st)) as [[[res|err]|p] st1];
    cbn [snd] in Hq; [| |done].
  - destruct (offSocket_respond domain tried res st1) as [_ (evs & -> & Hoff)].
    by rewrite queried_app, (queried_quiet _ Hoff), app_nil_r.
  - destruct (offSocket_fallback tried err st1) as [_ (evs & -> & Hoff)].
    by rewrite queried_app, (queried_quiet _ Hoff), app_nil_r.
Qed.

Lemma iterations_contacted n domain v st v' st' :
  iterations n domain v st = (Ok (inr v'), st') →
  ∃ ips,
    length ips = n
    ∧ queried (trace st') = queried (trace st) ++ ((λ ip, ip +:+ ":53") <$> ips)
    ∧ ∀ ip, untried (triedServers v') ip = false
            ↔ untried (triedServers v) ip = false ∨ ip ∈ ips.
Proof.
  revert v st. induction n as [|n IH]; intros v st Hrun.
  - injection Hrun as <- <-. exists []. split_and!; [done|by rewrite app_nil_r|].
    intros ip. rewrite elem_of_nil. tauto.
  - cbn [iterations] in Hrun. unfold bind in Hrun.
    pose proof (iteration_queried domain v st) as Hq.
    pose proof (λ v1, tried_set_step domain v v1 st) as Htr.
    destruct (iteration domain v st) as [[[e|v1]|p] st1]; [done| |done].
    cbn [fst snd] in *.
    destruct (IH v1 st1 Hrun) as (ips & Hlen & Hqs & Hiff).
    exists (serverIP v :: ips). split_and!.
    + by rewrite <-Hlen.
    + rewrite Hqs, Hq. simpl. by rewrite <-app_assoc.
    + intros ip. rewrite Hiff, (Htr v1 eq_refl), untried_insert, elem_of_cons.
      destruct (decide (serverIP v = ip)) as [->|Hne]; [tauto|].
      split; [tauto|]. intros [H|[H|H]]; [tauto|congruence|tauto].
Qed.

End Contacted.

(** ** Panics *)

Section Panics.
Context {E : Env}.
Implicit Types (domain : string) (st : State E) (v : LoopVars).

Lemma MustNewName_fits domain :
  (String.length domain ≤ 255)%nat → MustNewName domain = Some (mkName domain).
Proof. intros H. unfold MustNewName. by rewrite decide_True. Qed.

Lemma MustNewName_refuses domain :
  (255 < String.length domain)%nat → MustNewName domain = None.
Proof. intros H. unfold MustNewName. rewrite decide_False; [done|lia]. Qed.

Lemma resolveNS_Ok servers st : ∃ r, (resolveNS servers st).1 = Ok r.
Proof.
  destruct (resolveNS_spec servers st) as (evs & _ & Hcases).
  destruct Hcases as
    [(pre & c & post & ip0 & ips & failed & _ & Hr & _)|[Hr _]]; eauto.
Qed.

(** A response of the decoder is handled without panic. *)
Lemma respond_Ok domain tried res st :
  wellTypedMessage res = true → ∃ r, (respond domain tried res st).1 = Ok r.
Proof.
  intros Hwt. unfold wellTypedMessage in Hwt.
  apply andb_prop in Hwt as [Hwt Had]. apply andb_prop in Hwt as [Han Hau].
  unfold respond. destruct (Authoritative (MHeader res)).
  - rewrite bind_Print.
    destruct (printAnswers_emits domain (Answers res)
                (mkState (world st) (globals st)
                   (trace st ++ [EvPrint OutAuthoritative])) Han)
      as (lines & Hp & _).
    rewrite (bind_Ok _ _ _ _ _ Hp). by eexists.
  - destruct (getNextServers_spec res st Hau Had) as (dom & ips & _ & Hn).
    rewrite (bind_Ok _ _ _ _ _ Hn).
    destruct (length (nsTargets (Authorities res)) =? 0)%nat.
    + rewrite bind_Print. by eexists.
    + unfold bind.
      destruct (resolveNS_Ok (nsTargets (Authorities res))
                  (mkState (world st) (globals st)
                     (trace st ++ EvPrint (OutReferral
                        (if String.eqb dom "" then "(unknown domain)" else dom))
                        :: (EvPrint <$> serverLines ips
                                          (nsTargets (Authorities res))))))
        as [[name ip] Hr].
      destruct (resolveNS _ _) as [r st2]. cbn [fst] in Hr. subst r.
      destruct (String.eqb ip ""); eexists; reflexivity.
Qed.

Lemma fallback_Ok tried err st : ∃ r, (fallback tried err st).1 = Ok r.
Proof.
  unfold fallback. rewrite bind_Print. set (st0 := mkState _ _ _).
  unfold pickNewRootServer.
  destruct (range_rootServers_spec st0) as (entries & w & Hr & _).
  unfold bind at 1. unfold bind at 1. rewrite Hr.
  destruct (firstUntried tried entries) as [name ip]. cbn [ret].
  destruct (String.eqb ip ""); rewrite bind_Print; by eexists.
Qed.

(** The only panic of an iteration is that of [MustNewName]. *)
Lemma iteration_panic domain v st p :
  (iteration domain v st).1 = Panic p →
  p = PanicMustNewName ∧ MustNewName domain = None.
Proof.
  rewrite iteration_eq.
  destruct (queryDNS_cases domain (serverIP v) (sending v st))
    as (evs & _ & Hcases).
  destruct (queryDNS domain (serverIP v) (sending v st))
    as [[[res|err]|p'] st1] eqn:Hq; cbn [fst] in *.
  - destruct (respond_Ok domain (<[serverIP v := true]> (triedServers v))
                res st1 (queryDNS_wellTyped _ _ _ _ _ Hq)) as [r ->].
    discriminate.
  - destruct (fallback_Ok (<[serverIP v := true]> (triedServers v)) err st1)
      as [r ->].
    discriminate.
  - intros [= ->].
    destruct Hcases as [[_ Hr]|[[_ [[Hn Hr]|(name & _ & _ & Hr)]]|
      (name & query & _ & _ & [[_ Hr]|[[_ Hr]|(d & _ & _ & Hr)]])]];
      try discriminate Hr.
    injection Hr as ->. by split.
Qed.

Lemma loop_panic_cause fuel domain v st p :
  (loop fuel domain v st).1 = Panic p →
  p = PanicMustNewName ∧ MustNewName domain = None.
Proof.
  revert v st. induction fuel as [|fuel IH]; intros v st; [done|].
  cbn [loop]. unfold bind.
  pose proof (iteration_panic domain v st) as Hit.
  destruct (iteration domain v st) as [[[e|v']|p'] st1]; cbn [fst] in *.
  - done.
  - apply IH.
  - intros [= ->]. by apply Hit.
Qed.

End Panics.

(** ** What a referral is read as *)

Section ReferralOutput.
Context {E : Env}.
Implicit Types (domain : string) (st : State E) (v : LoopVars).

Lemma scanAuthorities_owner auths servers dom :
  forallb wellTyped auths = true →
  scanAuthorities auths servers dom
  = Ok (servers ++ nsTargets auths, lastNSOwner auths dom).
Proof.
  revert servers dom. induction auths as [|r rest IH]; intros servers dom Hwt.
  - simpl. by rewrite app_nil_r.
  - simpl in Hwt. apply andb_prop in Hwt as [Hr Hrest].
    unfold wellTyped in Hr.
    cbn [scanAuthorities nsTargets omap list_omap lastNSOwner foldl].
    unfold isNSRecord.
    destruct (RType (RHeader r) =? TypeNS)%N eqn:HNS.
    + assert ((RType (RHeader r) =? TypeA)%N = false) as HA.
      { apply N.eqb_eq in HNS. by rewrite HNS. }
      rewrite HA in Hr.
      destruct (Body r) as [|n| |]; try discriminate Hr. simpl.
      rewrite (IH _ _ Hrest), <-app_assoc. unfold lastNSOwner, isNSRecord.
      reflexivity.
    + rewrite (IH _ _ Hrest). reflexivity.
Qed.

Lemma scanAdditionals_fold adds (ips : gmap string string) :
  forallb wellTyped adds = true →
  ∃ ips',
    scanAdditionals adds ips = Ok ips'
    ∧ ∀ name,
        ips' !! name
        = foldl (λ g r, match Body r with
                        | AResource a =>
                          if (RType (RHeader r) =? TypeA)%N
                             && String.eqb (Name_String (RName (RHeader r))) name
                          then Some (IPv4_String a) else g
                        | _ => g
                        end) (ips !! name) adds.
Proof.
  revert ips. induction adds as [|r rest IH]; intros ips Hwt.
  - by exists ips.
  - simpl in Hwt. apply andb_prop in Hwt as [Hr Hrest].
    unfold wellTyped in Hr. cbn [scanAdditionals foldl].
    destruct (RType (RHeader r) =? TypeA)%N eqn:HA.
    + destruct (Body r) as [a| | |]; try discriminate Hr. simpl.
      destruct (IH (<[Name_String (RName (RHeader r)) := IPv4_String a]> ips) Hrest)
        as (ips' & -> & Hl).
      exists ips'. split; [done|]. intros name. rewrite Hl, lookup_insert.
      destruct (decide (Name_String (RName (RHeader r)) = name)) as [->|Hne].
      * by rewrite String.eqb_refl.
      * apply String.eqb_neq in Hne. by rewrite Hne.
    + destruct (IH ips Hrest) as (ips' & -> & Hl).
      exists ips'. split; [done|]. intros name. rewrite Hl.
      by destruct (Body r).
Qed.

Lemma scanAdditionals_glue adds :
  forallb wellTyped adds = true →
  ∃ ips, scanAdditionals adds ∅ = Ok ips
         ∧ ∀ name, ips !! name = lastGlue adds name.
Proof.
  intros Hwt. destruct (scanAdditionals_fold adds ∅ Hwt) as (ips & Hs & Hl).
  exists ips. split; [done|]. intros name. by rewrite Hl, lookup_empty.
Qed.

(** The lines of a referral: the owner of the last NS record, and for
    each server the address of the last A record that bears its name. *)
Lemma getNextServers_lines res st :
  forallb wellTyped (Authorities res) = true →
  forallb wellTyped (Additionals res) = true →
  getNextServers res st
  = (Ok (nsTargets (Authorities res)),
     mkState (world st) (globals st)
       (trace st ++ (EvPrint <$> referralLines res))).
Proof.
  intros Hau Had.
  destruct (scanAdditionals_glue _ Had) as (ips & Hi & Hl).
  unfold getNextServers, liftR, bind at 1.
  rewrite (scanAuthorities_owner _ [] "" Hau). cbn [app].
  unfold bind at 1. rewrite Hi, bind_Print. unfold bind.
  rewrite printServers_spec. cbn [ret trace world globals].
  rewrite <-app_assoc. unfold referralLines.
  assert (serverLines ips (nsTargets (Authorities res))
          = (λ ns, OutNameServer ns (lastGlue (Additionals res) ns))
              <$> nsTargets (Authorities res)) as ->.
  { unfold serverLines. induction (nsTargets (Authorities res)) as [|ns l IH];
      [done|]. cbn [fmap list_fmap]. rewrite Hl. f_equal. exact IH. }
  reflexivity.
Qed.

End ReferralOutput.

(** ** More on the pick, the referral step and the entry *)

Section Steps.
Context {E : Env}.
Implicit Types (domain : string) (st : State E) (v : LoopVars).

Lemma globals_iterations n domain v st :
  globals (iterations n domain v st).2 = globals st.
Proof.
  revert v st. induction n as [|n IH]; intros v st; [done|].
  cbn [iterations]. unfold bind.
  pose proof (globals_iteration domain v st) as Hg.
  destruct (iteration domain v st) as [[[e|v']|p] st1]; cbn [snd] in *;
    [done| |done].
  by rewrite IH.
Qed.

(** The pick over any table: an entry whose address is untried, or the
    pair of empty strings when every entry is tried. *)
Lemma pickNewRootServer_cases tried st :
  ∃ w,
    (pickNewRootServer tried st).2 = mkState w (globals st) (trace st)
    ∧ (((∀ name ip, globals st !! name = Some ip → untried tried ip = false)
        ∧ (pickNewRootServer tried st).1 = Ok ("", ""))
       ∨ (∃ name ip,
            (pickNewRootServer tried st).1 = Ok (name, ip)
            ∧ globals st !! name = Some ip ∧ untried tried ip = true)).
Proof.
  destruct (range_rootServers_spec st) as (entries & w & Hr & Hp).
  exists w. unfold pickNewRootServer, bind. rewrite Hr. cbn [ret fst snd].
  split; [reflexivity|].
  destruct (filter (λ x, untried tried x) entries.*2) as [|x xs] eqn:Hf.
  - left. split; [|by rewrite firstUntried_none].
    intros name ip Hl. destruct (untried tried ip) eqn:Hu; [|done].
    assert (ip ∈ filter (λ x, untried tried x) entries.*2) as Hin.
    { apply list_elem_of_filter. split; [by rewrite Hu|].
      apply list_elem_of_fmap. exists (name, ip). split; [done|].
      rewrite Hp. by apply elem_of_map_to_list. }
    rewrite Hf in Hin. by apply elem_of_nil in Hin.
  - right. destruct (firstUntried_some tried entries) as (n & i & -> & Hin & Hu).
    { by rewrite Hf. }
    exists n, i. split_and!; [done| |done].
    apply elem_of_map_to_list. by rewrite <-Hp.
Qed.

(** After a referral the loop goes on with what [resolveNS] selected, or
    returns when it selected nothing. *)
Lemma respond_referral domain tried res st :
  forallb wellTyped (Authorities res) = true →
  forallb wellTyped (Additionals res) = true →
  Authoritative (MHeader res) = false →
  nsTargets (Authorities res) ≠ [] →
  let st1 := (getNextServers res st).2 in
  let run := resolveNS (nsTargets (Authorities res)) st1 in
  ∃ name ip,
    run.1 = Ok (name, ip)
    ∧ respond domain tried res st
      = if String.eqb ip ""
        then (Ok (inl ExitResolveFailed),
              mkState (world run.2) (globals run.2)
                (trace run.2 ++ [EvPrint OutFailedResolve]))
        else (Ok (inr (mkLoopVars tried name ip)), run.2).
Proof.
  intros Hau Had Haa Hne st1 run.
  pose proof (getNextServers_lines res st Hau Had) as Hn.
  destruct (resolveNS_Ok (nsTargets (Authorities res)) st1) as [[name ip] Hr].
  exists name, ip. split; [exact Hr|].
  unfold respond. rewrite Haa, (bind_Ok _ _ _ _ _ Hn).
  destruct (nsTargets (Authorities res)) as [|ns l] eqn:Hl; [done|].
  cbn [length Nat.eqb]. unfold bind at 1.
  subst run st1. rewrite Hn in *. cbn [snd] in *.
  destruct (resolveNS (ns :: l) _) as [r st2]. cbn [fst snd] in *. subst r.
  by destruct (String.eqb ip "").
Qed.

(** [main] prints the whole table before it starts. *)
Lemma main_prints_table fuel st :
  globals st = rootServers →
  ∃ name ip st0 entries,
    rootServers !! name = Some ip
    ∧ entries ≡ₚ map_to_list rootServers
    ∧ globals st0 = rootServers
    ∧ trace st0
      = trace st
        ++ (EvPrint <$> (OutLoadingRootList
                           :: ((λ e, OutRootEntry e.1 e.2) <$> entries)
                           ++ [OutStarting "example.com."]))
    ∧ main fuel st = recursiveLookup fuel "example.com." name ip st0.
Proof.
  intros Hg. unfold main. rewrite bind_Print.
  set (st1 := mkState _ _ _).
  destruct (range_rootServers_spec st1) as (entries & w1 & Hr1 & Hp1).
  rewrite (bind_Ok _ _ _ _ _ Hr1).
  unfold bind at 1. rewrite printRootEntries_spec.
  set (st2 := mkState _ _ _).
  destruct (range_rootServers_spec st2) as (entries2 & w2 & Hr2 & Hp).
  rewrite (bind_Ok _ _ _ _ _ Hr2).
  set (st3 := mkState _ _ _).
  assert (globals st3 = rootServers) as Hg3 by exact Hg.
  assert (length entries2.*1 = 13%nat) as Hlen.
  { rewrite length_fmap, Hp. change (globals st2) with (globals st). rewrite Hg.
    rewrite <-length_rootIPs, rootIPs_eq. by rewrite length_fmap. }
  assert (length entries2.*1 ≠ 0%nat) as Hne by (rewrite Hlen; discriminate).
  rewrite (bind_Ok _ _ _ _ _ (Intn_spec _ st3 Hne)).
  rewrite Hlen. set (r := (rand_source E (world st3)).1).
  destruct (entries2.*1 !! (r mod 13)%nat) as [name|] eqn:Hname.
  2: { apply lookup_ge_None in Hname. rewrite Hlen in Hname.
       pose proof (Nat.mod_upper_bound r 13). lia. }
  rewrite bind_Print. unfold bind, get_rootServers.
  cbn [globals world trace fst snd]. rewrite !Hg3.
  apply list_elem_of_lookup_2, list_elem_of_fmap in Hname as [[n ip] [-> Hin]].
  assert (rootServers !! n = Some ip) as Hl.
  { apply elem_of_map_to_list. rewrite Hp in Hin.
    change (globals st2) with (globals st) in Hin. by rewrite Hg in Hin. }
  cbn [fst]. rewrite Hl. cbn [default].
  eexists n, ip, _, entries. split_and!; [exact Hl| | | |reflexivity].
  - rewrite Hp1. change (globals st1) with (globals st). by rewrite Hg.
  - reflexivity.
  - subst st3 st2 st1. simpl. rewrite fmap_app, <-!app_assoc. reflexivity.
Qed.

End Steps.

(** ** The socket through the whole program *)

Section MainSockets.
Context {E : Env}.

Lemma balancedRun_bind {A B} (m : M E A) (k : A → M E B) :
  balancedRun m → (∀ a, balancedRun (k a)) → balancedRun (bind m k).
Proof.
  intros Hm Hk st. unfold bind.
  destruct (Hm st) as (evs & Ht & Hb).
  destruct (m st) as [[a|p] st1]; cbn [snd] in Ht.
  - destruct (Hk a st1) as (evs' & Ht' & Hb').
    exists (evs ++ evs'). split; [by rewrite Ht', Ht, app_assoc|].
    by apply socketsBalanced_app.
  - by exists evs.
Qed.

Lemma balancedRun_quiet {A} (m : M E A) : extends offSocket m → balancedRun m.
Proof.
  intros Hm st. destruct (Hm st) as [_ (evs & Ht & Hoff)].
  exists evs. split; [exact Ht|by apply socketsBalanced_offSocket].
Qed.

Lemma offSocket_printRootEntries entries :
  extends (E:=E) offSocket (printRootEntries entries).
Proof. induction entries as [|[name ip] rest IH]; simpl; frame. Qed.

Lemma main_balanced fuel : balancedRun (main (E:=E) fuel).
Proof.
  unfold main.
  apply balancedRun_bind; [apply balancedRun_quiet; frame|intros _].
  apply balancedRun_bind;
    [apply balancedRun_quiet; unfold range_rootServers; frame|intros entries].
  apply balancedRun_bind;
    [apply balancedRun_quiet, offSocket_printRootEntries|intros _].
  apply balancedRun_bind;
    [apply balancedRun_quiet; unfold range_rootServers; frame|intros entries2].
  apply balancedRun_bind; [apply balancedRun_quiet; unfold Intn; frame|intros i].
  destruct (entries2.*1 !! i) as [rootName|]; [|apply balancedRun_quiet; frame].
  apply balancedRun_bind; [apply balancedRun_quiet; frame|intros _].
  apply balancedRun_bind; [apply balancedRun_quiet; frame|intros table].
  intros st. apply loop_balanced.
Qed.

End MainSockets.

(** ** What host resolution depends on *)

Section ResolverFrame.
Context {E : Env}.
Implicit Types (st : State E).

(** [resolveNS] reads the world only: from two states with the same
    world it makes the same lookups, prints the same line and returns
    the same result. *)
Lemma resolveNS_world servers st st' :
  world st' = world st →
  ∃ evs,
    trace (resolveNS servers st).2 = trace st ++ evs
    ∧ trace (resolveNS servers st').2 = trace st' ++ evs
    ∧ (resolveNS servers st').1 = (resolveNS servers st).1
    ∧ world (resolveNS servers st').2 = world (resolveNS servers st).2.
Proof.
  revert st st'. induction servers as [|ns rest IH]; intros st st' Hw.
  - exists []. by rewrite !app_nil_r.
  - rewrite !resolveNS_cons, Hw.
    destruct (net_LookupHost E (world st) (TrimSuffix ns ".")) as [[ip ok] w].
    cbn [fst snd]. destruct (ok && _).
    + eexists [_; _]. cbn [fst snd trace world]. by rewrite <-!app_assoc.
    + set (st1 := mkState w (globals st) _). set (st1' := mkState w (globals st') _).
      destruct (IH st1 st1' eq_refl) as (evs & Ht & Ht' & Hr & Hw').
      exists (EvLookupHost (TrimSuffix ns ".") ip ok :: evs).
      rewrite Ht, Ht'. unfold st1, st1'. cbn [trace].
      by rewrite <-!app_assoc.
Qed.

End ResolverFrame.

(** * The claims *)

(** C4 (fallback exhaustion).  The Transport Client fails for every root
    server.  Then a lookup started at a root server of the table, and so
    the lookup [main] starts, returns after as many iterations as the
    table has entries, through the exit taken when no root server is left
    (the [Exhausted] state); it has called [queryDNS] once per entry, and
    the addresses it dialled are the addresses of the table, each exactly
    once. *)
Theorem fallback_exhaustion (E : Env) (st : State E) :
  globals st = rootServers →
  (∀ domain firstServerName firstServerIP,
     rootServers !! firstServerName = Some firstServerIP →
     rootQueriesFail E domain →
     exhaustsRoots st
       (recursiveLookup (size rootServers) domain firstServerName
          firstServerIP st))
  ∧ (rootQueriesFail E "example.com." →
     exhaustsRoots st (main (size rootServers) st)).
Proof.
  intros Hg.
  assert (∀ domain name ip (st0 : State E),
            globals st0 = rootServers →
            rootServers !! name = Some ip →
            rootQueriesFail E domain →
            exhaustsRoots st0 (recursiveLookup (size rootServers) domain name ip st0))
    as Hlookup.
  { intros domain name ip st0 Hg0 Hfirst Hfail.
    rewrite size_rootServers.
    destruct (exhaust_chain domain Hfail 12 (mkLoopVars ∅ name ip) st0)
      as (st' & ips & Hloop & Ht & Hips);
      [exact Hg0|by eapply rootIPs_lookup|reflexivity| |].
    { cbn [triedServers serverIP]. apply rootIPs_lookup in Hfirst.
      pose proof (untried_mark ∅ ip rootIPs NoDup_rootIPs Hfirst eq_refl) as Hp.
      apply Permutation_length in Hp. cbn [length] in Hp.
      rewrite rootIPs_all_untried, length_rootIPs in Hp. lia. }
    cbn [triedServers] in Hips. rewrite rootIPs_all_untried in Hips.
    exists ips. unfold recursiveLookup. rewrite Hloop. cbn [fst snd].
    split_and!; [reflexivity|discriminate|exact Ht| | |exact Hips].
    - by rewrite Hips, length_rootIPs.
    - rewrite Hips. apply NoDup_rootIPs. }
  split.
  - intros domain name ip. by apply Hlookup.
  - intros Hfail.
    destruct (main_starts_at_root (size rootServers) st Hg)
      as (name & ip & st0 & lines & Hfirst & Hg0 & Ht0 & ->).
    destruct (Hlookup "example.com." name ip st0 Hg0 Hfirst Hfail)
      as (ips & Hr & Hex & Hq & Hrest).
    exists ips. split; [exact Hr|]. split; [exact Hex|]. split; [|exact Hrest].
    by rewrite Hq, Ht0, queried_prints.
Qed.

(** C4 at the scenario in which no server can be reached. *)
Lemma fallback_exhaustion_witness :
  exhaustsRoots (scriptStart unreachableScript)
    (recursiveLookup (size rootServers) "example.com."
       "a.root-servers.net" "198.41.0.4" (scriptStart unreachableScript))
  ∧ exhaustsRoots (scriptStart unreachableScript)
      (main (size rootServers) (scriptStart unreachableScript)).
Proof.
  assert (rootQueriesFail (scriptEnv unreachableScript) "example.com.") as Hfail.
  { intros st' ip _. exists ErrDial. vm_compute. reflexivity. }
  destruct (fallback_exhaustion (scriptEnv unreachableScript)
              (scriptStart unreachableScript) eq_refl) as [Hlookup Hmain].
  split.
  - apply Hlookup; [vm_compute; reflexivity|exact Hfail].
  - apply Hmain, Hfail.
Defined.

(** C5 (authoritative stop).  The query of an iteration returns a
    response whose authoritative flag is set, whatever its authority and
    additional sections hold.  Then the lookup returns in that iteration
    through the authoritative exit; beyond what [queryDNS] left, the
    final state only holds printed lines (no further query, lookup or
    fallback), and these are the header line followed by one line per A
    or AAAA record of the answer section, in order, each giving the
    record's address as an address of the queried name. *)
Theorem authoritative_stop (E : Env) (domain : string) (v : LoopVars)
    (st st1 : State E) (res : Message) :
  queryDNS domain (serverIP v) (sending v st) = (Ok (inl res), st1) →
  Authoritative (MHeader res) = true →
  ∃ lines,
    Forall2 (reportsAddress domain)
      (filter (λ r, isAddressRecord r) (Answers res)) lines
    ∧ ∀ fuel,
        loop (S fuel) domain v st
        = (Ok (Some ExitAuthoritative),
           mkState (world st1) (globals st1)
             (trace st1 ++ EvPrint OutAuthoritative :: (EvPrint <$> lines))).
Proof.
  intros Hq Haa.
  pose proof (queryDNS_wellTyped _ _ _ _ _ Hq) as Hwt.
  unfold wellTypedMessage in Hwt.
  apply andb_prop in Hwt as [Hwt _]. apply andb_prop in Hwt as [Hwt _].
  destruct (printAnswers_emits domain (Answers res)
              (mkState (world st1) (globals st1)
                 (trace st1 ++ [EvPrint OutAuthoritative])) Hwt)
    as (lines & Hp & Hall).
  exists lines. split; [done|]. intros fuel.
  apply loop_exit. rewrite (iteration_response _ _ _ _ _ Hq).
  unfold respond. rewrite Haa, bind_Print, (bind_Ok _ _ _ _ _ Hp).
  simpl. by rewrite <-app_assoc.
Qed.

(** C5 at the nameserver of the delegation scenario. *)
Lemma authoritative_stop_witness :
  let st := scriptStart delegationScript in
  let st1 := (queryDNS "example.com." (serverIP atNs1) (sending atNs1 st)).2 in
  ∃ lines,
    Forall2 (reportsAddress "example.com.")
      (filter (λ r, isAddressRecord r) (Answers exampleAnswer)) lines
    ∧ ∀ fuel,
        loop (S fuel) "example.com." atNs1 st
        = (Ok (Some ExitAuthoritative),
           mkState (world st1) (globals st1)
             (trace st1 ++ EvPrint OutAuthoritative :: (EvPrint <$> lines))).
Proof.
  apply (authoritative_stop (scriptEnv delegationScript)).
  - vm_compute. reflexivity.
  - reflexivity.
Defined.

(** C10 (other answers are ignored).  The answer loop of an
    authoritative response behaves exactly as it would on the A and AAAA
    records alone: records of other types print nothing and raise
    nothing.  When the answer section holds no A or AAAA record (or is
    empty) the lookup still returns through the authoritative exit,
    having printed the header line only. *)
Theorem other_answers_ignored (E : Env) (domain : string) :
  (∀ (answers : list Resource) (st : State E),
     printAnswers domain answers st
     = printAnswers domain (filter (λ r, isAddressRecord r) answers) st)
  ∧ (∀ (v : LoopVars) (st st1 : State E) (res : Message) (fuel : nat),
       queryDNS domain (serverIP v) (sending v st) = (Ok (inl res), st1) →
       Authoritative (MHeader res) = true →
       Forall (λ r, isAddressRecord r = false) (Answers res) →
       loop (S fuel) domain v st
       = (Ok (Some ExitAuthoritative),
          mkState (world st1) (globals st1)
            (trace st1 ++ [EvPrint OutAuthoritative]))).
Proof.
  split; [apply printAnswers_filter|].
  intros v st st1 res fuel Hq Haa Hnone.
  apply loop_exit. rewrite (iteration_response _ _ _ _ _ Hq).
  unfold respond. rewrite Haa, bind_Print.
  unfold bind at 1. rewrite printAnswers_filter.
  assert (filter (λ r, isAddressRecord r) (Answers res) = []) as ->.
  { induction Hnone as [|r rest Hr _ IH]; [done|].
    by rewrite filter_cons_bool, Hr. }
  done.
Qed.

(** C10 at an authoritative response whose only answer is a CNAME. *)
Lemma other_answers_ignored_witness :
  let st := scriptStart oddScript in
  let st1 := (queryDNS "example.com." (serverIP atNs1) (sending atNs1 st)).2 in
  loop 1 "example.com." atNs1 st
  = (Ok (Some ExitAuthoritative),
     mkState (world st1) (globals st1) (trace st1 ++ [EvPrint OutAuthoritative])).
Proof.
  apply (proj2 (other_answers_ignored (scriptEnv oddScript) "example.com.")
           atNs1 _ _ cnameAnswer 0).
  - vm_compute. reflexivity.
  - reflexivity.
  - repeat constructor.
Defined.

(** C6 (empty referral).  The query of an iteration returns a response
    that is not authoritative and whose authority section holds no NS
    record.  Then [getNextServers] returns the empty list, and the lookup
    returns in that iteration through the exit for an empty referral (an
    [Exhausted] state): beyond what [queryDNS] left, the final state only
    holds two printed lines, so no root server was picked and no further
    query or lookup made. *)
Theorem empty_referral_stops (E : Env) (domain : string) (v : LoopVars)
    (st st1 : State E) (res : Message) :
  queryDNS domain (serverIP v) (sending v st) = (Ok (inl res), st1) →
  Authoritative (MHeader res) = false →
  Forall (λ r, isNSRecord r = false) (Authorities res) →
  (getNextServers res st1).1 = Ok []
  ∧ Exhausted ExitNoNameServers
  ∧ ∀ fuel,
      loop (S fuel) domain v st
      = (Ok (Some ExitNoNameServers),
         mkState (world st1) (globals st1)
           (trace st1 ++ [EvPrint (OutReferral "(unknown domain)");
                          EvPrint OutNoMoreNameServers])).
Proof.
  intros Hq Haa Hns.
  pose proof (queryDNS_wellTyped _ _ _ _ _ Hq) as Hwt.
  unfold wellTypedMessage in Hwt.
  apply andb_prop in Hwt as [Hwt Had]. apply andb_prop in Hwt as [_ Hau].
  assert (∀ st2 : State E, getNextServers res st2
          = (Ok [], mkState (world st2) (globals st2)
                      (trace st2 ++ [EvPrint (OutReferral "(unknown domain)")])))
    as Hnext.
  { intros st2.
    destruct (getNextServers_spec res st2 Hau Had) as (dom & ips & Hs & ->).
    rewrite (scanAuthorities_noNS _ _ _ Hns) in Hs.
    injection Hs as <- <-. done. }
  split_and!.
  - by rewrite Hnext.
  - discriminate.
  - intros fuel. apply loop_exit. rewrite (iteration_response _ _ _ _ _ Hq).
    unfold respond. rewrite Haa, (bind_Ok _ _ _ _ _ (Hnext st1)). simpl.
    rewrite bind_Print. simpl. by rewrite <-app_assoc.
Qed.

(** C6 at a response that delegates to nobody. *)
Lemma empty_referral_stops_witness :
  let st := scriptStart oddScript in
  let st1 := (queryDNS "example.com." (serverIP fromRootA) (sending fromRootA st)).2 in
  (getNextServers emptyReferral st1).1 = Ok []
  ∧ Exhausted ExitNoNameServers
  ∧ ∀ fuel,
      loop (S fuel) "example.com." fromRootA st
      = (Ok (Some ExitNoNameServers),
         mkState (world st1) (globals st1)
           (trace st1 ++ [EvPrint (OutReferral "(unknown domain)");
                          EvPrint OutNoMoreNameServers])).
Proof.
  apply (empty_referral_stops (scriptEnv oddScript)).
  - vm_compute. reflexivity.
  - reflexivity.
  - repeat constructor.
Defined.

(** C7 (first resolvable candidate).  [resolveNS] looks the candidates
    up in list order.  Either some candidate is the first whose lookup
    succeeds: the lookups made are the failed ones of the candidates
    before it and then its own, nothing after, and the result is that
    candidate with the first address its lookup returned.  Or every
    candidate was looked up and failed, and the result is the pair of
    empty strings that stands for "none".  For candidates with non-empty
    names, "none" is returned exactly when every lookup made failed. *)
Theorem resolveNS_first_success (E : Env) (servers : list string) (st : State E) :
  ∃ evs,
    trace (resolveNS servers st).2 = trace st ++ evs
    ∧ ((∃ pre ns post ip0 ips failed,
          servers = pre ++ ns :: post
          ∧ (resolveNS servers st).1 = Ok (ns, ip0)
          ∧ lookups evs = failed ++ [(TrimSuffix ns ".", ip0 :: ips, true)]
          ∧ Forall2 failedLookupOf pre failed)
       ∨ ((resolveNS servers st).1 = Ok ("", "")
          ∧ Forall2 failedLookupOf servers (lookups evs)))
    ∧ ("" ∉ servers →
       (resolveNS servers st).1 = Ok ("", "")
       ↔ Forall (λ l, lookupSucceeded l = false) (lookups evs)).
Proof.
  destruct (resolveNS_spec servers st) as (evs & Ht & Hcases).
  exists evs. split_and!; [done|done|]. intros Hne.
  destruct Hcases as
    [(pre & c & post & ip0 & ips & failed & -> & Hr & Hlk & Hf)|[Hr Hf]].
  - rewrite Hr, Hlk. split.
    + intros [= -> ->]. exfalso. apply Hne.
      apply elem_of_app. right. by left.
    + intros Hall. rewrite Forall_app, Forall_singleton in Hall.
      destruct Hall as [_ Hall].
      discriminate Hall.
  - split; [|done]. intros _.
    clear -Hf. induction Hf as [|c l cs ls [_ Hl] _ IH]; by constructor.
Qed.

(** C7 at three candidates of which the first does not resolve. *)
Lemma resolveNS_first_success_witness :
  let servers := ["ns0.example.com."; "ns1.example.com."; "ns2.example.com."] in
  let st := scriptStart delegationScript in
  ("" ∉ servers)
  ∧ ∃ evs,
      trace (resolveNS servers st).2 = trace st ++ evs
      ∧ ((resolveNS servers st).1 = Ok ("", "")
         ↔ Forall (λ l, lookupSucceeded l = false) (lookups evs)).
Proof.
  intros servers st.
  assert ("" ∉ servers) as Hne.
  { intros Hin. repeat (apply elem_of_cons in Hin as [Hin|Hin]; [discriminate Hin|]).
    by apply elem_of_nil in Hin. }
  split; [exact Hne|].
  destruct (resolveNS_first_success (scriptEnv delegationScript) servers st)
    as (evs & Ht & _ & Hiff).
  exists evs. split; [exact Ht|exact (Hiff Hne)].
Defined.

(** C1 fails (glue is not preferred).  A referral names [ns1] without
    glue and [ns2] with glue.  The resolver selects the unglued [ns1],
    after a host lookup of it.  With the glued server first, the resolver
    does select it, but through a host lookup of it and with the looked-up
    address, not the glue address [10.0.0.2]. *)
Lemma glue_not_preferred :
  let st := scriptStart delegationScript in
  let candidates := nsTargets (Authorities glueReferral) in
  (getNextServers glueReferral st).1 = Ok candidates
  ∧ candidates = ["ns1.example.com."; "ns2.example.com."]
  ∧ scanAdditionals (Additionals glueReferral) ∅
    = Ok {[ "ns2.example.com." := "10.0.0.2" ]}
  ∧ (resolveNS candidates st).1 = Ok ("ns1.example.com.", "192.0.2.1")
  ∧ lookups (trace (resolveNS candidates st).2)
    = [("ns1.example.com", ["192.0.2.1"], true)]
  ∧ let candidates' := nsTargets (Authorities glueFirstReferral) in
    candidates' = ["ns2.example.com."; "ns1.example.com."]
    ∧ (resolveNS candidates' st).1 = Ok ("ns2.example.com.", "192.0.2.2")
    ∧ lookups (trace (resolveNS candidates' st).2)
      = [("ns2.example.com", ["192.0.2.2"], true)].
Proof. vm_compute. repeat split; reflexivity. Qed.

(** C1, amended (glue is only printed).  (1) From a referral,
    [getNextServers] returns the targets of the NS records in their
    order, names without addresses, and does not consult the world; the
    glue addresses appear in the lines it prints, beside each server the
    address of the last A record of the additional section that bears
    its name, and nowhere else.  (2) [resolveNS] looks the candidates up
    in list order, beginning with the first whether it has glue or not:
    the lookups made are the failed ones of the candidates before the
    one selected and then its own, or those of all candidates when none
    resolves; what it does depends on the world alone, not on what was
    printed.  (3) The driver hands the names returned by
    [getNextServers] to [resolveNS] and goes on with the server and
    address it selected, or returns when it selected none. *)
Theorem glue_only_printed (E : Env) :
  (∀ (res : Message) (st : State E),
     wellTypedMessage res = true →
     getNextServers res st
     = (Ok (nsTargets (Authorities res)),
        mkState (world st) (globals st)
          (trace st ++ (EvPrint <$> referralLines res))))
  ∧ (∀ (servers : list string) (st : State E),
       ∃ evs,
         trace (resolveNS servers st).2 = trace st ++ evs
         ∧ ((∃ pre ns post ip0 ips failed,
               servers = pre ++ ns :: post
               ∧ (resolveNS servers st).1 = Ok (ns, ip0)
               ∧ lookups evs = failed ++ [(TrimSuffix ns ".", ip0 :: ips, true)]
               ∧ Forall2 failedLookupOf pre failed)
            ∨ ((resolveNS servers st).1 = Ok ("", "")
               ∧ Forall2 failedLookupOf servers (lookups evs)))
         ∧ (∀ ns rest, servers = ns :: rest →
              ∃ a ok evs', evs = EvLookupHost (TrimSuffix ns ".") a ok :: evs')
         ∧ (∀ st' : State E,
              world st' = world st →
              (resolveNS servers st').1 = (resolveNS servers st).1
              ∧ world (resolveNS servers st').2 = world (resolveNS servers st).2
              ∧ trace (resolveNS servers st').2 = trace st' ++ evs))
  ∧ (∀ (domain : string) (v : LoopVars) (res : Message) (st st1 : State E),
       queryDNS domain (serverIP v) (sending v st) = (Ok (inl res), st1) →
       Authoritative (MHeader res) = false →
       nsTargets (Authorities res) ≠ [] →
       let printed := mkState (world st1) (globals st1)
                        (trace st1 ++ (EvPrint <$> referralLines res)) in
       let run := resolveNS (nsTargets (Authorities res)) printed in
       ∃ name ip,
         run.1 = Ok (name, ip)
         ∧ iteration domain v st
           = if String.eqb ip ""
             then (Ok (inl ExitResolveFailed),
                   mkState (world run.2) (globals run.2)
                     (trace run.2 ++ [EvPrint OutFailedResolve]))
             else (Ok (inr (mkLoopVars (<[serverIP v := true]> (triedServers v))
                              name ip)), run.2)).
Proof.
  assert (∀ (res : Message) (st : State E),
            wellTypedMessage res = true →
            getNextServers res st
            = (Ok (nsTargets (Authorities res)),
               mkState (world st) (globals st)
                 (trace st ++ (EvPrint <$> referralLines res)))) as Hnext.
  { intros res st Hwt. unfold wellTypedMessage in Hwt.
    apply andb_prop in Hwt as [Hwt Had]. apply andb_prop in Hwt as [_ Hau].
    exact (getNextServers_lines res st Hau Had). }
  split; [exact Hnext|]. split.
  - intros servers st.
    destruct (resolveNS_spec servers st) as (evs & Ht & Hcases).
    exists evs. split; [exact Ht|]. split; [exact Hcases|]. split.
    + intros ns rest ->. rewrite resolveNS_cons in Ht.
      destruct (net_LookupHost E (world st) (TrimSuffix ns ".")) as [[ip ok] w].
      cbn [fst snd] in Ht. destruct (ok && _).
      * cbn [snd trace] in Ht. rewrite <-app_assoc in Ht.
        apply app_inv_head in Ht. subst evs. by eexists _, _, _.
      * set (st1 := mkState _ _ _) in Ht.
        destruct (resolveNS_spec rest st1) as (evs1 & Ht1 & _).
        rewrite Ht1 in Ht. unfold st1 in Ht. cbn [trace] in Ht.
        rewrite <-app_assoc in Ht. apply app_inv_head in Ht. subst evs.
        by eexists _, _, _.
    + intros st' Hw.
      destruct (resolveNS_world servers st st' Hw) as (evs' & Ht1 & Ht' & Hr & Hw').
      rewrite Ht in Ht1. apply app_inv_head in Ht1. subst evs'.
      split_and!; assumption.
  - intros domain v res st st1 Hq Haa Hne printed run.
    pose proof (queryDNS_wellTyped _ _ _ _ _ Hq) as Hwt.
    pose proof (Hnext res st1 Hwt) as Hn.
    unfold wellTypedMessage in Hwt.
    apply andb_prop in Hwt as [Hwt Had]. apply andb_prop in Hwt as [_ Hau].
    rewrite (iteration_response _ _ _ _ _ Hq).
    pose proof (respond_referral domain (<[serverIP v := true]> (triedServers v))
                  res st1 Hau Had Haa Hne) as Hres.
    cbv zeta in Hres. rewrite Hn in Hres. exact Hres.
Qed.

(** C1, amended, at the referral with one glued nameserver: the glue of
    [ns2] is printed, and the loop goes on with the unglued [ns1] and the
    address its lookup returned. *)
Lemma glue_only_printed_witness :
  let st := scriptStart delegationScript in
  getNextServers glueReferral st
  = (Ok ["ns1.example.com."; "ns2.example.com."],
     mkState (E:=scriptEnv delegationScript) () rootServers
       [EvPrint (OutReferral "example.com.");
        EvPrint (OutNameServer "ns1.example.com." None);
        EvPrint (OutNameServer "ns2.example.com." (Some "10.0.0.2"))])
  ∧ ∃ st',
      iteration "example.com." fromRootA st
      = (Ok (inr (mkLoopVars (<["198.41.0.4" := true]> ∅)
                    "ns1.example.com." "192.0.2.1")), st').
Proof.
  intros st.
  destruct (glue_only_printed (scriptEnv delegationScript)) as (Hnext & _ & Hstep).
  split; [exact (Hnext glueReferral st eq_refl)|].
  set (st1 := (queryDNS "example.com." (serverIP fromRootA) (sending fromRootA st)).2).
  destruct (Hstep "example.com." fromRootA glueReferral st st1)
    as (name & ip & Hr & Hit).
  - vm_compute. reflexivity.
  - reflexivity.
  - discriminate.
  - assert (name = "ns1.example.com." ∧ ip = "192.0.2.1") as [-> ->].
    { revert Hr. vm_compute. intros [= <- <-]. by split. }
    eexists. exact Hit.
Defined.
(** C3 fails (the tried set changes on success).  The first query of
    the delegation scenario succeeds, and the iteration leaves the
    address of the queried root server in the tried set, which was
    empty before. *)
Lemma tried_set_grows_on_success :
  let st := scriptStart delegationScript in
  (queryDNS "example.com." (serverIP fromRootA) (sending fromRootA st)).1
  = Ok (inl glueReferral)
  ∧ ∃ v', (iteration "example.com." fromRootA st).1 = Ok (inr v')
          ∧ triedServers v' = {[ "198.41.0.4" := true ]}
          ∧ triedServers v' ≠ triedServers fromRootA.
Proof.
  split; [by vm_compute|].
  eexists. split_and!.
  - vm_compute. reflexivity.
  - by vm_compute.
  - intros H. apply (f_equal (λ m : gmap string bool, m !! "198.41.0.4")) in H.
    vm_compute in H. discriminate H.
Qed.

(** C3, amended (every queried server is marked).  Whenever the loop
    goes on, by a referral after a successful query or by fallback after
    a failed one, the tried set is the one before the iteration with the
    address of the server just queried added, and nothing else. *)
Theorem tried_set_marks_queried_server (E : Env) (domain : string)
    (v v' : LoopVars) (st : State E) :
  (iteration domain v st).1 = Ok (inr v') →
  triedServers v' = <[serverIP v := true]> (triedServers v).
Proof.
  rewrite iteration_eq.
  destruct (queryDNS domain (serverIP v) (sending v st)) as [[[res|err]|p] st1];
    cbn [fst].
  - apply respond_tried.
  - apply fallback_tried.
  - discriminate.
Qed.

(** C3, amended, at the first iteration of the delegation scenario. *)
Lemma tried_set_marks_queried_server_witness :
  ∃ v', (iteration "example.com." fromRootA (scriptStart delegationScript)).1
        = Ok (inr v')
        ∧ triedServers v' = <[serverIP fromRootA := true]> (triedServers fromRootA).
Proof.
  eexists. split.
  - vm_compute. reflexivity.
  - apply (tried_set_marks_queried_server (scriptEnv delegationScript)
             "example.com." fromRootA _ (scriptStart delegationScript)).
    vm_compute. reflexivity.
Defined.

(** C2 fails (a repeating referral is followed for ever).  Every server
    answers with the same referral and its nameserver resolves: whatever
    the number of iterations allowed, the lookup has not returned. *)
Lemma repeating_referral_loops_forever :
  ¬ ∃ fuel,
      (recursiveLookup fuel "example.com." "a.root-servers.net" "198.41.0.4"
         (scriptStart cycleScript)).1 ≠ Ok None.
Proof. intros [fuel Hret]. apply Hret, cycle_never_returns. Qed.

(** C2, amended (termination under a bound on referral chains).  In an
    environment where no more than [depth] consecutive iterations follow
    referrals, a lookup started at a root server of the table, and so
    the lookup [main] starts, has returned (or panicked) within
    [number of root servers × (depth + 1)] iterations. *)
Theorem lookup_terminates (E : Env) (st : State E) (domain : string)
    (depth : nat) :
  globals st = rootServers →
  (∀ v st', ¬ referralChain (E:=E) (S depth) domain v st') →
  (∀ firstServerName firstServerIP,
     rootServers !! firstServerName = Some firstServerIP →
     (recursiveLookup (size rootServers * (depth + 1))
        domain firstServerName firstServerIP st).1 ≠ Ok None)
  ∧ (domain = "example.com." →
     (main (size rootServers * (depth + 1)) st).1 ≠ Ok None).
Proof.
  intros Hg Hdepth.
  assert (∀ name ip (st0 : State E),
            globals st0 = rootServers →
            rootServers !! name = Some ip →
            (recursiveLookup (size rootServers * (depth + 1)) domain name ip st0).1
            ≠ Ok None) as Hlookup.
  { intros name ip st0 Hg0 Hfirst.
    rewrite size_rootServers.
    replace (13 * (depth + 1))%nat with (S (12 * S depth + depth)) by lia.
    apply (loop_terminates domain depth Hdepth _ 12 depth);
      [lia|lia|exact Hg0| |apply Hdepth].
    cbn [triedServers serverIP]. apply rootIPs_lookup in Hfirst.
    pose proof (untried_mark_lt ∅ ip rootIPs Hfirst eq_refl) as Hlt.
    rewrite rootIPs_all_untried, length_rootIPs in Hlt.
    unfold untriedRoots. lia. }
  split.
  - intros name ip. by apply Hlookup.
  - intros ->.
    destruct (main_starts_at_root (size rootServers * (depth + 1)) st Hg)
      as (name & ip & st0 & lines & Hfirst & Hg0 & _ & ->).
    by apply Hlookup.
Qed.

(** C2, amended, at the delegation scenario, whose chains are one
    referral deep. *)
Lemma lookup_terminates_witness :
  (recursiveLookup (size rootServers * (1 + 1))
     "example.com." "a.root-servers.net" "198.41.0.4"
     (scriptStart delegationScript)).1 ≠ Ok None
  ∧ (main (size rootServers * (1 + 1)) (scriptStart delegationScript)).1
    ≠ Ok None.
Proof.
  destruct (lookup_terminates (scriptEnv delegationScript)
              (scriptStart delegationScript) "example.com." 1
              eq_refl delegation_depth) as [Hlookup Hmain].
  split.
  - apply Hlookup. vm_compute. reflexivity.
  - apply Hmain. reflexivity.
Defined.

(** C8 (shape of the queries).  Everything a lookup of [domain] writes
    to a socket is the packing of one message: its only question asks
    for [domain] with type A and class INET, its identifier is 1 on every
    query, and its recursion-desired flag is clear.  So it is for the
    lookup of [example.com.] that [main] runs. *)
Theorem query_shape (E : Env) (fuel : nat) (st : State E) :
  (∀ domain firstServerName firstServerIP,
     writesQueriesFor domain st
       (recursiveLookup fuel domain firstServerName firstServerIP st).2)
  ∧ writesQueriesFor "example.com." st (main fuel st).2.
Proof.
  assert (∀ domain (run : M E (option Exit)),
            extends (resolverEvent E domain) run →
            writesQueriesFor domain st (run st).2) as Hshape.
  { intros domain run Hrun. destruct (Hrun st) as [_ (evs & Ht & Hall)].
    exists evs. split; [exact Ht|].
    intros address b ok Hin.
    rewrite Forall_forall in Hall.
    destruct (Hall _ Hin) as (name & Hname & Hpack).
    exists name. split_and!; try done.
    unfold MustNewName in Hname. case_decide; [|done].
    by injection Hname as <-. }
  split.
  - intros domain name ip. apply Hshape, extends_recursiveLookup.
  - apply Hshape, extends_main.
Qed.

(** C9 (the table is read-only).  The package-level table is the same
    after each operation of the resolver as before it: the whole program
    with its bootstrap selection, the fallback pick, a query, the reading
    of a referral, the resolution of its nameservers, a lookup. *)
Theorem rootServers_never_mutated (E : Env) (st : State E) :
  (∀ fuel, globals (main fuel st).2 = globals st)
  ∧ (∀ tried, globals (pickNewRootServer tried st).2 = globals st)
  ∧ (∀ domain server, globals (queryDNS domain server st).2 = globals st)
  ∧ (∀ res, globals (getNextServers res st).2 = globals st)
  ∧ (∀ servers, globals (resolveNS servers st).2 = globals st)
  ∧ (∀ fuel domain name ip,
       globals (recursiveLookup fuel domain name ip st).2 = globals st).
Proof.
  split_and!.
  - intros fuel. apply (extends_main fuel st).
  - intros tried. apply (extends_pickNewRootServer "" tried st).
  - intros domain server. apply (extends_queryDNS domain server st).
  - intros res. apply (extends_getNextServers "" res st).
  - intros servers. apply (extends_resolveNS "" servers st).
  - intros fuel domain name ip. apply (extends_recursiveLookup domain fuel name ip st).
Qed.

(** * Further properties *)

(** X1 (the pick).  Whatever the table holds and in whatever order the
    map is ranged over, [pickNewRootServer] returns an entry of the table
    whose address is not marked in the tried set; it returns the pair of
    empty strings when every entry is marked.  It prints nothing and
    leaves the table alone. *)
Theorem pickNewRootServer_untried_entry (E : Env) (tried : gmap string bool)
    (st : State E) :
  ∃ w,
    (pickNewRootServer tried st).2 = mkState w (globals st) (trace st)
    ∧ (((∀ name ip, globals st !! name = Some ip → untried tried ip = false)
        ∧ (pickNewRootServer tried st).1 = Ok ("", ""))
       ∨ (∃ name ip,
            (pickNewRootServer tried st).1 = Ok (name, ip)
            ∧ globals st !! name = Some ip ∧ untried tried ip = true)).
Proof.
  destruct (pickNewRootServer_cases tried st) as (w & Hst & Hcases).
  exists w. split; [exact Hst|].
  destruct Hcases as [[Hall Hr]|(name & ip & Hr & Hl & Hu)].
  - left. split; [exact Hall|exact Hr].
  - right. exists name, ip. split_and!; [exact Hr|exact Hl|exact Hu].
Qed.

(** X2 (the ways of a query).  A call of [queryDNS] dials
    [server:53] over UDP exactly once.  When the dial fails nothing else
    happens.  Otherwise the socket is closed exactly once, last, also
    when the name is refused (a panic) or the message cannot be packed,
    in which cases nothing is written; there is at most one write, of
    the packed query, and at most one read, made only after a successful
    write; the message returned is the decoding of at most 512 bytes of
    the datagram read.  The error tells the step that failed. *)
Theorem queryDNS_outcomes (E : Env) (domain server : string) (st : State E) :
  let address := server +:+ ":53" in
  let run := queryDNS domain server st in
  globals run.2 = globals st
  ∧ ∃ evs,
      trace run.2 = trace st ++ evs
      ∧ ((evs = [EvDial "udp" address false] ∧ run.1 = Ok (inr ErrDial))
         ∨ (evs = [EvDial "udp" address true; EvClose address]
            ∧ ((MustNewName domain = None ∧ run.1 = Panic PanicMustNewName)
               ∨ (∃ name, MustNewName domain = Some name
                          ∧ Message_Pack E (queryMessage name) = None
                          ∧ run.1 = Ok (inr ErrPack))))
         ∨ (∃ name query,
              MustNewName domain = Some name
              ∧ Message_Pack E (queryMessage name) = Some query
              ∧ ((evs = [EvDial "udp" address true; EvWrite address query false;
                         EvClose address]
                  ∧ run.1 = Ok (inr ErrWrite))
                 ∨ (evs = [EvDial "udp" address true; EvWrite address query true;
                           EvRead address None; EvClose address]
                    ∧ run.1 = Ok (inr ErrRead))
                 ∨ (∃ response,
                      evs = [EvDial "udp" address true;
                             EvWrite address query true;
                             EvRead address (Some response); EvClose address]
                      ∧ (length response ≤ 512)%nat
                      ∧ run.1 = Ok (match Message_Unpack E response with
                                    | Some res => inl res
                                    | None => inr ErrUnpack
                                    end))))).
Proof.
  intros address run. split.
  - apply (extends_queryDNS domain server st).
  - apply queryDNS_cases.
Qed.

(** X3 (one socket at a time).  In a lookup, and in the whole program,
    a socket is dialled only when none is open, every write, read and
    close is on the socket that is open, host lookups are made with no
    socket open, and no socket is left open. *)
Theorem one_socket_at_a_time (E : Env) (fuel : nat) (st : State E) :
  (∀ domain firstServerName firstServerIP,
     ∃ evs,
       trace (recursiveLookup fuel domain firstServerName firstServerIP st).2
       = trace st ++ evs
       ∧ socketsBalanced evs)
  ∧ ∃ evs, trace (main fuel st).2 = trace st ++ evs ∧ socketsBalanced evs.
Proof.
  split.
  - intros domain name ip. apply loop_balanced.
  - apply main_balanced.
Qed.

(** X3 on the delegation scenario. *)
Example one_socket_example :
  socketsBalanced
    (trace (main 5 (scriptStart delegationScript)).2).
Proof. by vm_compute. Qed.

(** X4 (one failed query per root server).  However long a lookup
    started at a root server of the table runs, no more queries fail in
    it than the table has entries: each failure uses up a root server. *)
Theorem failures_bounded_by_roots (E : Env) (fuel : nat)
    (domain firstServerName firstServerIP : string) (st : State E) :
  globals st = rootServers →
  rootServers !! firstServerName = Some firstServerIP →
  ∃ evs,
    trace (recursiveLookup fuel domain firstServerName firstServerIP st).2
    = trace st ++ evs
    ∧ (failures evs ≤ size rootServers)%nat.
Proof.
  intros Hg Hfirst.
  destruct (loop_failures fuel domain (mkLoopVars ∅ firstServerName firstServerIP)
              st Hg) as (evs & Ht & Hf).
  exists evs. split; [exact Ht|].
  cbn [serverIP triedServers] in Hf. apply rootIPs_lookup in Hfirst.
  pose proof (untried_mark_lt ∅ firstServerIP rootIPs Hfirst eq_refl) as Hlt.
  rewrite rootIPs_all_untried, length_rootIPs in Hlt.
  rewrite size_rootServers. unfold untriedRoots in Hf. lia.
Qed.

(** X4 where no server can be reached. *)
Lemma failures_bounded_by_roots_witness :
  ∃ evs,
    trace (recursiveLookup 20 "example.com." "a.root-servers.net" "198.41.0.4"
             (scriptStart unreachableScript)).2
    = trace (scriptStart unreachableScript) ++ evs
    ∧ (failures evs ≤ size rootServers)%nat.
Proof.
  apply (failures_bounded_by_roots (scriptEnv unreachableScript)).
  - reflexivity.
  - vm_compute. reflexivity.
Defined.

(** X5 (the tried set is the set of servers contacted).  When the loop
    is still running after [n] turns, it has dialled [n] servers, and an
    address is marked in the tried set exactly when it was marked at the
    start or is the address of one of these servers, whether that server
    answered or not. *)
Theorem tried_set_is_contacted (E : Env) (n : nat) (domain : string)
    (v v' : LoopVars) (st st' : State E) :
  iterations n domain v st = (Ok (inr v'), st') →
  ∃ ips,
    length ips = n
    ∧ queried (trace st') = queried (trace st) ++ ((λ ip, ip +:+ ":53") <$> ips)
    ∧ ∀ ip, untried (triedServers v') ip = false
            ↔ untried (triedServers v) ip = false ∨ ip ∈ ips.
Proof.
  intros Hrun.
  destruct (iterations_contacted n domain v st v' st' Hrun)
    as (ips & Hlen & Hq & Hiff).
  exists ips. split_and!; [exact Hlen|exact Hq|exact Hiff].
Qed.

(** X5 after two turns of the cycle scenario. *)
Lemma tried_set_is_contacted_witness :
  ∃ v' st' ips,
    iterations 2 "example.com." fromRootA (scriptStart cycleScript)
    = (Ok (inr v'), st')
    ∧ length ips = 2%nat
    ∧ queried (trace st')
      = queried (trace (scriptStart cycleScript))
        ++ ((λ ip, ip +:+ ":53") <$> ips)
    ∧ ∀ ip, untried (triedServers v') ip = false
            ↔ untried (triedServers fromRootA) ip = false ∨ ip ∈ ips.
Proof.
  destruct (iterations 2 "example.com." fromRootA (scriptStart cycleScript))
    as [[[e|v']|p] st'] eqn:Hrun;
    [apply (f_equal fst) in Hrun; vm_compute in Hrun; discriminate Hrun|
     |apply (f_equal fst) in Hrun; vm_compute in Hrun; discriminate Hrun].
  destruct (tried_set_is_contacted (scriptEnv cycleScript) 2 "example.com."
              fromRootA v' _ st' Hrun) as (ips & H).
  exists v', st', ips. split; [reflexivity|exact H].
Defined.

(** X6 (fallback goes to a fresh root server).  A lookup has run [n]
    turns from an empty tried set, and the query of turn [n + 1] fails.
    When the loop goes on, its next server is an entry of the table whose
    address is none of the [n + 1] addresses contacted so far in this
    lookup, be it by a query that failed or by one that was answered. *)
Theorem fallback_picks_fresh_root (E : Env) (n : nat)
    (domain firstServerName firstServerIP : string) (v v' : LoopVars)
    (st st1 st2 : State E) (e : error) :
  globals st = rootServers →
  iterations n domain (mkLoopVars ∅ firstServerName firstServerIP) st
  = (Ok (inr v), st1) →
  (queryDNS domain (serverIP v) (sending v st1)).1 = Ok (inr e) →
  iteration domain v st1 = (Ok (inr v'), st2) →
  ∃ ips,
    length ips = S n
    ∧ queried (trace st2) = queried (trace st) ++ ((λ ip, ip +:+ ":53") <$> ips)
    ∧ rootServers !! serverName v' = Some (serverIP v')
    ∧ serverIP v' ∉ ips.
Proof.
  intros Hg Hrun Hq Hit.
  destruct (iterations_contacted n domain _ st v st1 Hrun)
    as (ips & Hlen & Hqs & Hiff).
  assert (globals st1 = rootServers) as Hg1.
  { pose proof (globals_iterations n domain
                  (mkLoopVars ∅ firstServerName firstServerIP) st) as H.
    rewrite Hrun in H. cbn [snd] in H. congruence. }
  destruct (iteration_fail domain v st1 e Hq Hg1)
    as (st2' & _ & _ & [[_ Hit']|(name & ip & Hit' & Hl & Hu)]);
    rewrite Hit in Hit'; [discriminate Hit'|].
  injection Hit' as -> _.
  pose proof (iteration_queried domain v st1) as Hq2.
  rewrite Hit in Hq2. cbn [snd] in Hq2.
  exists (ips ++ [serverIP v]). split_and!.
  - rewrite length_app, Hlen. cbn [length]. lia.
  - rewrite Hq2, Hqs, fmap_app, <-app_assoc. reflexivity.
  - exact Hl.
  - cbn [serverIP]. rewrite untried_insert in Hu.
    destruct (decide (serverIP v = ip)) as [Heq|Hne]; [discriminate Hu|].
    intros Hin. apply elem_of_app in Hin as [Hin|Hin].
    + assert (untried (triedServers v) ip = false) as Hf.
      { apply Hiff. by right. }
      congruence.
    + apply list_elem_of_singleton in Hin. congruence.
Qed.

(** X6 where no server can be reached: the third root server tried. *)
Lemma fallback_picks_fresh_root_witness :
  ∃ v v' st1 st2,
    iterations 1 "example.com." fromRootA (scriptStart unreachableScript)
    = (Ok (inr v), st1)
    ∧ iteration "example.com." v st1 = (Ok (inr v'), st2)
    ∧ ∃ ips,
        length ips = 2%nat
        ∧ queried (trace st2)
          = queried (trace (scriptStart unreachableScript))
            ++ ((λ ip, ip +:+ ":53") <$> ips)
        ∧ rootServers !! serverName v' = Some (serverIP v')
        ∧ serverIP v' ∉ ips.
Proof.
  do 4 eexists. split; [vm_compute; reflexivity|].
  split; [vm_compute; reflexivity|].
  eapply (fallback_picks_fresh_root (scriptEnv unreachableScript) 1
            "example.com." "a.root-servers.net" "198.41.0.4").
  - reflexivity.
  - vm_compute. reflexivity.
  - vm_compute. reflexivity.
  - vm_compute. reflexivity.
Defined.

(** X7 (no panic on names that fit).  For a domain of at most 255 bytes
    a lookup never panics, whatever the servers send: the type
    assertions on record bodies cannot fail on what the decoder returns.
    Started on the initial table, the program itself never panics. *)
Theorem lookup_never_panics (E : Env) (fuel : nat) (st : State E) (p : panic) :
  (∀ domain firstServerName firstServerIP,
     (String.length domain ≤ 255)%nat →
     (recursiveLookup fuel domain firstServerName firstServerIP st).1 ≠ Panic p)
  ∧ (globals st = rootServers → (main fuel st).1 ≠ Panic p).
Proof.
  assert (∀ domain name ip (st0 : State E),
            (String.length domain ≤ 255)%nat →
            (recursiveLookup fuel domain name ip st0).1 ≠ Panic p) as Hlookup.
  { intros domain name ip st0 Hlen Hp.
    apply loop_panic_cause in Hp as [_ Hname].
    rewrite (MustNewName_fits domain Hlen) in Hname. discriminate Hname. }
  split.
  - intros domain name ip. apply Hlookup.
  - intros Hg.
    destruct (main_prints_table fuel st Hg)
      as (name & ip & st0 & entries & _ & _ & _ & _ & ->).
    apply Hlookup. vm_compute. lia.
Qed.

(** X7 on the delegation scenario. *)
Lemma lookup_never_panics_witness :
  (recursiveLookup 5 "example.com." "a.root-servers.net" "198.41.0.4"
     (scriptStart delegationScript)).1 ≠ Panic PanicTypeAssertion
  ∧ (main 5 (scriptStart delegationScript)).1 ≠ Panic PanicTypeAssertion.
Proof.
  destruct (lookup_never_panics (scriptEnv delegationScript) 5
              (scriptStart delegationScript) PanicTypeAssertion)
    as [Hlookup Hmain].
  split.
  - apply Hlookup. vm_compute. lia.
  - apply Hmain. reflexivity.
Defined.

(** X8 (a name that does not fit).  For a domain of more than 255 bytes,
    when the server can be dialled the lookup panics in its first
    iteration: the socket is opened and closed again, and nothing is
    written to it. *)
Theorem long_name_panics_unsent (E : Env) (fuel : nat) (domain : string)
    (v : LoopVars) (st : State E) :
  (255 < String.length domain)%nat →
  (net_Dial E (world st) "udp" (serverIP v +:+ ":53")).1 = true →
  loop (S fuel) domain v st
  = (Panic PanicMustNewName,
     mkState (net_Dial E (world st) "udp" (serverIP v +:+ ":53")).2 (globals st)
       (trace st ++ [EvPrint (OutSending (serverName v) (serverIP v));
                     EvDial "udp" (serverIP v +:+ ":53") true;
                     EvClose (serverIP v +:+ ":53")])).
Proof.
  intros Hlen Hdial. apply loop_panic. rewrite iteration_eq.
  unfold queryDNS, Dial, Close, defer, bind, call, emit, ret, throw, sending.
  cbn [fst snd world globals trace Print emit].
  rewrite Hdial, (MustNewName_refuses domain Hlen).
  cbn [fst snd world globals trace negb]. by rewrite <-!app_assoc.
Qed.

(** X8 at a name of 256 bytes. *)
Lemma long_name_panics_unsent_witness :
  loop 1 longName fromRootA (scriptStart delegationScript)
  = (Panic PanicMustNewName,
     mkState (E:=scriptEnv delegationScript) () rootServers
       [EvPrint (OutSending "a.root-servers.net" "198.41.0.4");
        EvDial "udp" "198.41.0.4:53" true;
        EvClose "198.41.0.4:53"]).
Proof.
  apply (long_name_panics_unsent (scriptEnv delegationScript) 0 longName
           fromRootA (scriptStart delegationScript)).
  - vm_compute. lia.
  - reflexivity.
Defined.

(** X9 (how a referral is read).  On a response of the decoder,
    [getNextServers] returns the targets of the NS records in order, with
    repetitions; it reports as the referral's domain the owner of the
    last NS record (the unknown domain when there is none, or when that
    owner is empty), and beside each server the address of the last
    A record of the additional section that bears the server's name,
    other record types being passed over.  The world is not consulted. *)
Theorem referral_report (E : Env) (res : Message) (st : State E) :
  wellTypedMessage res = true →
  getNextServers res st
  = (Ok (nsTargets (Authorities res)),
     mkState (world st) (globals st)
       (trace st ++ (EvPrint <$> referralLines res))).
Proof.
  intros Hwt. unfold wellTypedMessage in Hwt.
  apply andb_prop in Hwt as [Hwt Had]. apply andb_prop in Hwt as [_ Hau].
  by apply getNextServers_lines.
Qed.

(** X9 at a referral that repeats names. *)
Lemma referral_report_witness :
  getNextServers mixedReferral (scriptStart delegationScript)
  = (Ok ["ns1.example.com."; "ns2.example.com."],
     mkState (E:=scriptEnv delegationScript) () rootServers
       [EvPrint (OutReferral "example.com.");
        EvPrint (OutNameServer "ns1.example.com." (Some "10.0.0.3"));
        EvPrint (OutNameServer "ns2.example.com." None)]).
Proof.
  exact (referral_report (scriptEnv delegationScript) mixedReferral
           (scriptStart delegationScript) eq_refl).
Defined.

(** X10 (the step after a referral).  The query of an iteration returns
    a response that is not authoritative and has NS records.  Then the
    candidates are resolved in the state [getNextServers] leaves, and
    the iteration ends in the state [resolveNS] leaves: the loop goes on
    with the server and address selected, or, when the address is empty
    (no candidate resolved), the lookup returns through the exit for a
    failed resolution, without falling back to a root server. *)
Theorem referral_step (E : Env) (domain : string) (v : LoopVars)
    (st st1 : State E) (res : Message) :
  queryDNS domain (serverIP v) (sending v st) = (Ok (inl res), st1) →
  Authoritative (MHeader res) = false →
  nsTargets (Authorities res) ≠ [] →
  let run := resolveNS (nsTargets (Authorities res)) (getNextServers res st1).2 in
  ∃ name ip,
    run.1 = Ok (name, ip)
    ∧ iteration domain v st
      = if String.eqb ip ""
        then (Ok (inl ExitResolveFailed),
              mkState (world run.2) (globals run.2)
                (trace run.2 ++ [EvPrint OutFailedResolve]))
        else (Ok (inr (mkLoopVars (<[serverIP v := true]> (triedServers v))
                         name ip)), run.2).
Proof.
  intros Hq Haa Hne run.
  pose proof (queryDNS_wellTyped _ _ _ _ _ Hq) as Hwt.
  unfold wellTypedMessage in Hwt.
  apply andb_prop in Hwt as [Hwt Had]. apply andb_prop in Hwt as [_ Hau].
  rewrite (iteration_response _ _ _ _ _ Hq).
  exact (respond_referral domain _ res st1 Hau Had Haa Hne).
Qed.

(** X10 where host resolution knows no nameserver. *)
Lemma referral_step_witness :
  let st := scriptStart lostScript in
  let st1 := (queryDNS "example.com." (serverIP fromRootA) (sending fromRootA st)).2 in
  let run := resolveNS (nsTargets (Authorities glueReferral))
               (getNextServers glueReferral st1).2 in
  run.1 = Ok ("", "")
  ∧ iteration "example.com." fromRootA st
    = (Ok (inl ExitResolveFailed),
       mkState (world run.2) (globals run.2)
         (trace run.2 ++ [EvPrint OutFailedResolve])).
Proof.
  intros st st1 run.
  destruct (referral_step (scriptEnv lostScript) "example.com." fromRootA
              st st1 glueReferral) as (name & ip & Hr & Hit).
  - vm_compute. reflexivity.
  - reflexivity.
  - discriminate.
  - assert (run.1 = Ok ("", "")) as Hrun by (vm_compute; reflexivity).
    fold run in Hr, Hit. rewrite Hrun in Hr. injection Hr as <- <-.
    split; [exact Hrun|exact Hit].
Defined.

(** X11 (the bootstrap).  Started on the initial table, [main] prints
    every entry of the table once, in the order of the map iteration,
    and starts the lookup of [example.com.] at an entry of the table,
    whatever the random source gives; it cannot panic on the way. *)
Theorem main_bootstrap (E : Env) (fuel : nat) (st : State E) :
  globals st = rootServers →
  ∃ name ip st0 entries,
    rootServers !! name = Some ip
    ∧ entries ≡ₚ map_to_list rootServers
    ∧ globals st0 = rootServers
    ∧ trace st0
      = trace st
        ++ (EvPrint <$> (OutLoadingRootList
                           :: ((λ e, OutRootEntry e.1 e.2) <$> entries)
                           ++ [OutStarting "example.com."]))
    ∧ main fuel st = recursiveLookup fuel "example.com." name ip st0.
Proof.
  intros Hg.
  destruct (main_prints_table fuel st Hg)
    as (name & ip & st0 & entries & Hl & Hp & Hg0 & Ht & Hm).
  exists name, ip, st0, entries. split_and!; assumption.
Qed.

(** X11 on the delegation scenario. *)
Lemma main_bootstrap_witness :
  ∃ name ip st0 entries,
    rootServers !! name = Some ip
    ∧ entries ≡ₚ map_to_list rootServers
    ∧ globals st0 = rootServers
    ∧ trace st0
      = trace (scriptStart delegationScript)
        ++ (EvPrint <$> (OutLoadingRootList
                           :: ((λ e, OutRootEntry e.1 e.2) <$> entries)
                           ++ [OutStarting "example.com."]))
    ∧ main 5 (scriptStart delegationScript)
      = recursiveLookup 5 "example.com." name ip st0.
Proof.
  exact (main_bootstrap (scriptEnv delegationScript) 5
           (scriptStart delegationScript) eq_refl).
Defined.

(** * The mail sender: runs and traces *)

Import sending_mail.

Section MailRuns.
Context {E : MailEnv}.

Lemma events_extends {A} (m : Mail E A) (st : MailState E) evs :
  mtrace (m st).2 = mtrace st ++ evs → events m st = evs.
Proof. intros H. unfold events. by rewrite H, drop_app_length. Qed.

Lemma calls_app evs1 evs2 : calls (evs1 ++ evs2) = calls evs1 ++ calls evs2.
Proof. apply omap_app. Qed.

Lemma calls_ok cs : calls (ok <$> cs) = cs.
Proof. induction cs as [|c cs IH]; [done|]. cbn. f_equal. exact IH. Qed.

Lemma calls_logs lines : calls (EvLog <$> lines) = [].
Proof. by induction lines. Qed.

Lemma firstFailure_app evs1 evs2 :
  firstFailure (evs1 ++ evs2)
  = match firstFailure evs1 with
    | Some e => Some e
    | None => firstFailure evs2
    end.
Proof.
  induction evs1 as [|[c [e|]| |] evs1 IH]; cbn; try done.
  by destruct (deferred c).
Qed.

Lemma firstFailure_ok cs : firstFailure (ok <$> cs) = None.
Proof. by induction cs. Qed.

Lemma firstFailure_logs lines : firstFailure (EvLog <$> lines) = None.
Proof. by induction lines. Qed.

Lemma failFast_run (cs : list Call) (st : MailState E) :
  ∃ evs, mtrace (failFast cs st).2 = mtrace st ++ evs
         ∧ chain cs (failFast cs st).1 evs.
Proof.
  revert st. induction cs as [|c cs IH]; intros st.
  - exists []. by rewrite app_nil_r.
  - cbn. unfold mbind, Mail_bind, call. cbn.
    destruct (perform E (mworld st) c) as [[e|] w] eqn:Hc; cbn.
    + exists [EvCall c (Some e)]. split; [done|]. by exists [], cs.
    + destruct (IH (mkMailState w (mtrace st ++ [EvCall c None])))
        as (evs & Ht & Hch).
      exists (ok c :: evs). split.
      * rewrite Ht. cbn. by rewrite <-app_assoc.
      * destruct (failFast cs _).1 as [[c' e']|]; cbn in *.
        -- destruct Hch as (pre & post & -> & ->). by exists (c :: pre), post.
        -- by rewrite Hch.
Qed.

Lemma failFast_app (cs1 cs2 : list Call) (st : MailState E) :
  failFast (cs1 ++ cs2) st
  = match (failFast cs1 st).1 with
    | Some x => (Some x, (failFast cs1 st).2)
    | None => failFast cs2 (failFast cs1 st).2
    end.
Proof.
  revert st. induction cs1 as [|c cs1 IH]; intros st; [done|].
  cbn. unfold mbind, Mail_bind, call. cbn.
  destruct (perform E (mworld st) c) as [[e|] w]; cbn; [done|]. apply IH.
Qed.

Lemma chain_member cs c e evs : chain cs (Some (c, e)) evs → c ∈ cs.
Proof.
  intros (pre & post & -> & _). apply elem_of_app. right. constructor.
Qed.

Lemma NewSMTPClient_failFast (config : SMTPConfig) (st : MailState E) :
  NewSMTPClient config st
  = ((λ x, wrapped x.1 x.2) <$> (failFast (setupCalls E config) st).1,
     (failFast (setupCalls E config) st).2).
Proof.
  unfold NewSMTPClient, setupCalls. cbn. unfold mbind, Mail_bind, call. cbn.
  repeat (match goal with
          | |- context [perform E ?w ?c] =>
              destruct (perform E w c) as [[?|] ?]; cbn; try reflexivity
          end).
Qed.

End MailRuns.

(** * The mail sender: one session *)

Section MailSession.
Context {E : MailEnv}.

Lemma rcptLoop_failFast (tos : list mail_Address) (st : MailState E) :
  rcptLoop tos st
  = ((λ x, wrapped x.1 x.2)
       <$> (failFast ((λ to, Client_Rcpt (Address to)) <$> tos) st).1,
     (failFast ((λ to, Client_Rcpt (Address to)) <$> tos) st).2).
Proof.
  revert st. induction tos as [|to tos IH]; intros st; [done|].
  cbn. unfold mbind, Mail_bind, call. cbn.
  destruct (perform E (mworld st) (Client_Rcpt (Address to))) as [[e|] w]; cbn;
    [done|]. apply IH.
Qed.

Ltac run_mail :=
  repeat (unfold mbind, Mail_bind, call, defer, mret, Mail_ret;
          cbn -[setupCalls buildMultipartMessage]).

Lemma AdvancedSender_session (config : SMTPConfig) (email : Email)
    (st : MailState E) :
  AdvancedSender_Send config email st
  = session (mret (buildEmailMessage E email)) config email st.
Proof.
  unfold AdvancedSender_Send, session, envelopeCalls, defer.
  unfold mbind, Mail_bind. cbn -[setupCalls].
  rewrite NewSMTPClient_failFast.
  destruct (failFast (setupCalls E config) st) as [[[c e]|] st1]; cbn; [done|].
  run_mail.
  destruct (perform E (mworld st1) (Client_Mail (Username config)))
    as [[e|] w2]; run_mail; [done|].
  rewrite rcptLoop_failFast, failFast_app. run_mail.
  destruct (failFast _ _) as [[[c e]|] st3]; run_mail; [done|].
  destruct (perform E (mworld st3) Client_Data) as [[e|] w4]; run_mail; done.
Qed.

Lemma EliteSender_session (config : SMTPConfig) (email : Email)
    (st : MailState E) :
  EliteSender_Send config email st
  = session (buildMultipartMessage email) config email st.
Proof.
  unfold EliteSender_Send, session, envelopeCalls, defer.
  unfold mbind, Mail_bind. cbn -[setupCalls buildMultipartMessage].
  rewrite NewSMTPClient_failFast.
  destruct (failFast (setupCalls E config) st) as [[[c e]|] st1];
    cbn -[buildMultipartMessage]; [done|].
  run_mail.
  destruct (perform E (mworld st1) (Client_Mail (Username config)))
    as [[e|] w2]; run_mail; [done|].
  rewrite rcptLoop_failFast, failFast_app. run_mail.
  destruct (failFast _ _) as [[[c e]|] st3]; run_mail; [done|].
  destruct (perform E (mworld st3) Client_Data) as [[e|] w4]; run_mail; done.
Qed.

End MailSession.

Section MailFailures.

Lemma failure_ok (cs : list Call) : Forall (λ ev, failure ev = false) (ok <$> cs).
Proof. apply Forall_fmap, Forall_true. done. Qed.

Lemma failure_logs (lines : list string) :
  Forall (λ ev, failure ev = false) (EvLog <$> lines).
Proof. apply Forall_fmap, Forall_true. done. Qed.

Lemma succeeded_ok (cs : list Call) c e : EvCall c e ∈ ok <$> cs → e = None.
Proof. rewrite list_elem_of_fmap. intros (c' & Heq & _). by injection Heq. Qed.

Lemma succeeded_logs (lines : list string) c e : EvCall c e ∈ EvLog <$> lines → e = None.
Proof. rewrite list_elem_of_fmap. intros (c' & Heq & _). discriminate Heq. Qed.

Lemma unique_failure (l1 l2 l1' l2' : list MailEvent) (x x' : MailEvent) :
  Forall (λ ev, failure ev = false) l1 →
  Forall (λ ev, failure ev = false) l2 →
  failure x' = true →
  l1 ++ x :: l2 = l1' ++ x' :: l2' →
  l1' = l1 ∧ x' = x ∧ l2' = l2.
Proof.
  intros H1 H2 Hx'. revert l1'.
  induction H1 as [|a l1 Ha H1 IH]; intros [|a' l1'] Heq; cbn in Heq.
  - by injection Heq as -> ->.
  - injection Heq as -> ->.
    rewrite Forall_app, Forall_cons in H2. destruct H2 as (_ & Hf & _).
    rewrite Hf in Hx'. discriminate Hx'.
  - injection Heq as -> _. rewrite Ha in Hx'. discriminate Hx'.
  - injection Heq as -> Heq. destruct (IH l1' Heq) as (-> & -> & ->). done.
Qed.

Lemma no_failure (l l1' l2' : list MailEvent) (x' : MailEvent) :
  Forall (λ ev, failure ev = false) l →
  failure x' = true →
  l ≠ l1' ++ x' :: l2'.
Proof.
  intros Hl Hx' ->. rewrite Forall_app, Forall_cons in Hl.
  destruct Hl as (_ & Hf & _). rewrite Hf in Hx'. discriminate Hx'.
Qed.

Lemma failure_deferred (cs : list Call) (es : list (option error)) :
  Forall (λ c, deferred c = true) cs →
  Forall (λ ev, failure ev = false) (zip_with EvCall cs es).
Proof.
  intros H. revert es. induction H as [|c cs Hc H IH]; intros [|e es]; cbn;
    try constructor; [|apply IH].
  destruct e; cbn; [by rewrite Hc|done].
Qed.

End MailFailures.

Section SessionCases.
Context {E : MailEnv}.
Variable build : Mail E string.
Hypothesis Hbuild : onlyLogs build.

Lemma session_cases (config : SMTPConfig) (email : Email) (st : MailState E) :
  let r := session build config email st in
  ∃ evs, mtrace r.2 = mtrace st ++ evs ∧
    ((∃ c e, chain (setupCalls E config) (Some (c, e)) evs
             ∧ r.1 = Some (wrapped c e)
             ∧ (failFast (setupCalls E config) st).1 = Some (c, e)
             ∧ r.2 = (failFast (setupCalls E config) st).2)
     ∨ (∃ c e evs1 e2 e3,
          chain (envelopeCalls config email) (Some (c, e)) evs1
          ∧ evs = (ok <$> setupCalls E config) ++ evs1
                  ++ [EvCall Client_Quit e2; EvCall Client_Close e3]
          ∧ r.1 = Some (wrapped c e)
          ∧ (failFast (setupCalls E config) st).1 = None)
     ∨ (∃ st' lines e1 e2 e3,
          evs = (ok <$> setupCalls E config ++ envelopeCalls config email)
                ++ (EvLog <$> lines)
                ++ [EvCall (Writer_Write (build st').1) r.1;
                    EvCall Writer_Close e1; EvCall Client_Quit e2;
                    EvCall Client_Close e3]
          ∧ (failFast (setupCalls E config) st).1 = None
          ∧ mtrace st'
            = mtrace st
              ++ (ok <$> setupCalls E config ++ envelopeCalls config email))).
Proof.
  intros r. subst r.
  destruct (failFast_run (setupCalls E config) st) as (evs0 & Ht0 & Hch0).
  unfold session, mbind, Mail_bind. cbn -[setupCalls envelopeCalls].
  destruct (failFast (setupCalls E config) st) as [[[c e]|] st1];
    cbn -[setupCalls envelopeCalls] in *.
  { exists evs0. split; [done|]. left. by exists c, e. }
  destruct (failFast_run (envelopeCalls config email) st1) as (evs1 & Ht1 & Hch1).
  unfold defer, mbind, Mail_bind. cbn -[setupCalls envelopeCalls].
  destruct (failFast (envelopeCalls config email) st1) as [[[c e]|] st2];
    cbn -[setupCalls envelopeCalls] in *.
  { exists (evs0 ++ evs1
             ++ [EvCall Client_Quit (perform E (mworld st2) Client_Quit).1;
                 EvCall Client_Close
                   (perform E (perform E (mworld st2) Client_Quit).2
                      Client_Close).1]).
    split.
    - unfold call, mret, Mail_ret. cbn -[setupCalls envelopeCalls].
      rewrite Ht1, Ht0. by rewrite <-!app_assoc.
    - right; left. exists c, e, evs1. eexists _, _.
      split_and!; [exact Hch1|by rewrite Hch0|reflexivity|reflexivity]. }
  destruct (Hbuild st2) as [lines Hl].
  unfold call, mret, Mail_ret. cbn -[setupCalls envelopeCalls].
  destruct (build st2) as [msg st3] eqn:Hb. cbn in Hl. subst st3.
  cbn -[setupCalls envelopeCalls].
  set (w3 := perform E (mworld st2) (Writer_Write msg)).
  set (w4 := perform E w3.2 Writer_Close).
  set (w5 := perform E w4.2 Client_Quit).
  set (w6 := perform E w5.2 Client_Close).
  exists (evs0 ++ evs1 ++ (EvLog <$> lines)
          ++ [EvCall (Writer_Write msg) w3.1; EvCall Writer_Close w4.1;
              EvCall Client_Quit w5.1; EvCall Client_Close w6.1]).
  split.
  - rewrite Ht1, Ht0. by rewrite <-!app_assoc.
  - right; right. exists st2, lines, w4.1, w5.1, w6.1.
    split_and!; [|reflexivity|].
    + rewrite Hb, Hch0, Hch1, fmap_app. cbn [fst]. by rewrite <-!app_assoc.
    + rewrite Ht1, Ht0, Hch0, Hch1, fmap_app. by rewrite <-!app_assoc.
Qed.


Lemma setupCalls_not_deferred (config : SMTPConfig) (c : Call) :
  c ∈ setupCalls E config → deferred c = false ∧ owed c = [].
Proof.
  unfold setupCalls. rewrite !elem_of_cons, elem_of_nil.
  intros [->|[->|[->|[->|[]]]]]; done.
Qed.

Lemma envelopeCalls_not_deferred (config : SMTPConfig) (email : Email) (c : Call) :
  c ∈ envelopeCalls config email →
  deferred c = false ∧ owed c = [Client_Quit; Client_Close]
  ∧ (∀ msg, c ≠ Writer_Write msg).
Proof.
  unfold envelopeCalls. rewrite elem_of_cons, elem_of_app, list_elem_of_fmap.
  rewrite list_elem_of_singleton.
  intros [->|[(a & -> & _)| ->]]; done.
Qed.

Lemma session_result (config : SMTPConfig) (email : Email) (st : MailState E) :
  let run := session build config email in
  mtrace (run st).2 = mtrace st ++ events run st
  ∧ (run st).1 = firstFailure (events run st).
Proof.
  intros run. destruct (session_cases config email st) as (evs & Ht & Hcases).
  fold run in Ht, Hcases. rewrite (events_extends run st evs Ht).
  split; [exact Ht|].
  destruct Hcases as [(c & e & Hch & -> & _)
                     |[(c & e & evs1 & e2 & e3 & Hch & -> & -> & _)
                      |(st' & lines & e1 & e2 & e3 & -> & _)]].
  - destruct (setupCalls_not_deferred config c (chain_member _ _ _ _ Hch))
      as [Hd _].
    destruct Hch as (pre & post & _ & ->).
    rewrite firstFailure_app, firstFailure_ok. cbn. by rewrite Hd.
  - destruct (envelopeCalls_not_deferred config email c (chain_member _ _ _ _ Hch))
      as [Hd _].
    destruct Hch as (pre & post & _ & ->).
    rewrite !firstFailure_app, !firstFailure_ok. cbn. by rewrite Hd.
  - rewrite !firstFailure_app, firstFailure_ok, firstFailure_logs.
    destruct (run st).1, e1, e2, e3; reflexivity.
Qed.

Lemma session_success (config : SMTPConfig) (email : Email) (st : MailState E) :
  (session build config email st).1 = None →
  ∃ st', mtrace st'
         = mtrace st
           ++ (ok <$> setupCalls E config ++ envelopeCalls config email)
         ∧ calls (events (session build config email) st)
           = sessionCalls E config email (build st').1.
Proof.
  intros Hr. destruct (session_cases config email st) as (evs & Ht & Hcases).
  rewrite (events_extends _ st evs Ht).
  destruct Hcases as [(c & e & _ & Hr' & _)
                     |[(c & e & evs1 & e2 & e3 & _ & _ & Hr' & _)
                      |(st' & lines & e1 & e2 & e3 & -> & _ & Hst')]].
  - rewrite Hr in Hr'. discriminate Hr'.
  - rewrite Hr in Hr'. discriminate Hr'.
  - exists st'. split; [exact Hst'|].
    rewrite !calls_app, calls_ok, calls_logs. cbn.
    unfold sessionCalls. by rewrite <-app_assoc.
Qed.


Lemma session_fail_fast (config : SMTPConfig) (email : Email) (st : MailState E)
    (evs1 evs2 : list MailEvent) (c : Call) (e : error) :
  events (session build config email) st = evs1 ++ EvCall c (Some e) :: evs2 →
  deferred c = false →
  (∀ c' e', EvCall c' e' ∈ evs1 → e' = None) ∧ calls evs2 = owed c.
Proof.
  intros Hev Hd.
  assert (failure (EvCall c (Some e)) = true) as Hf by (cbn; by rewrite Hd).
  destruct (session_cases config email st) as (evs & Ht & Hcases).
  rewrite (events_extends _ st evs Ht) in Hev.
  destruct Hcases as [(c0 & e0 & Hch & _)
                     |[(c0 & e0 & evs0 & e2 & e3 & Hch & -> & _)
                      |(st' & lines & e1 & e2 & e3 & -> & _)]].
  - destruct (setupCalls_not_deferred config c0 (chain_member _ _ _ _ Hch))
      as [_ Ho].
    destruct Hch as (pre & post & _ & ->).
    destruct (unique_failure (ok <$> pre) [] evs1 evs2 _ _
                (failure_ok pre) (Forall_nil_2 _) Hf Hev) as (-> & Hx & ->).
    injection Hx as -> ->. split; [apply succeeded_ok|by rewrite Ho].
  - destruct (envelopeCalls_not_deferred config email c0
                (chain_member _ _ _ _ Hch)) as (_ & Ho & _).
    destruct Hch as (pre & post & _ & ->).
    replace ((ok <$> setupCalls E config)
             ++ ((ok <$> pre) ++ [EvCall c0 (Some e0)])
             ++ [EvCall Client_Quit e2; EvCall Client_Close e3])
      with ((ok <$> setupCalls E config ++ pre)
            ++ EvCall c0 (Some e0)
               :: [EvCall Client_Quit e2; EvCall Client_Close e3]) in Hev
      by (rewrite fmap_app, <-!app_assoc; reflexivity).
    destruct (unique_failure _ [EvCall Client_Quit e2; EvCall Client_Close e3]
                evs1 evs2 _ _ (failure_ok _)
                (failure_deferred [Client_Quit; Client_Close] [e2; e3]
                   ltac:(by repeat constructor)) Hf Hev)
      as (-> & Hx & ->).
    injection Hx as -> ->. split; [apply succeeded_ok|by rewrite Ho].
  - destruct (session build config email st).1 as [e0|] eqn:Hr.
    + rewrite app_assoc in Hev.
      change (?l ++ [?x; ?a; ?b; ?d]) with (l ++ x :: [a; b; d]) in Hev.
      destruct (unique_failure _ [EvCall Writer_Close e1; EvCall Client_Quit e2;
                                  EvCall Client_Close e3]
                  evs1 evs2 _ _
                  ltac:(apply Forall_app; split;
                        [apply failure_ok|apply failure_logs])
                  (failure_deferred [Writer_Close; Client_Quit; Client_Close]
                     [e1; e2; e3] ltac:(by repeat constructor)) Hf Hev)
        as (-> & Hx & ->).
      injection Hx as -> ->. split; [|done].
      intros c' e'. rewrite elem_of_app.
      intros [H|H]; [by eapply succeeded_ok|by eapply succeeded_logs].
    + exfalso. revert Hev. apply no_failure; [|exact Hf].
      rewrite !Forall_app. split_and!; [apply failure_ok|apply failure_logs|].
      constructor; [done|].
      exact (failure_deferred [Writer_Close; Client_Quit; Client_Close]
               [e1; e2; e3] ltac:(by repeat constructor)).
Qed.

Lemma session_closed_last (config : SMTPConfig) (email : Email)
    (st : MailState E) :
  (failFast (setupCalls E config) st).1 = None →
  ∃ mid, calls (events (session build config email) st)
         = setupCalls E config ++ mid ++ [Client_Quit; Client_Close]
         ∧ (Client_Quit ∉ mid) ∧ (Client_Close ∉ mid)
         ∧ (Writer_Close ∈ mid ↔ ∃ msg, Writer_Write msg ∈ mid).
Proof.
  intros Hs. destruct (session_cases config email st) as (evs & Ht & Hcases).
  rewrite (events_extends _ st evs Ht).
  destruct Hcases as [(c0 & e0 & _ & _ & Hs' & _)
                     |[(c0 & e0 & evs0 & e2 & e3 & Hch & -> & _)
                      |(st' & lines & e1 & e2 & e3 & -> & _)]].
  - rewrite Hs in Hs'. discriminate Hs'.
  - destruct Hch as (pre & post & Henv & ->).
    assert (∀ c, c ∈ pre ++ [c0] → c ∈ envelopeCalls config email) as Hin.
    { intros c Hc. rewrite Henv.
      apply elem_of_app in Hc as [Hc|Hc%list_elem_of_singleton];
        apply elem_of_app; [by left|right; subst c; constructor]. }
    exists (pre ++ [c0]).
    rewrite !calls_app, !calls_ok. cbn. split; [by rewrite <-!app_assoc|].
    split_and!.
    + intros H. by destruct (envelopeCalls_not_deferred _ _ _ (Hin _ H)).
    + intros H. by destruct (envelopeCalls_not_deferred _ _ _ (Hin _ H)).
    + split.
      * intros H. by destruct (envelopeCalls_not_deferred _ _ _ (Hin _ H)).
      * intros [msg H].
        by destruct (envelopeCalls_not_deferred _ _ _ (Hin _ H)) as (_ & _ & Hw);
          destruct (Hw msg).
  - exists (envelopeCalls config email
            ++ [Writer_Write (build st').1; Writer_Close]).
    rewrite !calls_app, !calls_ok, calls_logs.
    split; [by rewrite <-!app_assoc|].
    assert (∀ c, deferred c = true → c ∈ envelopeCalls config email → False)
      as Hno.
    { intros c Hd H. destruct (envelopeCalls_not_deferred _ _ _ H) as [Hd' _].
      rewrite Hd in Hd'. discriminate Hd'. }
    split_and!.
    + intros [H|H]%elem_of_app; [by apply Hno in H|].
      repeat (apply elem_of_cons in H as [H|H]; [discriminate H|]).
      by apply elem_of_nil in H.
    + intros [H|H]%elem_of_app; [by apply Hno in H|].
      repeat (apply elem_of_cons in H as [H|H]; [discriminate H|]).
      by apply elem_of_nil in H.
    + split; [intros _; exists (build st').1|intros _];
        apply elem_of_app; right; repeat constructor.
Qed.

End SessionCases.

(** * The mail sender: the two messages *)

Section MailMessages.
Context {E : MailEnv}.

Lemma append_cons (x : Ascii.ascii) (a b : string) :
  String x a +:+ b = String x (a +:+ b).
Proof. reflexivity. Qed.

Lemma append_nil_l (b : string) : "" +:+ b = b.
Proof. reflexivity. Qed.

Lemma append_assoc (a b c : string) : (a +:+ b) +:+ c = a +:+ (b +:+ c).
Proof.
  induction a as [|x a IH]; [done|]. rewrite !append_cons. by rewrite IH.
Qed.

Lemma append_nil_r (a : string) : a +:+ "" = a.
Proof. induction a as [|x a IH]; [done|]. rewrite append_cons. by rewrite IH. Qed.

Lemma length_append (a b : string) :
  String.length (a +:+ b) = (String.length a + String.length b)%nat.
Proof.
  induction a as [|x a IH]; [done|]. rewrite append_cons. cbn. by rewrite IH.
Qed.

Lemma concat_cons (x : string) (l : list string) :
  String.concat "" (x :: l) = x +:+ String.concat "" l.
Proof. destruct l; cbn; [by rewrite append_nil_r|done]. Qed.

Lemma onlyLogs_ret {A} (a : A) : onlyLogs (mret a : Mail E A).
Proof. intros [w t]. exists []. cbn. by rewrite app_nil_r. Qed.

Lemma attachLoop_run (boundary : string) (atts : list Attachment) (buf : string)
    (st : MailState E) :
  ∃ lines,
    attachLoop boundary atts buf st
    = (buf +:+ String.concat "" ((λ att, attachmentPart E boundary att +:+ CRLF) <$> atts),
       mkMailState (mworld st) (mtrace st ++ (EvLog <$> lines))).
Proof.
  revert buf st. induction atts as [|att atts IH]; intros buf st.
  - exists []. cbn. rewrite append_nil_r, app_nil_r. by destruct st.
  - cbn [attachLoop]. unfold mbind, Mail_bind. cbn zeta.
    set (buf' := (_ +:+ CRLF)).
    match goal with
    | |- context [attachLoop boundary atts buf' ?st1] =>
        destruct (IH buf' st1) as [lines Hl]; rewrite Hl
    end.
    assert (buf' = buf +:+ attachmentPart E boundary att +:+ CRLF) as ->.
    { unfold buf', attachmentPart. by rewrite !append_assoc. }
    rewrite fmap_cons, concat_cons, !append_assoc.
    destruct (base64_Encoder E (Data att)).2 as [err|].
    + exists (("Error encoding attachment " +:+ Filename att +:+ ": "
               +:+ Error err) :: lines).
      cbn. by rewrite <-app_assoc.
    + by exists lines.
Qed.

Lemma buildMultipartMessage_onlyLogs (email : Email) :
  onlyLogs (E:=E) (buildMultipartMessage email).
Proof.
  intros st. unfold buildMultipartMessage, mbind, Mail_bind, Getpid. cbn zeta.
  cbn [fst snd].
  match goal with
  | |- context [attachLoop ?b ?atts ?buf ?st1] =>
      destruct (attachLoop_run b atts buf st1) as [lines Hl]; rewrite Hl
  end.
  by exists lines.
Qed.

End MailMessages.

(** * The mail sender: reading a message back *)

Section MailReading.

Lemma hasCRLF_false (s : string) : hasCRLF s = false ↔ readLine s = None.
Proof.
  unfold hasCRLF. rewrite bool_decide_eq_false, <-eq_None_not_Some. done.
Qed.

Lemma readLine_cons (c : Ascii.ascii) (s : string) :
  c ≠ Ascii.ascii_of_nat 13 →
  readLine (String c s)
  = match readLine s with
    | Some (l, rest) => Some (String c l, rest)
    | None => None
    end.
Proof.
  intros Hc. cbn [readLine]. destruct s as [|d s]; [done|].
  destruct (Ascii.eqb_spec c (Ascii.ascii_of_nat 13)) as [->|_]; [done|].
  reflexivity.
Qed.

Lemma readLine_CRLF (rest : string) : readLine (CRLF +:+ rest) = Some ("", rest).
Proof. reflexivity. Qed.

Lemma readLine_unfold (c d : Ascii.ascii) (s : string) :
  readLine (String c (String d s))
  = if Ascii.eqb c (Ascii.ascii_of_nat 13) && Ascii.eqb d (Ascii.ascii_of_nat 10)
    then Some ("", s)
    else match readLine (String d s) with
         | Some (l, rest) => Some (String c l, rest)
         | None => None
         end.
Proof. reflexivity. Qed.

Lemma readLine_line (l rest : string) :
  readLine l = None → readLine (l +:+ CRLF +:+ rest) = Some (l, rest).
Proof.
  induction l as [|c l IH]; intros Hl; [done|].
  rewrite append_cons. destruct l as [|d l].
  - change ("" +:+ CRLF +:+ rest)
      with (String (Ascii.ascii_of_nat 13) (String (Ascii.ascii_of_nat 10) rest)).
    rewrite readLine_unfold.
    replace (Ascii.eqb (Ascii.ascii_of_nat 13) (Ascii.ascii_of_nat 10))
      with false by reflexivity.
    rewrite andb_false_r.
    change (String (Ascii.ascii_of_nat 13) (String (Ascii.ascii_of_nat 10) rest))
      with (CRLF +:+ rest).
    by rewrite readLine_CRLF.
  - rewrite append_cons, readLine_unfold. rewrite readLine_unfold in Hl.
    destruct (Ascii.eqb c (Ascii.ascii_of_nat 13)
              && Ascii.eqb d (Ascii.ascii_of_nat 10)); [discriminate Hl|].
    destruct (readLine (String d l)) as [[l' r']|] eqn:Hs; [discriminate Hl|].
    rewrite <-append_cons. by rewrite IH.
Qed.

Lemma readLine_prefix (p s : string) :
  forallb (λ c, negb (Ascii.eqb c (Ascii.ascii_of_nat 13)))
    (String.list_ascii_of_string p) = true →
  readLine s = None → readLine (p +:+ s) = None.
Proof.
  intros Hp Hs. induction p as [|c p IH]; [done|].
  cbn in Hp. apply andb_prop in Hp as [Hc Hp].
  rewrite append_cons, readLine_cons, (IH Hp); [done|].
  intros ->. by rewrite Ascii.eqb_refl in Hc.
Qed.

Lemma readHeaders_line (fuel : nat) (l rest : string) :
  l ≠ "" →
  readLine l = None →
  readHeaders (S fuel) (l +:+ CRLF +:+ rest)
  = match readHeaders fuel rest with
    | Some (ls, body) => Some (l :: ls, body)
    | None => None
    end.
Proof.
  intros Hne Hl. cbn [readHeaders]. rewrite (readLine_line _ rest Hl).
  by destruct l.
Qed.

Lemma append_nonempty (c : Ascii.ascii) (p s : string) : String c p +:+ s ≠ "".
Proof. rewrite append_cons. discriminate. Qed.

Lemma readHeaders_end (fuel : nat) (body : string) :
  readHeaders (S fuel) (CRLF +:+ body) = Some ([], body).
Proof. reflexivity. Qed.

Lemma readHeaders_more (n m : nat) (s : string) r :
  readHeaders n s = Some r → (n ≤ m)%nat → readHeaders m s = Some r.
Proof.
  revert m s r. induction n as [|n IH]; intros m s r Hr Hle; [done|].
  destruct m as [|m]; [lia|]. cbn [readHeaders] in *.
  destruct (readLine s) as [[[|c l] rest]|]; [done| |done].
  destruct (readHeaders n rest) as [[ls body]|] eqn:Hn; [|done].
  by rewrite (IH m rest _ Hn ltac:(lia)).
Qed.

Lemma joinAddresses_map (E : MailEnv) (addrs : list mail_Address) :
  joinAddresses E addrs = Join (Address_String E <$> addrs) ", ".
Proof.
  unfold joinAddresses. f_equal.
  assert (∀ acc, foldl (λ result addr, result ++ [Address_String E addr]) acc addrs
                 = acc ++ (Address_String E <$> addrs)) as H.
  { induction addrs as [|a addrs IH]; intros acc; cbn; [by rewrite app_nil_r|].
    by rewrite IH, <-app_assoc. }
  apply H.
Qed.

End MailReading.

(** * The mail sender: the two manual senders *)

Section ManualSenders.
Context {E : MailEnv}.

Lemma Send_session (s : Manual) (config : SMTPConfig) (email : Email)
    (st : MailState E) :
  Send s config email st = session (message s email) config email st.
Proof. destruct s; [apply AdvancedSender_session|apply EliteSender_session]. Qed.

Lemma message_onlyLogs (s : Manual) (email : Email) :
  onlyLogs (E:=E) (message s email).
Proof. destruct s; [apply onlyLogs_ret|apply buildMultipartMessage_onlyLogs]. Qed.

Lemma events_ext {A} (m1 m2 : Mail E A) (st : MailState E) :
  m1 st = m2 st → events m1 st = events m2 st.
Proof. unfold events. by intros ->. Qed.

Lemma NewSMTPClient_ok (config : SMTPConfig) (st : MailState E) :
  (NewSMTPClient config st).1 = None
  ↔ (failFast (setupCalls E config) st).1 = None.
Proof.
  rewrite NewSMTPClient_failFast. cbn [fst].
  by destruct (failFast (setupCalls E config) st).1.
Qed.

End ManualSenders.

(** * The mail sender: the whole program *)

Section MailMain.
Context {E : MailEnv}.

Lemma Send_extends (s : Manual) (config : SMTPConfig) (email : Email)
    (st : MailState E) :
  mtrace (Send s config email st).2
  = mtrace st ++ events (Send s config email) st.
Proof.
  destruct (session_result (message (E:=E) s email) (message_onlyLogs s email)
              config email st) as [Ht _].
  rewrite (events_ext _ _ st (Send_session s config email st)), Send_session.
  exact Ht.
Qed.

Lemma filter_opens_nil (l : list Call) :
  (∀ c, c ∈ l → opens c = false) → filter (λ c, opens c) l = [].
Proof.
  induction l as [|c l IH]; intros H; [done|].
  rewrite filter_cons, (H c ltac:(constructor)). cbn.
  apply IH. intros c' Hc'. apply H. by constructor.
Qed.

Lemma envelopeCalls_opens (config : SMTPConfig) (email : Email) (c : Call) :
  c ∈ envelopeCalls config email → opens c = false.
Proof.
  unfold envelopeCalls. rewrite elem_of_cons, elem_of_app, list_elem_of_fmap.
  rewrite list_elem_of_singleton.
  intros [->|[(a & -> & _)| ->]]; done.
Qed.

Lemma setupCalls_prefix_opens (config : SMTPConfig) (pre post : list Call)
    (c : Call) :
  setupCalls E config = pre ++ c :: post →
  filter (λ c, opens c) (pre ++ [c])
  = [net_Dial "tcp" (net_JoinHostPort E (Host config) (Port config))].
Proof.
  unfold setupCalls.
  destruct pre as [|p0 [|p1 [|p2 [|p3 pre]]]]; cbn; intros H.
  - by injection H as <- _.
  - by injection H as <- <- _.
  - by injection H as <- <- <- _.
  - by injection H as <- <- <- <- _.
  - injection H as _ _ _ _ H. by destruct pre.
Qed.

Lemma Send_opens (s : Manual) (config : SMTPConfig) (email : Email)
    (st : MailState E) :
  filter (λ c, opens c) (calls (events (Send s config email) st))
  = [net_Dial "tcp" (net_JoinHostPort E (Host config) (Port config))].
Proof.
  rewrite (events_ext _ _ st (Send_session s config email st)).
  destruct (session_cases (message (E:=E) s email) (message_onlyLogs s email)
              config email st) as (evs & Ht & Hcases).
  rewrite (events_extends _ st evs Ht).
  assert (filter (λ c, opens c) (setupCalls E config)
          = [net_Dial "tcp" (net_JoinHostPort E (Host config) (Port config))])
    as Hsetup by reflexivity.
  destruct Hcases as [(c0 & e0 & Hch & _)
                     |[(c0 & e0 & evs0 & e2 & e3 & Hch & -> & _)
                      |(st' & lines & e1 & e2 & e3 & -> & _)]].
  - destruct Hch as (pre & post & Hs & ->).
    rewrite calls_app, calls_ok. by apply setupCalls_prefix_opens with post.
  - destruct Hch as (pre & post & Henv & ->).
    rewrite !calls_app, !calls_ok.
    change (calls [EvCall c0 (Some e0)]) with [c0].
    rewrite !filter_app, Hsetup.
    rewrite (filter_opens_nil pre), (filter_opens_nil [c0]); [done| |].
    + intros c Hc%list_elem_of_singleton. subst c.
      apply (envelopeCalls_opens config email).
      rewrite Henv. apply elem_of_app. right. constructor.
    + intros c Hc. apply (envelopeCalls_opens config email).
      rewrite Henv. apply elem_of_app. by left.
  - rewrite !calls_app, !calls_ok, calls_logs, !filter_app, Hsetup.
    rewrite (filter_opens_nil (envelopeCalls config email)); [done|].
    apply envelopeCalls_opens.
Qed.

Lemma Send_writes (s : Manual) (config : SMTPConfig) (email : Email)
    (st : MailState E) (msg : string) :
  Writer_Write msg ∈ calls (events (Send s config email) st) →
  ∃ st' : MailState E, msg = (message s email st').1.
Proof.
  rewrite (events_ext _ _ st (Send_session s config email st)).
  destruct (session_cases (message (E:=E) s email) (message_onlyLogs s email)
              config email st) as (evs & Ht & Hcases).
  rewrite (events_extends _ st evs Ht).
  destruct Hcases as [(c0 & e0 & Hch & _)
                     |[(c0 & e0 & evs0 & e2 & e3 & Hch & -> & _)
                      |(st' & lines & e1 & e2 & e3 & -> & _)]].
  - destruct Hch as (pre & post & Hs & ->).
    rewrite calls_app, calls_ok. intros H.
    assert (Writer_Write msg ∈ setupCalls E config) as Hin.
    { rewrite Hs. apply elem_of_app in H as [H|H%list_elem_of_singleton];
        apply elem_of_app; [by left|right; rewrite H; constructor]. }
    by destruct (setupCalls_not_deferred (E:=E) config _ Hin).
  - destruct Hch as (pre & post & Henv & ->).
    rewrite !calls_app, !calls_ok.
    change (calls [EvCall c0 (Some e0)]) with [c0].
    change (calls [EvCall Client_Quit e2; EvCall Client_Close e3])
      with [Client_Quit; Client_Close].
    intros H. apply elem_of_app in H as [H|H].
    { by destruct (setupCalls_not_deferred (E:=E) config _ H). }
    apply elem_of_app in H as [H|H].
    + assert (Writer_Write msg ∈ envelopeCalls config email) as Hin.
      { rewrite Henv.
        apply elem_of_app in H as [H|H%list_elem_of_singleton];
          apply elem_of_app; [by left|right; rewrite H; constructor]. }
      destruct (envelopeCalls_not_deferred _ _ _ Hin) as (_ & _ & Hw).
      by destruct (Hw msg).
    + repeat (apply elem_of_cons in H as [H|H]; [discriminate H|]).
      by apply elem_of_nil in H.
  - rewrite !calls_app, !calls_ok, calls_logs.
    match goal with
    | |- context [calls [EvCall ?a ?x; EvCall ?b ?y; EvCall ?c ?z; EvCall ?d ?u]] =>
        change (calls [EvCall a x; EvCall b y; EvCall c z; EvCall d u])
          with [a; b; c; d]
    end.
    intros H. exists st'. apply elem_of_app in H as [H|H].
    + apply elem_of_app in H as [H|H].
      * by destruct (setupCalls_not_deferred (E:=E) config _ H).
      * destruct (envelopeCalls_not_deferred _ _ _ H) as (_ & _ & Hw).
        by destruct (Hw msg).
    + rewrite app_nil_l in H.
      apply elem_of_cons in H as [H|H]; [by injection H|].
      repeat (apply elem_of_cons in H as [H|H]; [discriminate H|]).
      by apply elem_of_nil in H.
Qed.

End MailMain.

Section MailMainTrace.
Context {E : MailEnv}.

Lemma log_outcome (err : option error) (f : error → string) (s : string)
    (st : MailState E) :
  match err with Some e => log (f e) | None => log s end st
  = (tt, mkMailState (mworld st)
           (mtrace st ++ [EvLog (match err with Some e => f e | None => s end)])).
Proof. by destruct err. Qed.

Lemma log_failure (err : option error) (f : error → string) (st : MailState E) :
  match err with Some e => log (f e) | None => mret tt end st
  = (tt, mkMailState (mworld st)
           (mtrace st
            ++ (EvLog <$> match err with Some e => [f e] | None => [] end))).
Proof. destruct err; cbn; [done|]. rewrite app_nil_r. by destruct st. Qed.

Lemma NewAttachmentFromFile_run (filePath : string) (st : MailState E) :
  let read := os_ReadFile E (mworld st) filePath in
  NewAttachmentFromFile filePath st
  = (match read.1.2 with
     | Some err =>
         (mkAttachment "" "" "", Some (Errorf "failed to read file: " err))
     | None =>
         (mkAttachment (filepath_Base E filePath)
            (if String.eqb (mime_TypeByExtension E (filepath_Ext E filePath)) ""
             then "application/octet-stream"
             else mime_TypeByExtension E (filepath_Ext E filePath))
            read.1.1, None)
     end,
     mkMailState read.2 (mtrace st ++ [EvReadFile filePath read.1.2])).
Proof.
  intros read. unfold NewAttachmentFromFile, ReadFile, mbind, Mail_bind.
  cbn zeta. fold read. destruct read as [[data [err|]] w]; reflexivity.
Qed.

Lemma main_trace (st : MailState E) :
  ∃ e0 l1 (st1 : MailState E) l2 r lines att (st3 : MailState E) l3,
    mtrace (main st).2
    = mtrace st
      ++ [EvCall (smtp_SendMail (net_JoinHostPort E "" "") (PlainAuth "" "" "" "")
                    "" ["john@gmail.com"; "doe@example.com"]
                    (buildEmailMessage E email)) e0;
          EvLog l1]
      ++ events (Send Advanced config email) st1
      ++ [EvLog l2; EvReadFile "photo.jpg" r]
      ++ (EvLog <$> lines)
      ++ events (Send Elite config (emailElite att)) st3
      ++ [EvLog l3]
    ∧ (r ≠ None → att = mkAttachment "" "" "")
    ∧ (l3 = "elite mail sent"
       ∨ ∃ e, l3 = "failed to send elite mail: " +:+ Error e).
Proof.
  unfold main, mbind, Mail_bind.
  destruct (SimpleSender_Send config email st) as [err1 st0] eqn:H1.
  cbn [fst snd]. rewrite !log_outcome. cbn [fst snd].
  match goal with
  | |- context [AdvancedSender_Send config email ?s] => set (st1 := s)
  end.
  pose proof (Send_extends Advanced config email st1) as H2.
  change (Send Advanced config email)
    with (AdvancedSender_Send (E:=E) config email) in H2 at 1.
  destruct (AdvancedSender_Send config email st1) as [err2 st2].
  cbn [fst snd] in *.
  rewrite NewAttachmentFromFile_run. cbn [fst snd mworld mtrace].
  set (read := os_ReadFile E (mworld st2) "photo.jpg").
  match goal with
  | |- context [let '(a, e) := ?p in _] => set (res := p)
  end.
  assert (read.1.2 ≠ None → res.1 = mkAttachment "" "" "") as Hatt.
  { unfold res. destruct read.1.2 as [e|]; [done|]. intros H. by destruct H. }
  destruct res as [att err3]. cbn [fst snd] in *.
  rewrite !log_failure. cbn [fst snd mworld mtrace].
  match goal with
  | |- context [EliteSender_Send config (emailElite att) ?s] => set (st3 := s)
  end.
  pose proof (Send_extends Elite config (emailElite att) st3) as H4.
  change (Send Elite config (emailElite att))
    with (EliteSender_Send (E:=E) config (emailElite att)) in H4 at 1.
  destruct (EliteSender_Send config (emailElite att) st3) as [err4 st4].
  cbn [fst snd mtrace] in *. rewrite ?log_outcome. cbn [fst snd mtrace mworld].
  eexists _, _, st1, _, read.1.2, _, att, st3, _.
  split; [|split; [exact Hatt|]].
  - rewrite H4. unfold st3 at 1. cbn [mtrace]. rewrite H2.
    unfold st1 at 1. cbn [mtrace].
    unfold SimpleSender_Send, call in H1. injection H1 as _ <-. cbn [mtrace].
    rewrite <-!app_assoc. reflexivity.
  - destruct err4 as [e|]; [right; by exists e|by left].
Qed.

End MailMainTrace.

Section MailMainFacts.
Context {E : MailEnv}.

Lemma Send_no_reads (s : Manual) (config : SMTPConfig) (email : Email)
    (st : MailState E) (name : string) (r : option error) :
  EvReadFile name r ∉ events (Send s config email) st.
Proof.
  rewrite (events_ext _ _ st (Send_session s config email st)).
  destruct (session_cases (message (E:=E) s email) (message_onlyLogs s email)
              config email st) as (evs & Ht & Hcases).
  rewrite (events_extends _ st evs Ht).
  assert (∀ cs : list Call, EvReadFile name r ∉ ok <$> cs) as Hok.
  { intros cs (c & Hc & _)%list_elem_of_fmap. discriminate Hc. }
  assert (∀ lines : list string, EvReadFile name r ∉ EvLog <$> lines) as Hlog.
  { intros cs (c & Hc & _)%list_elem_of_fmap. discriminate Hc. }
  destruct Hcases as [(c0 & e0 & Hch & _)
                     |[(c0 & e0 & evs0 & e2 & e3 & Hch & -> & _)
                      |(st' & lines & e1 & e2 & e3 & -> & _)]].
  - destruct Hch as (pre & post & _ & ->).
    intros [H|H%list_elem_of_singleton]%elem_of_app;
      [by apply Hok in H|discriminate H].
  - destruct Hch as (pre & post & _ & ->).
    intros [H|H]%elem_of_app; [by apply Hok in H|].
    apply elem_of_app in H as [H|H].
    + apply elem_of_app in H as [H|H%list_elem_of_singleton];
        [by apply Hok in H|discriminate H].
    + repeat (apply elem_of_cons in H as [H|H]; [discriminate H|]).
      by apply elem_of_nil in H.
  - intros [H|H]%elem_of_app; [by apply Hok in H|].
    apply elem_of_app in H as [H|H]; [by apply Hlog in H|].
    repeat (apply elem_of_cons in H as [H|H]; [discriminate H|]).
    by apply elem_of_nil in H.
Qed.

End MailMainFacts.

Section SimpleSender.
Context {E : MailEnv}.

Lemma fill_by_index (l : list mail_Address) (pre : list string) :
  foldl (λ to '(i, addr), <[i := Address addr]> to)
    (pre ++ replicate (length l) "")
    (imap (λ i addr, (length pre + i, addr)%nat) l)
  = pre ++ (Address <$> l).
Proof.
  revert pre. induction l as [|a l IH]; intros pre; [done|].
  cbn [imap foldl length replicate fmap list_fmap].
  rewrite Nat.add_0_r.
  replace (<[length pre:=Address a]> (pre ++ "" :: replicate (length l) ""))
    with ((pre ++ [Address a]) ++ replicate (length l) "").
  2:{ rewrite insert_app_r_alt, Nat.sub_diag by lia. cbn.
      by rewrite <-app_assoc. }
  rewrite (imap_ext _ (λ i addr, (length (pre ++ [Address a]) + i, addr)%nat)).
  2:{ intros i x _. cbn. rewrite length_app. cbn. f_equal. lia. }
  rewrite IH. by rewrite <-app_assoc.
Qed.

Lemma SimpleSender_Send_call (config : SMTPConfig) (email : Email)
    (st : MailState E) :
  SimpleSender_Send config email st
  = call (smtp_SendMail (net_JoinHostPort E (Host config) (Port config))
            (PlainAuth "" (Username config) (Password config) (Host config))
            (Address (From email)) (Address <$> To email)
            (buildEmailMessage E email)) st.
Proof.
  unfold SimpleSender_Send. cbn zeta.
  pose proof (fill_by_index (To email) []) as H. cbn [app length] in H.
  rewrite (imap_ext _ pair) in H by done. by rewrite H.
Qed.

End SimpleSender.

(** * Properties of the mail sender *)

(** X12 ([NewSMTPClient]).  [NewSMTPClient] makes the calls [net.Dial],
    [smtp.NewClient], [StartTLS] and [Auth] in this order, up to and
    including the first that fails; it returns the error of that call
    wrapped in the message of its step, and nil when all four succeed.
    It makes no other call: in particular it never closes the
    connection, also when a call after a successful dial fails. *)
Theorem NewSMTPClient_stops_at_first_failure (E : MailEnv) (config : SMTPConfig)
    (st : MailState E) :
  let run := NewSMTPClient config in
  mtrace (run st).2 = mtrace st ++ events run st
  ∧ ∃ r, chain (setupCalls E config) r (events run st)
         ∧ (run st).1 = (λ x, wrapped x.1 x.2) <$> r
         ∧ ∀ c, c ∈ calls (events run st) → deferred c = false.
Proof.
  intros run.
  destruct (failFast_run (setupCalls E config) st) as (evs & Ht & Hch).
  assert (mtrace (run st).2 = mtrace st ++ evs) as Ht'.
  { unfold run. by rewrite NewSMTPClient_failFast. }
  rewrite (events_extends run st evs Ht'). split; [exact Ht'|].
  exists (failFast (setupCalls E config) st).1. split; [exact Hch|].
  split; [unfold run; by rewrite NewSMTPClient_failFast|].
  intros c Hc. apply (setupCalls_not_deferred (E:=E) config).
  destruct (failFast (setupCalls E config) st).1 as [[c0 e0]|]; unfold chain in Hch.
  - destruct Hch as (pre & post & -> & ->).
    rewrite calls_app, calls_ok in Hc. cbn in Hc.
    apply elem_of_app in Hc as [Hc|Hc%list_elem_of_singleton];
      apply elem_of_app; [by left|right; subst c; constructor].
  - subst evs. by rewrite calls_ok in Hc.
Qed.

(** X12 on a server that refuses TLS: the connection that was dialled is
    not closed. *)
Example NewSMTPClient_leaves_connection :
  NewSMTPClient exampleConfig (mailStart plaintextOnly)
  = (Some (Errorf "failed to start TLS: " (LibraryError "502 not implemented")),
     mkMailState (E:=scriptMailEnv plaintextOnly) ()
       [EvCall (net_Dial "tcp" "smtp.example.com:587") None;
        EvCall (smtp_NewClient "smtp.example.com") None;
        EvCall (Client_StartTLS "smtp.example.com")
          (Some (LibraryError "502 not implemented"))]).
Proof. reflexivity. Qed.

(** X13 (what a manual sender returns).  [AdvancedSender.Send] and
    [EliteSender.Send] only extend the trace, and return the error of
    the first call that failed, wrapped in the message of its step, where
    the three deferred calls do not count: the errors of [writer.Close],
    [client.Quit] and [client.Close] are dropped, and [Send] returns nil
    when no other call failed. *)
Theorem send_returns_first_failure (E : MailEnv) (s : Manual)
    (config : SMTPConfig) (email : Email) (st : MailState E) :
  let run := Send s config email in
  mtrace (run st).2 = mtrace st ++ events run st
  ∧ (run st).1 = firstFailure (events run st).
Proof.
  intros run.
  destruct (session_result (message (E:=E) s email) (message_onlyLogs s email)
              config email st) as [Ht Hr].
  unfold run.
  rewrite (events_ext _ _ st (Send_session s config email st)), Send_session.
  by split.
Qed.

(** X13 on a server that refuses the message when the writer is closed:
    the send is reported as a success. *)
Example send_drops_deferred_errors :
  (Send Advanced exampleConfig exampleEmail (mailStart rejecting)).1 = None
  ∧ drop 9 (events (Send Advanced exampleConfig exampleEmail) (mailStart rejecting))
    = [EvCall Writer_Close (Some (LibraryError "554 message refused"));
       EvCall Client_Quit None;
       EvCall Client_Close (Some (LibraryError "use of closed connection"))].
Proof. split; vm_compute; reflexivity. Qed.

(** X14 (a send that succeeds).  When [Send] of a manual sender returns
    nil, the calls it made are exactly: the four of [NewSMTPClient],
    [Mail] with the user name of the configuration, [Rcpt] with the
    address of every recipient in order, [Data], one [Write] of the
    message, and then [writer.Close], [Quit] and [Close].  The message
    is the one the sender builds once the envelope is accepted. *)
Theorem send_success_sequence (E : MailEnv) (s : Manual) (config : SMTPConfig)
    (email : Email) (st : MailState E) :
  (Send s config email st).1 = None →
  ∃ st' : MailState E,
    mtrace st'
    = mtrace st ++ (ok <$> setupCalls E config ++ envelopeCalls config email)
    ∧ calls (events (Send s config email) st)
      = sessionCalls E config email (message s email st').1.
Proof.
  intros Hr.
  rewrite (events_ext _ _ st (Send_session s config email st)).
  rewrite Send_session in Hr.
  exact (session_success (message (E:=E) s email) (message_onlyLogs s email)
           config email st Hr).
Qed.

(** X14 on a server that accepts everything. *)
Lemma send_success_sequence_witness :
  ∃ st' : MailState (scriptMailEnv friendly),
         mtrace st'
         = mtrace (mailStart friendly)
           ++ (ok <$> setupCalls (scriptMailEnv friendly) exampleConfig
                      ++ envelopeCalls exampleConfig exampleEmail)
         ∧ calls (events (Send Elite exampleConfig exampleEmail)
                    (mailStart friendly))
           = sessionCalls (scriptMailEnv friendly) exampleConfig exampleEmail
               (message Elite exampleEmail st').1.
Proof.
  apply (send_success_sequence (scriptMailEnv friendly) Elite exampleConfig
           exampleEmail (mailStart friendly)).
  vm_compute. reflexivity.
Defined.

(** X15 (fail fast).  When a call of a manual sender fails that is not
    one of the deferred ones, every call before it has succeeded, and
    after it only the deferred calls that are owed are made: none when
    the call was one of [NewSMTPClient], so that a connection that was
    dialled stays open; [Quit] and [Close] for a failure of [Mail],
    [Rcpt] or [Data], so that no recipient after a refused one is
    offered and no data is sent; [writer.Close], [Quit] and [Close] for
    a failure of [Write]. *)
Theorem send_fail_fast (E : MailEnv) (s : Manual) (config : SMTPConfig)
    (email : Email) (st : MailState E) (evs1 evs2 : list MailEvent)
    (c : Call) (e : error) :
  events (Send s config email) st = evs1 ++ EvCall c (Some e) :: evs2 →
  deferred c = false →
  (∀ c' e', EvCall c' e' ∈ evs1 → e' = None) ∧ calls evs2 = owed c.
Proof.
  intros Hev Hd.
  rewrite (events_ext _ _ st (Send_session s config email st)) in Hev.
  exact (session_fail_fast (message (E:=E) s email) (message_onlyLogs s email)
           config email st evs1 evs2 c e Hev Hd).
Qed.

(** X15 on a server that refuses the second recipient. *)
Lemma send_fail_fast_witness :
  (∀ c' e',
     EvCall c' e'
     ∈ (ok <$> setupCalls (scriptMailEnv refusing) exampleConfig
               ++ [Client_Mail "someone@example.com";
                   Client_Rcpt "john@gmail.com"]) →
     e' = None)
  ∧ calls [EvCall Client_Quit None; EvCall Client_Close None]
    = owed (Client_Rcpt "doe@example.com").
Proof.
  apply (send_fail_fast (scriptMailEnv refusing) Advanced exampleConfig
           exampleEmail (mailStart refusing) _ _ _
           (LibraryError "550 no such user")).
  - vm_compute. reflexivity.
  - reflexivity.
Defined.

(** X16 (the session is closed last, once).  When [NewSMTPClient] has
    succeeded, a manual sender ends with [Quit] and then [Close],
    whatever happened in between, and makes neither call before;
    [writer.Close] is called exactly when a [Write] was. *)
Theorem session_closed_once (E : MailEnv) (s : Manual) (config : SMTPConfig)
    (email : Email) (st : MailState E) :
  (NewSMTPClient config st).1 = None →
  ∃ mid, calls (events (Send s config email) st)
         = setupCalls E config ++ mid ++ [Client_Quit; Client_Close]
         ∧ (Client_Quit ∉ mid) ∧ (Client_Close ∉ mid)
         ∧ (Writer_Close ∈ mid ↔ ∃ msg, Writer_Write msg ∈ mid).
Proof.
  intros Hs. apply NewSMTPClient_ok in Hs.
  rewrite (events_ext _ _ st (Send_session s config email st)).
  exact (session_closed_last (message (E:=E) s email) (message_onlyLogs s email)
           config email st Hs).
Qed.

(** X16 on a server that refuses the second recipient. *)
Lemma session_closed_once_witness :
  ∃ mid, calls (events (Send Elite exampleConfig exampleEmail)
                  (mailStart refusing))
         = setupCalls (scriptMailEnv refusing) exampleConfig ++ mid
           ++ [Client_Quit; Client_Close]
         ∧ (Client_Quit ∉ mid) ∧ (Client_Close ∉ mid)
         ∧ (Writer_Close ∈ mid ↔ ∃ msg, Writer_Write msg ∈ mid).
Proof.
  apply (session_closed_once (scriptMailEnv refusing) Elite exampleConfig
           exampleEmail (mailStart refusing)).
  vm_compute. reflexivity.
Defined.

(** X17 (the message reads back).  When the printed sender, the joined
    recipients and the subject contain no line break, the message of
    [buildEmailMessage] is five header lines (sender, recipients joined
    by a comma and a space, subject, MIME version, content type), one
    empty line, and the body unchanged: reading lines up to the first
    empty one gives these headers back, and what follows is the body. *)
Theorem message_reads_back (E : MailEnv) (email : Email) :
  hasCRLF (Address_String E (From email)) = false →
  hasCRLF (Join (Address_String E <$> To email) ", ") = false →
  hasCRLF (Subject email) = false →
  readMessage (buildEmailMessage E email)
  = Some (["From: " +:+ Address_String E (From email);
           "To: " +:+ Join (Address_String E <$> To email) ", ";
           "Subject: " +:+ Subject email;
           "MIME-Version: 1.0";
           "Content-Type: text/html; charset=UTF-8"],
          Body email).
Proof.
  intros HF HT HS. apply hasCRLF_false in HF, HT, HS.
  set (l1 := "From: " +:+ Address_String E (From email)).
  set (l2 := "To: " +:+ Join (Address_String E <$> To email) ", ").
  set (l3 := "Subject: " +:+ Subject email).
  assert (buildEmailMessage E email
          = l1 +:+ CRLF +:+ l2 +:+ CRLF +:+ l3 +:+ CRLF
            +:+ "MIME-Version: 1.0" +:+ CRLF
            +:+ "Content-Type: text/html; charset=UTF-8" +:+ CRLF
            +:+ CRLF +:+ Body email) as Hmsg.
  { unfold buildEmailMessage, l1, l2, l3.
    rewrite joinAddresses_map, append_nil_l. by rewrite !append_assoc. }
  unfold readMessage. apply (readHeaders_more 6).
  - rewrite Hmsg.
    rewrite !readHeaders_line, readHeaders_end; try done;
      try apply append_nonempty; by apply readLine_prefix.
  - rewrite Hmsg, !length_append. cbn. lia.
Qed.

(** X17 on the example message. *)
Lemma message_reads_back_witness :
  readMessage (buildEmailMessage (scriptMailEnv friendly) exampleEmail)
  = Some (["From: " +:+ Address_String (scriptMailEnv friendly) (From exampleEmail);
           "To: " +:+ Join (Address_String (scriptMailEnv friendly)
                              <$> To exampleEmail) ", ";
           "Subject: " +:+ Subject exampleEmail;
           "MIME-Version: 1.0";
           "Content-Type: text/html; charset=UTF-8"],
          Body exampleEmail).
Proof.
  apply (message_reads_back (scriptMailEnv friendly) exampleEmail);
    vm_compute; reflexivity.
Defined.

(** X18 (the boundary is not protected).  [buildMultipartMessage] writes
    the body and the attachments between lines made of the process
    number, and escapes nothing: a message with a first attachment is,
    byte for byte, the message without it whose body ends with the text
    of that attachment part.  The text of a message therefore does not
    determine its parts. *)
Theorem multipart_boundary_unescaped (E : MailEnv) (from : mail_Address)
    (to : list mail_Address) (subject body : string) (att : Attachment)
    (atts : list Attachment) (st : MailState E) :
  let boundary := pretty (os_Getpid E (mworld st)) in
  (buildMultipartMessage (mkEmail from to subject body (att :: atts)) st).1
  = (buildMultipartMessage
       (mkEmail from to subject
          (body +:+ CRLF +:+ attachmentPart E boundary att) atts) st).1.
Proof.
  intros boundary.
  unfold buildMultipartMessage, mbind, Mail_bind, Getpid. cbn zeta.
  cbn [fst snd From To Subject Body Attachments]. fold boundary.
  repeat match goal with
  | |- context [attachLoop ?b ?l ?buf ?st1] =>
      let H := fresh in
      destruct (attachLoop_run b l buf st1) as [? H]; rewrite H; clear H
  end.
  unfold mret, Mail_ret. cbn [fst].
  rewrite fmap_cons, concat_cons. by rewrite !append_assoc.
Qed.

(** X19 ([NewAttachmentFromFile]).  The function reads the file once
    and does nothing else.  It returns an error exactly when the read
    does, and then the attachment is the empty one.  On success the
    attachment carries the bytes read and the base name of the path, and
    its content type is never empty: it is the type of the extension, or
    [application/octet-stream] when that type is unknown. *)
Theorem attachment_from_file (E : MailEnv) (filePath : string)
    (st : MailState E) :
  let run := NewAttachmentFromFile filePath st in
  let read := os_ReadFile E (mworld st) filePath in
  let known := mime_TypeByExtension E (filepath_Ext E filePath) in
  run.2 = mkMailState read.2 (mtrace st ++ [EvReadFile filePath read.1.2])
  ∧ match read.1.2 with
    | Some e =>
        run.1 = (mkAttachment "" "" "", Some (Errorf "failed to read file: " e))
    | None =>
        run.1.2 = None
        ∧ Filename run.1.1 = filepath_Base E filePath
        ∧ Data run.1.1 = read.1.1
        ∧ ContentType run.1.1 ≠ ""
        ∧ ContentType run.1.1
          = if String.eqb known "" then "application/octet-stream" else known
    end.
Proof.
  intros run read known. unfold run. rewrite NewAttachmentFromFile_run.
  fold read. fold known. cbn [fst snd].
  destruct read.1.2 as [e|]; cbn [fst snd Filename Data ContentType].
  - done.
  - split_and!; [done|done|done|done| |done].
    destruct (String.eqb_spec known ""); [discriminate|done].
Qed.

(** X20 ([main] tries every sender).  Whatever fails, [main] goes
    through its three ways of sending: it hands the first message to
    [smtp.SendMail], with the sender's address as the envelope sender
    and the two recipients' addresses, and then dials the server twice,
    once for each manual sender.  The last thing it does is report the
    outcome of the third send. *)
Theorem main_attempts_every_send (E : MailEnv) (st : MailState E) :
  let evs := events main st in
  mtrace (main st).2 = mtrace st ++ evs
  ∧ filter (λ c, opens c) (calls evs)
    = [smtp_SendMail (net_JoinHostPort E "" "") (PlainAuth "" "" "" "") ""
         ["john@gmail.com"; "doe@example.com"] (buildEmailMessage E email);
       net_Dial "tcp" (net_JoinHostPort E "" "");
       net_Dial "tcp" (net_JoinHostPort E "" "")]
  ∧ ∃ line, last evs = Some (EvLog line)
            ∧ (line = "elite mail sent"
               ∨ ∃ e, line = "failed to send elite mail: " +:+ Error e).
Proof.
  intros evs.
  destruct (main_trace st)
    as (e0 & l1 & st1 & l2 & r & lines & att & st3 & l3 & Ht & _ & Hl3).
  unfold evs. rewrite (events_extends main st _ Ht). split; [exact Ht|]. split.
  - rewrite !calls_app, !filter_app, !Send_opens, calls_logs. reflexivity.
  - exists l3. split; [|exact Hl3].
    rewrite !app_assoc. apply last_snoc.
Qed.

(** X21 (an attachment that cannot be read).  When [main] cannot read
    [photo.jpg] it goes on: every message it writes to the server is
    then the plain message of the second send or the multipart message
    of the third with the empty attachment in the place of the file,
    that is a part without name, type or content. *)
Theorem unreadable_attachment_still_sent (E : MailEnv) (st : MailState E)
    (e : error) (msg : string) :
  EvReadFile "photo.jpg" (Some e) ∈ events main st →
  Writer_Write msg ∈ calls (events main st) →
  msg = buildEmailMessage E email
  ∨ ∃ st' : MailState E,
      msg = (buildMultipartMessage (emailElite (mkAttachment "" "" "")) st').1.
Proof.
  destruct (main_trace st)
    as (e0 & l1 & st1 & l2 & r & lines & att & st3 & l3 & Ht & Hatt & _).
  rewrite (events_extends main st _ Ht). intros Hread Hwrite.
  assert (r = Some e) as ->.
  { apply elem_of_app in Hread as [H|H].
    { repeat (apply elem_of_cons in H as [H|H]; [discriminate H|]).
      by apply elem_of_nil in H. }
    apply elem_of_app in H as [H|H]; [by apply Send_no_reads in H|].
    apply elem_of_app in H as [H|H].
    { apply elem_of_cons in H as [H|H]; [discriminate H|].
      apply elem_of_cons in H as [H|H]; [by injection H|].
      by apply elem_of_nil in H. }
    apply elem_of_app in H as [H|H].
    { apply list_elem_of_fmap in H as (? & H & _). discriminate H. }
    apply elem_of_app in H as [H|H]; [by apply Send_no_reads in H|].
    apply list_elem_of_singleton in H. discriminate H. }
  rewrite (Hatt ltac:(discriminate)) in Hwrite.
  rewrite !calls_app, calls_logs in Hwrite.
  apply elem_of_app in Hwrite as [H|H].
  { repeat (apply elem_of_cons in H as [H|H]; [discriminate H|]).
    by apply elem_of_nil in H. }
  apply elem_of_app in H as [H|H].
  { left. by destruct (Send_writes Advanced config email st1 msg H) as [st' ->]. }
  apply elem_of_app in H as [H|H]; [by apply elem_of_nil in H|].
  apply elem_of_app in H as [H|H]; [by apply elem_of_nil in H|].
  apply elem_of_app in H as [H|H]; [|by apply elem_of_nil in H].
  right. exact (Send_writes Elite config _ st3 msg H).
Qed.

(** X21 on a server that accepts everything, without the file. *)
Lemma unreadable_attachment_still_sent_witness :
  (buildMultipartMessage (emailElite (mkAttachment "" "" ""))
     (mailStart friendly)).1
  = buildEmailMessage (scriptMailEnv friendly) email
  ∨ ∃ st' : MailState (scriptMailEnv friendly),
      (buildMultipartMessage (emailElite (mkAttachment "" "" ""))
         (mailStart friendly)).1
      = (buildMultipartMessage (emailElite (mkAttachment "" "" "")) st').1.
Proof.
  apply (unreadable_attachment_still_sent (scriptMailEnv friendly)
           (mailStart friendly)
           (LibraryError "open: no such file or directory")).
  - apply (list_elem_of_lookup_2 _ 15). vm_compute. reflexivity.
  - apply (list_elem_of_lookup_2 _ 21). vm_compute. reflexivity.
Defined.

(** X22 ([SimpleSender.Send]).  The simple sender makes one call,
    [smtp.SendMail], and returns its error unchanged.  The envelope
    sender is the address of [From] (the manual senders give the user
    name of the configuration instead), the recipients are the addresses
    of [To], all of them and in order, and the message is the one of
    [buildEmailMessage]. *)
Theorem simple_send_one_call (E : MailEnv) (config : SMTPConfig)
    (email : Email) (st : MailState E) :
  let run := SimpleSender_Send config email in
  mtrace (run st).2 = mtrace st ++ events run st
  ∧ events run st
    = [EvCall (smtp_SendMail (net_JoinHostPort E (Host config) (Port config))
                 (PlainAuth "" (Username config) (Password config) (Host config))
                 (Address (From email)) (Address <$> To email)
                 (buildEmailMessage E email))
         (run st).1].
Proof.
  intros run.
  assert (mtrace (run st).2
          = mtrace st
            ++ [EvCall (smtp_SendMail
                          (net_JoinHostPort E (Host config) (Port config))
                          (PlainAuth "" (Username config) (Password config)
                             (Host config))
                          (Address (From email)) (Address <$> To email)
                          (buildEmailMessage E email))
                  (run st).1]) as Ht.
  { unfold run. by rewrite SimpleSender_Send_call. }
  rewrite (events_extends run st _ Ht). by split.
Qed.
